(** * sudokuz: the constraint engine (sudokuSolver.ts, sudokuGenerator.ts,
      gridConfig.ts) as a shallow embedding.

    JavaScript arrays are lists read with stdpp's lookup and written with
    stdpp's insert; what JavaScript does out of range is written out:
    [grid[row]] of a missing row is [undefined], indexing [undefined] throws
    a TypeError, and reading a missing column of an existing row yields
    [undefined].  Function bodies live in a small monad with three
    outcomes (fall through, [return], exception) so that the loops with
    early [return] keep the shape they have in the source. *)

From Stdlib Require Import ZArith Lia Ascii.
From stdpp Require Import base list gmap strings pretty.

Open Scope Z_scope.
Open Scope nat_scope.

(** ** JavaScript values stored in, or read from, a grid *)

(** [number | null] is the declared cell type; [undefined] is what a read
    past the end of a row gives.  Numbers are the integers. *)
Inductive value : Type :=
| Undefined
| Null
| Num (n : Z).

#[global] Instance value_eq_dec : EqDecision value.
Proof. solve_decision. Defined.

(** [a === b] *)
Definition strict_eq (a b : value) : bool :=
  match a, b with
  | Undefined, Undefined => true
  | Null, Null => true
  | Num x, Num y => Z.eqb x y
  | _, _ => false
  end.

(** types/sudoku.ts *)
Abbreviation SudokuGrid := (list (list value)) (only parsing).

Inductive Difficulty : Type := easy | medium | hard.

Record GridConfig : Type := {
  size : nat;
  subGridRows : nat;
  subGridCols : nat;
  maxNumber : nat
}.

Record CellPosition : Type := { row : nat; col : nat }.

Record ValidationResult : Type := {
  isValid : bool;
  conflicts : list CellPosition
}.

(** ** Outcomes *)

Inductive error : Type :=
| TypeError    (* property read or write on [undefined] *)
| OutOfFuel.   (* the recursion bound of the model was reached *)

(** What a call gives back. *)
Inductive res (A : Type) : Type :=
| Ok (a : A)
| Err (e : error).
Arguments Ok {A} a.
Arguments Err {A} e.

#[global] Instance error_eq_dec : EqDecision error.
Proof. solve_decision. Defined.

#[global] Instance res_eq_dec {A : Type} `{EqDecision A} : EqDecision (res A).
Proof. solve_decision. Defined.

(** What a statement inside a function returning [R] does. *)
Inductive comp (R A : Type) : Type :=
| Normal (a : A)
| Return (r : R)
| Throw (e : error).
Arguments Normal {R A} a.
Arguments Return {R A} r.
Arguments Throw {R A} e.

Definition bind {R A B : Type} (m : comp R A) (k : A -> comp R B) : comp R B :=
  match m with
  | Normal a => k a
  | Return r => Return r
  | Throw e => Throw e
  end.

(** A call inside a body: its exception propagates. *)
Definition call {R A : Type} (m : res A) : comp R A :=
  match m with
  | Ok a => Normal a
  | Err e => Throw e
  end.

(** The function boundary: a body that falls off its end or returns. *)
Definition fn {R : Type} (body : comp R R) : res R :=
  match body with
  | Normal r => Ok r
  | Return r => Ok r
  | Throw e => Err e
  end.

Declare Scope js_scope.
Delimit Scope js_scope with js.
Notation "'let*' p ':=' m 'in' k" := (bind m (fun p => k))
  (at level 10, p pattern, m at level 100, k at level 200) : js_scope.
Notation "m ';;;' k" := (bind m (fun _ => k))
  (at level 100, right associativity) : js_scope.
Open Scope js_scope.

(** [for (const x of xs) body], with the variables the body assigns
    threaded as [s]. *)
Fixpoint for_each {R A S : Type} (xs : list A) (body : A -> S -> comp R S)
    (s : S) : comp R S :=
  match xs with
  | [] => Normal s
  | x :: xs' => let* s' := body x s in for_each xs' body s'
  end.

(** ** Array access *)

(** [cells[col]] *)
Definition index (cells : list value) (col : nat) : value :=
  default Undefined (cells !! col).

(** [cells[col] = v]; past the end JavaScript grows the array, the holes
    read as [undefined]. *)
Definition assign (cells : list value) (col : nat) (v : value) : list value :=
  if col <? length cells then <[col := v]> cells
  else cells ++ replicate (col - length cells) Undefined ++ [v].

(** [grid[row][col]] *)
Definition get_cell (grid : SudokuGrid) (row col : nat) : res value :=
  match grid !! row with
  | None => Err TypeError
  | Some cells => Ok (index cells col)
  end.

(** [grid[row][col] = v] *)
Definition set_cell (grid : SudokuGrid) (row col : nat) (v : value)
    : res SudokuGrid :=
  match grid !! row with
  | None => Err TypeError
  | Some cells => Ok (<[row := assign cells col v]> grid)
  end.

(** ** sudokuSolver.ts *)

(** [SudokuSolver.isValidMove]; it only reads the grid. *)
Definition isValidMove (grid : SudokuGrid) (row col : nat) (num : value)
    (gridConfig : GridConfig) : res bool :=
  let size := size gridConfig in
  fn (
    for_each (seq 0 size) (fun c _ =>
      if negb (c =? col) then
        let* v := call (get_cell grid row c) in
        if strict_eq v num then Return false else Normal tt
      else Normal tt) tt ;;;
    for_each (seq 0 size) (fun r _ =>
      if negb (r =? row) then
        let* v := call (get_cell grid r col) in
        if strict_eq v num then Return false else Normal tt
      else Normal tt) tt ;;;
    let boxStartRow := row / subGridRows gridConfig * subGridRows gridConfig in
    let boxStartCol := col / subGridCols gridConfig * subGridCols gridConfig in
    for_each (seq boxStartRow (subGridRows gridConfig)) (fun r _ =>
      for_each (seq boxStartCol (subGridCols gridConfig)) (fun c _ =>
        if negb (r =? row) || negb (c =? col) then
          let* v := call (get_cell grid r c) in
          if strict_eq v num then Return false else Normal tt
        else Normal tt) tt) tt ;;;
    Return true).

(** [SudokuSolver.getPossibleNumbers] *)
Definition getPossibleNumbers (grid : SudokuGrid) (row col : nat)
    (gridConfig : GridConfig) : res (list Z) :=
  fn (
    let* possible := for_each (seq 1 (maxNumber gridConfig)) (fun num possible =>
      let* ok := call (isValidMove grid row col (Num (Z.of_nat num)) gridConfig) in
      if ok then Normal (possible ++ [Z.of_nat num]) else Normal possible) [] in
    Return possible).

(** [SudokuSolver.findBestEmptyCell] *)
Definition findBestEmptyCell (grid : SudokuGrid) (gridConfig : GridConfig)
    : res (option (nat * nat)) :=
  fn (
    let* (bestCell, _) :=
      for_each (seq 0 (size gridConfig)) (fun row st =>
        for_each (seq 0 (size gridConfig)) (fun col '(bestCell, minPossibilities) =>
          let* v := call (get_cell grid row col) in
          if strict_eq v Null then
            let* possible := call (getPossibleNumbers grid row col gridConfig) in
            let possibilities := length possible in
            if possibilities <? minPossibilities then
              if possibilities =? 1 then Return (Some (row, col))
              else Normal (Some (row, col), possibilities)
            else Normal (bestCell, minPossibilities)
          else Normal (bestCell, minPossibilities)) st)
        (None, maxNumber gridConfig + 1) in
    Return bestCell).

(** [SudokuSolver.solveRecursive]: the grid is updated in place, so the
    grid as the call leaves it is part of the result.  [fuel] bounds the
    recursion depth. *)
Fixpoint solveRecursive (fuel : nat) (grid : SudokuGrid) (gridConfig : GridConfig)
    : res (bool * SudokuGrid) :=
  match fuel with
  | 0 => Err OutOfFuel
  | S fuel' =>
    fn (
      let* bestCell := call (findBestEmptyCell grid gridConfig) in
      match bestCell with
      | None => Return (true, grid)
      | Some (row, col) =>
        let* possibleNumbers := call (getPossibleNumbers grid row col gridConfig) in
        let* grid := for_each possibleNumbers (fun num grid =>
          let* grid := call (set_cell grid row col (Num num)) in
          let* (solved, grid) := call (solveRecursive fuel' grid gridConfig) in
          if solved : bool then Return (true, grid)
          else call (set_cell grid row col Null)) grid in
        Return (false, grid)
      end)
  end.

(** [SudokuSolver.solve]; [clearCache] empties a map nothing reads. *)
Definition solve (fuel : nat) (grid : SudokuGrid) (gridConfig : GridConfig)
    : res (bool * SudokuGrid) :=
  solveRecursive fuel grid gridConfig.

(** [SudokuSolver.shuffleArray] (Fisher-Yates).  [Math.random] is an
    arbitrary source [rand]: its [k]-th draw, scaled and floored by
    [Math.floor(Math.random() * (i + 1))], is [rand k mod (i + 1)], any
    index in [0..i].  The number of draws taken so far is threaded. *)
Definition swap {T : Type} (shuffled : list T) (i j : nat) : list T :=
  match shuffled !! i, shuffled !! j with
  | Some a, Some b => <[j := a]> (<[i := b]> shuffled)
  | _, _ => shuffled
  end.

Definition shuffleArray {T : Type} (rand : nat -> nat) (array : list T) (k : nat)
    : list T * nat :=
  fold_left (fun '(shuffled, k) i =>
               let j := rand k mod (i + 1) in
               (swap shuffled i j, S k))
            (rev (seq 1 (length array - 1))) (array, k).

(** [SudokuSolver.findFirstEmptyCell]: both bounds are the literal 9. *)
Definition findFirstEmptyCell (grid : SudokuGrid) : res (option (nat * nat)) :=
  fn (
    for_each (seq 0 9) (fun row _ =>
      for_each (seq 0 9) (fun col _ =>
        let* v := call (get_cell grid row col) in
        if strict_eq v Null then Return (Some (row, col)) else Normal tt) tt) tt ;;;
    Return None).

(** [SudokuSolver.fillGridRandomly]; the result carries the grid as the
    call leaves it and the number of random draws taken. *)
Fixpoint fillGridRandomly (rand : nat -> nat) (fuel : nat) (grid : SudokuGrid)
    (gridConfig : GridConfig) (k : nat) : res (bool * SudokuGrid * nat) :=
  match fuel with
  | 0 => Err OutOfFuel
  | S fuel' =>
    fn (
      let* emptyCell := call (findFirstEmptyCell grid) in
      match emptyCell with
      | None => Return (true, grid, k)
      | Some (row, col) =>
        let '(numbers, k) :=
          shuffleArray rand (map Z.of_nat (seq 1 (maxNumber gridConfig))) k in
        let* (grid, k) := for_each numbers (fun num '(grid, k) =>
          let* ok := call (isValidMove grid row col (Num num) gridConfig) in
          if ok then
            let* grid := call (set_cell grid row col (Num num)) in
            let* (filled, grid, k) :=
              call (fillGridRandomly rand fuel' grid gridConfig k) in
            if filled : bool then Return (true, grid, k)
            else
              let* grid := call (set_cell grid row col Null) in
              Normal (grid, k)
          else Normal (grid, k)) (grid, k) in
        Return (false, grid, k)
      end)
  end.

(** [SudokuSolver.generateComplete]: what [fillGridRandomly] returns is
    dropped, the grid it worked on is returned. *)
Definition generateComplete (rand : nat -> nat) (fuel : nat)
    (gridConfig : GridConfig) (k : nat) : res (SudokuGrid * nat) :=
  let size := size gridConfig in
  let grid : SudokuGrid := replicate size (replicate size Null) in
  fn (
    let* (_, grid, k) := call (fillGridRandomly rand fuel grid gridConfig k) in
    Return (grid, k)).

(** [SudokuSolver.validateGrid]: each filled cell is cleared, checked and
    written back, so the grid as the call leaves it is part of the result. *)
Definition validateGrid (grid : SudokuGrid) (gridConfig : GridConfig)
    : res (ValidationResult * SudokuGrid) :=
  fn (
    let* (grid, conflicts) :=
      for_each (seq 0 (size gridConfig)) (fun row st =>
        for_each (seq 0 (size gridConfig)) (fun col '(grid, conflicts) =>
          let* num := call (get_cell grid row col) in
          if negb (strict_eq num Null) then
            let* grid := call (set_cell grid row col Null) in
            let* ok := call (isValidMove grid row col num gridConfig) in
            let conflicts :=
              if negb ok then conflicts ++ [{| row := row; col := col |}]
              else conflicts in
            let* grid := call (set_cell grid row col num) in
            Normal (grid, conflicts)
          else Normal (grid, conflicts)) st)
        (grid, []) in
    Return ({| isValid := length conflicts =? 0; conflicts := conflicts |}, grid)).

(** [SudokuSolver.isComplete] *)
Definition isComplete (grid : SudokuGrid) (gridConfig : GridConfig)
    : res (bool * SudokuGrid) :=
  fn (
    for_each (seq 0 (size gridConfig)) (fun row _ =>
      for_each (seq 0 (size gridConfig)) (fun col _ =>
        let* v := call (get_cell grid row col) in
        if strict_eq v Null then Return (false, grid) else Normal tt) tt) tt ;;;
    let* (result, grid) := call (validateGrid grid gridConfig) in
    Return (isValid result, grid)).

(** [Array.prototype.sort] with a comparator.  The sort is stable
    (ECMAScript 2019), and a stable sort has one result; it is computed
    here by insertion from the right. *)
Fixpoint sort_insert {R T : Type} (compareFn : T -> T -> comp R Z) (a : T)
    (sorted : list T) : comp R (list T) :=
  match sorted with
  | [] => Normal [a]
  | b :: rest =>
    let* c := compareFn a b in
    if (c <=? 0)%Z then Normal (a :: sorted)
    else let* rest' := sort_insert compareFn a rest in Normal (b :: rest')
  end.

Fixpoint array_sort {R T : Type} (compareFn : T -> T -> comp R Z) (array : list T)
    : comp R (list T) :=
  match array with
  | [] => Normal []
  | a :: rest =>
    let* sorted := array_sort compareFn rest in sort_insert compareFn a sorted
  end.

(** [SudokuSolver.getHint]; [solution] is a parameter the body never
    uses. *)
Definition getHint (grid solution : SudokuGrid) (gridConfig : GridConfig)
    : res (option CellPosition) :=
  fn (
    let* emptyCells :=
      for_each (seq 0 (size gridConfig)) (fun row emptyCells =>
        for_each (seq 0 (size gridConfig)) (fun col emptyCells =>
          let* v := call (get_cell grid row col) in
          if strict_eq v Null
          then Normal (emptyCells ++ [{| row := row; col := col |}])
          else Normal emptyCells) emptyCells) [] in
    if length emptyCells =? 0 then Return None
    else
      let* emptyCells := array_sort (fun a b =>
        let* aPossible := call (getPossibleNumbers grid (row a) (col a) gridConfig) in
        let* bPossible := call (getPossibleNumbers grid (row b) (col b) gridConfig) in
        let aPossibilities := Z.of_nat (length aPossible) in
        let bPossibilities := Z.of_nat (length bPossible) in
        Normal (aPossibilities - bPossibilities)%Z) emptyCells in
      Return (head emptyCells)).

(** [SudokuSolver.createRemovalOrder]: all positions, row by row, then
    shuffled. *)
Definition createRemovalOrder (rand : nat -> nat) (gridConfig : GridConfig)
    (k : nat) : res (list CellPosition * nat) :=
  fn (
    let* positions :=
      for_each (seq 0 (size gridConfig)) (fun row positions =>
        for_each (seq 0 (size gridConfig)) (fun col positions =>
          Normal (positions ++ [{| row := row; col := col |}])) positions) [] in
    Return (shuffleArray rand positions k)).

(** ** gridConfig.ts *)

Definition getGridConfig (difficulty : Difficulty) : GridConfig :=
  match difficulty with
  | easy => {| size := 4; subGridRows := 2; subGridCols := 2; maxNumber := 4 |}
  | medium => {| size := 6; subGridRows := 2; subGridCols := 3; maxNumber := 6 |}
  | hard => {| size := 16; subGridRows := 4; subGridCols := 4; maxNumber := 16 |}
  end.

(** ** sudokuGenerator.ts *)

Module SudokuGenerator.

Record PuzzlePair : Type := { puzzle : SudokuGrid; solution : SudokuGrid }.

Record GeneratedPuzzle : Type := {
  gen_puzzle : SudokuGrid;
  gen_solution : SudokuGrid;
  gen_gridConfig : GridConfig
}.

Definition N (n : Z) : value := Num n.
Definition o : value := Null.

Definition create4x4Puzzle : PuzzlePair :=
  {| solution := [ [N 1; N 2; N 3; N 4];
                   [N 3; N 4; N 1; N 2];
                   [N 2; N 1; N 4; N 3];
                   [N 4; N 3; N 2; N 1] ];
     puzzle := [ [N 1; o; o; N 4];
                 [o; N 4; N 1; o];
                 [N 2; o; o; N 3];
                 [o; N 3; N 2; o] ] |}.

Definition create6x6Puzzle : PuzzlePair :=
  {| solution := [ [N 1; N 2; N 3; N 4; N 5; N 6];
                   [N 4; N 5; N 6; N 1; N 2; N 3];
                   [N 2; N 3; N 1; N 5; N 6; N 4];
                   [N 5; N 6; N 4; N 2; N 3; N 1];
                   [N 3; N 1; N 2; N 6; N 4; N 5];
                   [N 6; N 4; N 5; N 3; N 1; N 2] ];
     puzzle := [ [N 1; o; o; N 4; o; N 6];
                 [o; N 5; o; o; N 2; o];
                 [N 2; o; N 1; o; o; N 4];
                 [o; N 6; o; N 2; o; o];
                 [o; N 1; o; o; N 4; o];
                 [N 6; o; N 5; o; o; N 2] ] |}.

Definition create16x16Puzzle : PuzzlePair :=
  let solution : SudokuGrid :=
    map (fun row =>
           map (fun col => Num (Z.of_nat ((row * 4 + row / 4 + col) mod 16 + 1)))
               (seq 0 16))
        (seq 0 16) in
  let puzzle : SudokuGrid :=
    imap (fun rowIndex row =>
            imap (fun colIndex cell =>
                    if (rowIndex + colIndex) mod 3 =? 0 then Null else cell)
                 row)
         solution in
  {| puzzle := puzzle; solution := solution |}.

Definition createPredefinedPuzzle (gridConfig : GridConfig) : PuzzlePair :=
  match size gridConfig with
  | 4 => create4x4Puzzle
  | 6 => create6x6Puzzle
  | 16 => create16x16Puzzle
  | _ => create6x6Puzzle
  end.

(** [grid.map(row => [...row])] *)
Definition copyGrid (grid : SudokuGrid) : SudokuGrid :=
  map (fun row => row ++ []) grid.

Definition generatePuzzle (difficulty : Difficulty) : GeneratedPuzzle :=
  let gridConfig := getGridConfig difficulty in
  let pair := createPredefinedPuzzle gridConfig in
  {| gen_puzzle := copyGrid (puzzle pair);
     gen_solution := copyGrid (solution pair);
     gen_gridConfig := gridConfig |}.

Definition createEmptyGrid (size : nat) : SudokuGrid :=
  replicate size (replicate size Null).

End SudokuGenerator.

(** ** SudokuContext.tsx: the state updates of the game

    Each update handed to [setGameState] is a function from the previous
    state to the next; [Date.now()] is the argument [now]. *)

Module SudokuContext.

Local Abbreviation solver_isComplete := isComplete.
Local Abbreviation solver_getHint := getHint.

Record GameState : Type := {
  grid : SudokuGrid;
  solution : SudokuGrid;
  initialGrid : SudokuGrid;
  isComplete : bool;
  errors : gset string;
  selectedCell : option CellPosition;
  difficulty : Difficulty;
  gridConfig : GridConfig;
  startTime : Z;
  endTime : option Z
}.

(** The key [`${r}-${c}`] of a cell in the set of errors. *)
Definition errorKey (r c : nat) : string := pretty r +:+ "-" +:+ pretty c.

(** [grid.map((r, rowIndex) => rowIndex === row
      ? r.map((cell, colIndex) => colIndex === col ? value : cell)
      : [...r])] *)
Definition withCell (grid : SudokuGrid) (row col : nat) (value : value)
    : SudokuGrid :=
  imap (fun rowIndex r =>
          if rowIndex =? row
          then imap (fun colIndex cell => if colIndex =? col then value else cell) r
          else r ++ [])
       grid.

(** [new Set(validation.conflicts.map(({ row: r, col: c }) => `${r}-${c}`))] *)
Definition errorSet (conflicts : list CellPosition) : gset string :=
  list_to_set (map (fun p => errorKey (row p) (col p)) conflicts).

Definition newGame (now : Z) (difficulty : Difficulty) : GameState :=
  let generated := SudokuGenerator.generatePuzzle difficulty in
  {| grid := SudokuGenerator.gen_puzzle generated;
     solution := SudokuGenerator.gen_solution generated;
     initialGrid := SudokuGenerator.copyGrid (SudokuGenerator.gen_puzzle generated);
     isComplete := false;
     errors := ∅;
     selectedCell := None;
     difficulty := difficulty;
     gridConfig := SudokuGenerator.gen_gridConfig generated;
     startTime := now;
     endTime := None |}.

Definition makeMove (now : Z) (row col : nat) (value : value) (prev : GameState)
    : res GameState :=
  fn (
    let* initial := call (get_cell (initialGrid prev) row col) in
    if negb (strict_eq initial Null) then Return prev
    else
      let newGrid := withCell (grid prev) row col value in
      let* (validation, newGrid) := call (validateGrid newGrid (gridConfig prev)) in
      let newErrors := errorSet (conflicts validation) in
      let* (complete, newGrid) :=
        call (solver_isComplete newGrid (gridConfig prev)) in
      Return {| grid := newGrid;
                solution := solution prev;
                initialGrid := initialGrid prev;
                isComplete := complete;
                errors := newErrors;
                selectedCell := selectedCell prev;
                difficulty := difficulty prev;
                gridConfig := gridConfig prev;
                startTime := startTime prev;
                endTime := if complete then Some now else endTime prev |}).

Definition selectCell (row col : nat) (prev : GameState) : GameState :=
  {| grid := grid prev;
     solution := solution prev;
     initialGrid := initialGrid prev;
     isComplete := isComplete prev;
     errors := errors prev;
     selectedCell := Some {| row := row; col := col |};
     difficulty := difficulty prev;
     gridConfig := gridConfig prev;
     startTime := startTime prev;
     endTime := endTime prev |}.

Definition solvePuzzle (now : Z) (prev : GameState) : GameState :=
  {| grid := SudokuGenerator.copyGrid (solution prev);
     solution := solution prev;
     initialGrid := initialGrid prev;
     isComplete := true;
     errors := ∅;
     selectedCell := selectedCell prev;
     difficulty := difficulty prev;
     gridConfig := gridConfig prev;
     startTime := startTime prev;
     endTime := Some now |}.

(** The cell of the solution is read where the hinted cell of the grid is
    mapped, and a hinted cell is a cell of the grid. *)
Definition getHint (now : Z) (prev : GameState) : res GameState :=
  fn (
    let* hint :=
      call (solver_getHint (grid prev) (solution prev) (gridConfig prev)) in
    match hint with
    | None => Return prev
    | Some hint =>
      let* value := call (get_cell (solution prev) (row hint) (col hint)) in
      let newGrid := withCell (grid prev) (row hint) (col hint) value in
      let* (validation, newGrid) := call (validateGrid newGrid (gridConfig prev)) in
      let newErrors := errorSet (conflicts validation) in
      let* (complete, newGrid) :=
        call (solver_isComplete newGrid (gridConfig prev)) in
      Return {| grid := newGrid;
                solution := solution prev;
                initialGrid := initialGrid prev;
                isComplete := complete;
                errors := newErrors;
                selectedCell := Some hint;
                difficulty := difficulty prev;
                gridConfig := gridConfig prev;
                startTime := startTime prev;
                endTime := if complete then Some now else endTime prev |}
    end).

Definition resetGame (now : Z) (prev : GameState) : GameState :=
  {| grid := SudokuGenerator.copyGrid (initialGrid prev);
     solution := solution prev;
     initialGrid := initialGrid prev;
     isComplete := false;
     errors := ∅;
     selectedCell := None;
     difficulty := difficulty prev;
     gridConfig := gridConfig prev;
     startTime := now;
     endTime := None |}.

Definition isInitialCell (gameState : GameState) (row col : nat) : res bool :=
  fn (
    let* initial := call (get_cell (initialGrid gameState) row col) in
    Return (negb (strict_eq initial Null))).

Definition hasError (gameState : GameState) (row col : nat) : bool :=
  bool_decide (errorKey row col ∈ errors gameState).

(** What the player does, and a game as the sequence of it; every event
    comes with the time at which it happens. *)
Inductive action : Type :=
| NewGame (difficulty : Difficulty)
| MakeMove (row col : nat) (value : option Z)
| SelectCell (row col : nat)
| SolvePuzzle
| GetHint
| ResetGame.

Definition step (now : Z) (a : action) (prev : GameState) : res GameState :=
  match a with
  | NewGame difficulty => Ok (newGame now difficulty)
  | MakeMove row col value =>
      makeMove now row col (from_option Num Null value) prev
  | SelectCell row col => Ok (selectCell row col prev)
  | SolvePuzzle => Ok (solvePuzzle now prev)
  | GetHint => getHint now prev
  | ResetGame => Ok (resetGame now prev)
  end.

Fixpoint run (events : list (Z * action)) (st : GameState) : res GameState :=
  match events with
  | [] => Ok st
  | (now, a) :: events' =>
    match step now a st with
    | Ok st' => run events' st'
    | Err e => Err e
    end
  end.

End SudokuContext.

(** ** Well-formed inputs *)

(** The geometry of the data model: [R * C = N], legal values [1..N]. *)
Definition wf_config (gridConfig : GridConfig) : Prop :=
  0 < subGridRows gridConfig /\ 0 < subGridCols gridConfig /\
  size gridConfig = subGridRows gridConfig * subGridCols gridConfig /\
  maxNumber gridConfig = size gridConfig.

(** A square [size] by [size] matrix of [number | null]. *)
Definition wf_grid (gridConfig : GridConfig) (grid : SudokuGrid) : Prop :=
  length grid = size gridConfig /\
  Forall (fun cells => length cells = size gridConfig /\
                       Forall (fun v => v <> Undefined) cells) grid.

(** The sub-box of [(row, col)] starts at
    [(floor(row/R)*R, floor(col/C)*C)] and is [R] rows by [C] columns. *)
Definition inBox (gridConfig : GridConfig) (row col r c : nat) : Prop :=
  let boxStartRow := row / subGridRows gridConfig * subGridRows gridConfig in
  let boxStartCol := col / subGridCols gridConfig * subGridCols gridConfig in
  boxStartRow <= r < boxStartRow + subGridRows gridConfig /\
  boxStartCol <= c < boxStartCol + subGridCols gridConfig.

(** [(r, c)] is another cell of the row, the column or the sub-box of
    [(row, col)]. *)
Definition peer (gridConfig : GridConfig) (row col r c : nat) : Prop :=
  r < size gridConfig /\ c < size gridConfig /\ (r, c) <> (row, col) /\
  (r = row \/ c = col \/ inBox gridConfig row col r c).

(** The number of empty cells. *)
Definition countEmpty (grid : SudokuGrid) : nat :=
  length (filter (fun v => v = Null) (concat grid)).

(** The value a read of [grid[row][col]] yields when the row exists. *)
Definition cellAt (grid : SudokuGrid) (row col : nat) : value :=
  match grid !! row with
  | Some cells => index cells col
  | None => Undefined
  end.

(** The three scans of [isValidMove] over the values the reads yield. *)
Definition rowHit (grid : SudokuGrid) (row col : nat) (num : value) (c : nat) : bool :=
  negb (c =? col) && strict_eq (cellAt grid row c) num.

Definition colHit (grid : SudokuGrid) (row col : nat) (num : value) (r : nat) : bool :=
  negb (r =? row) && strict_eq (cellAt grid r col) num.

Definition boxHit (grid : SudokuGrid) (row col : nat) (num : value) (r c : nat) : bool :=
  (negb (r =? row) || negb (c =? col)) && strict_eq (cellAt grid r c) num.

Definition noHit (grid : SudokuGrid) (row col : nat) (num : value)
    (gridConfig : GridConfig) : bool :=
  let boxStartRow := row / subGridRows gridConfig * subGridRows gridConfig in
  let boxStartCol := col / subGridCols gridConfig * subGridCols gridConfig in
  negb (existsb (rowHit grid row col num) (seq 0 (size gridConfig))) &&
  negb (existsb (colHit grid row col num) (seq 0 (size gridConfig))) &&
  negb (existsb (fun r => existsb (boxHit grid row col num r)
                            (seq boxStartCol (subGridCols gridConfig)))
          (seq boxStartRow (subGridRows gridConfig))).

(** What [validateGrid] decides for one cell, and the list it builds. *)
Definition conflictAt (grid : SudokuGrid) (gridConfig : GridConfig)
    (row col : nat) : bool :=
  negb (strict_eq (cellAt grid row col) Null) &&
  negb (noHit grid row col (cellAt grid row col) gridConfig).

Definition conflictsOf (grid : SudokuGrid) (gridConfig : GridConfig)
    : list CellPosition :=
  flat_map (fun row =>
    flat_map (fun col =>
      if conflictAt grid gridConfig row col
      then [{| row := row; col := col |}] else [])
      (seq 0 (size gridConfig)))
    (seq 0 (size gridConfig)).

(** The list [getPossibleNumbers] builds. *)
Definition candidates (grid : SudokuGrid) (row col : nat)
    (gridConfig : GridConfig) : list Z :=
  flat_map (fun num =>
              if noHit grid row col (Num (Z.of_nat num)) gridConfig
              then [Z.of_nat num] else [])
           (seq 1 (maxNumber gridConfig)).

(** [grid'] has the rows of [grid] and agrees with it outside the top
    left 9 by 9 window. *)
Definition keepsOutside9 (grid grid' : SudokuGrid) : Prop :=
  length grid' = length grid /\
  forall r c, 9 <= r \/ 9 <= c -> cellAt grid' r c = cellAt grid r c.

(** The empty cells in the order [getHint] collects them. *)
Definition emptyCellsOf (grid : SudokuGrid) (gridConfig : GridConfig)
    : list CellPosition :=
  flat_map (fun row =>
    flat_map (fun col =>
      if strict_eq (cellAt grid row col) Null
      then [{| row := row; col := col |}] else [])
      (seq 0 (size gridConfig)))
    (seq 0 (size gridConfig)).

(** The number of legal candidate values of a cell: the values [v] in
    [1..maxNumber] for which [isValidMove] returns true. *)
Definition candidateCount (grid : SudokuGrid) (row col : nat)
    (gridConfig : GridConfig) : nat :=
  length (filter (fun v => isValidMove grid row col (Num (Z.of_nat v)) gridConfig
                           = Ok true)
                 (seq 1 (maxNumber gridConfig))).

(** The first element of [l], if any, has the least [key]. *)
Definition headMin {T : Type} (key : T -> nat) (l : list T) : Prop :=
  forall h, head l = Some h -> forall x, x ∈ l -> key h <= key x.

(** ** Grids the statements below are tried on *)

Definition twoOnes4 : SudokuGrid :=
  [ [Num 1; Num 1; Null; Null];
    [Null; Null; Null; Null];
    [Null; Null; Null; Null];
    [Null; Null; Null; Null] ].

Definition allOnes4 : SudokuGrid := replicate 4 (replicate 4 (Num 1)).

Definition nearlyFull4 : SudokuGrid :=
  [ [Num 2; Num 2; Num 3; Num 4];
    [Num 3; Num 4; Num 1; Num 2];
    [Num 2; Num 1; Num 4; Num 3];
    [Num 4; Num 3; Num 2; Null] ].

Definition nearlyFull4_solved : SudokuGrid :=
  [ [Num 2; Num 2; Num 3; Num 4];
    [Num 3; Num 4; Num 1; Num 2];
    [Num 2; Num 1; Num 4; Num 3];
    [Num 4; Num 3; Num 2; Num 1] ].

Definition puzzle4 : SudokuGrid :=
  SudokuGenerator.puzzle SudokuGenerator.create4x4Puzzle.

Definition solution4 : SudokuGrid :=
  SudokuGenerator.solution SudokuGenerator.create4x4Puzzle.

(** Checks over all cells of an [n] by [n] grid. *)
Definition allCells (n : nat) (P : nat -> nat -> bool) : bool :=
  forallb (fun r => forallb (fun c => P r c) (seq 0 n)) (seq 0 n).

Definition wf_gridb (gridConfig : GridConfig) (grid : SudokuGrid) : bool :=
  (length grid =? size gridConfig) &&
  forallb (fun cells =>
             (length cells =? size gridConfig) &&
             forallb (fun v => negb (strict_eq v Undefined)) cells) grid.

(** ** Notions the further properties are stated with *)

(** The cells of an [n] by [n] grid in the order of the nested scans. *)
Definition cellPositions (n : nat) : list (nat * nat) :=
  flat_map (fun r => map (pair r) (seq 0 n)) (seq 0 n).

(** No filled cell of the grid has an equal peer. *)
Definition conflictFree (gridConfig : GridConfig) (grid : SudokuGrid) : Prop :=
  forall r c, r < size gridConfig -> c < size gridConfig ->
    conflictAt grid gridConfig r c = false.

(** [full] keeps every filled cell of [grid]. *)
Definition extends (grid full : SudokuGrid) : Prop :=
  forall r c, cellAt grid r c <> Null -> cellAt full r c = cellAt grid r c.

(** A solved grid: square, every cell a legal value, no conflict. *)
Definition solved (gridConfig : GridConfig) (grid : SudokuGrid) : Prop :=
  wf_grid gridConfig grid /\
  (forall r c, r < size gridConfig -> c < size gridConfig ->
     exists n, cellAt grid r c = Num n /\
               (1 <= n <= Z.of_nat (maxNumber gridConfig))%Z) /\
  conflictFree gridConfig grid.

(** A 4 by 4 grid without duplicates whose values are 5 to 8. *)
Definition fiveToEight4 : SudokuGrid :=
  [ [Num 5; Num 6; Num 7; Num 8];
    [Num 7; Num 8; Num 5; Num 6];
    [Num 6; Num 5; Num 8; Num 7];
    [Num 8; Num 7; Num 6; Num 5] ].

(** The cells of the top left 9 by 9 window that lie in the grid. *)
Definition inWindow (gridConfig : GridConfig) (r c : nat) : Prop :=
  r < 9 /\ c < 9 /\ r < size gridConfig /\ c < size gridConfig.

(** No cell of the window is empty. *)
Definition windowFull (gridConfig : GridConfig) (grid : SudokuGrid) : Prop :=
  forall r c, inWindow gridConfig r c -> cellAt grid r c <> Null.

(** A square grid without conflicts whose window cells all hold legal
    values. *)
Definition fillsWindow (gridConfig : GridConfig) (full : SudokuGrid) : Prop :=
  wf_grid gridConfig full /\ conflictFree gridConfig full /\
  forall r c, inWindow gridConfig r c ->
    exists n, cellAt full r c = Num n /\
              (1 <= n <= Z.of_nat (maxNumber gridConfig))%Z.

(** All positions of the grid, row by row. *)
Definition allPositions (gridConfig : GridConfig) : list CellPosition :=
  flat_map (fun row =>
    flat_map (fun col => [{| row := row; col := col |}])
      (seq 0 (size gridConfig)))
    (seq 0 (size gridConfig)).

(** A 16 by 16 grid with its top left 9 by 9 window filled: what the
    generator leaves when every draw is 0. *)
Definition window16 : SudokuGrid :=
  match generateComplete (fun _ => 0) 82 (getGridConfig hard) 0 with
  | Ok (grid, _) => grid
  | Err _ => []
  end.

(** What holds of every state of a game: the puzzle, the solution and the
    configuration are those generated for the difficulty, the grid is
    square and keeps the given cells, and the flag and the set of errors
    are those of the grid. *)
Definition inPlay (st : SudokuContext.GameState) : Prop :=
  let generated := SudokuGenerator.generatePuzzle (SudokuContext.difficulty st) in
  let cfg := SudokuContext.gridConfig st in
  let grid := SudokuContext.grid st in
  cfg = SudokuGenerator.gen_gridConfig generated /\
  SudokuContext.initialGrid st = SudokuGenerator.gen_puzzle generated /\
  SudokuContext.solution st = SudokuGenerator.gen_solution generated /\
  wf_grid cfg grid /\
  extends (SudokuContext.initialGrid st) grid /\
  isComplete grid cfg = Ok (SudokuContext.isComplete st, grid) /\
  SudokuContext.errors st = SudokuContext.errorSet (conflictsOf grid cfg).

(** A string without the character [-]. *)
Fixpoint noDash (s : string) : bool :=
  match s with
  | EmptyString => true
  | String a s' => negb (Ascii.eqb a "-"%char) && noDash s'
  end.

(** The state a write to one cell of the grid leads to. *)
Definition written (now : Z) (prev : SudokuContext.GameState)
    (selected : option CellPosition) (grid1 : SudokuGrid) (complete : bool)
    : SudokuContext.GameState :=
  {| SudokuContext.grid := grid1;
     SudokuContext.solution := SudokuContext.solution prev;
     SudokuContext.initialGrid := SudokuContext.initialGrid prev;
     SudokuContext.isComplete := complete;
     SudokuContext.errors :=
       SudokuContext.errorSet (conflictsOf grid1 (SudokuContext.gridConfig prev));
     SudokuContext.selectedCell := selected;
     SudokuContext.difficulty := SudokuContext.difficulty prev;
     SudokuContext.gridConfig := SudokuContext.gridConfig prev;
     SudokuContext.startTime := SudokuContext.startTime prev;
     SudokuContext.endTime :=
       if complete then Some now else SudokuContext.endTime prev |}.

(** A short game the statements on games are tried on. *)
Definition sampleGame : list (Z * SudokuContext.action) :=
  [(1, SudokuContext.MakeMove 0 1 (Some 3));
   (2, SudokuContext.GetHint);
   (3, SudokuContext.SelectCell 2 2);
   (4, SudokuContext.MakeMove 0 0 (Some 4))]%Z.

(** * Proofs *)

Lemma strict_eq_true a b : strict_eq a b = true <-> a = b.
Proof.
  destruct a, b; simpl; split; try congruence; try done.
  - intros H%Z.eqb_eq. by subst.
  - intros [= ->]. apply Z.eqb_refl.
Qed.

Lemma strict_eq_false a b : strict_eq a b = false <-> a <> b.
Proof.
  rewrite <- strict_eq_true. destruct (strict_eq a b); split; congruence.
Qed.

(** ** Loops *)

Section Loops.
Context {R A S : Type}.

(** The rule for a loop with an invariant [I]: an early [return] has to
    establish [Q], an exception [E]. *)
Lemma for_each_rule (I : S -> Prop) (Q : R -> Prop) (E : error -> Prop)
    (xs : list A) (body : A -> S -> comp R S) (s : S) :
  I s ->
  (forall x s, x ∈ xs -> I s ->
     match body x s with
     | Normal s' => I s' | Return r => Q r | Throw e => E e
     end) ->
  match for_each xs body s with
  | Normal s' => I s' | Return r => Q r | Throw e => E e
  end.
Proof.
  revert s. induction xs as [|x xs IH]; intros s Hs Hbody; simpl; [done|].
  pose proof (Hbody x s (list_elem_of_here _ _) Hs) as Hx.
  destruct (body x s) as [s'| |]; simpl; try done.
  apply IH; [done|]. intros y t Hy. apply Hbody. by right.
Qed.

(** The same for a body that does not throw. *)
Lemma for_each_spec (I : S -> Prop) (Q : R -> Prop) (xs : list A)
    (body : A -> S -> comp R S) (s : S) :
  I s ->
  (forall x s, x ∈ xs -> I s ->
     match body x s with
     | Normal s' => I s' | Return r => Q r | Throw _ => False
     end) ->
  match for_each xs body s with
  | Normal s' => I s' | Return r => Q r | Throw _ => False
  end.
Proof. apply (for_each_rule I Q (fun _ => False)). Qed.

(** A loop with a round that never falls through does not fall
    through. *)
Lemma for_each_not_normal (xs : list A) (body : A -> S -> comp R S) (x : A) :
  x ∈ xs -> (forall s s', body x s <> Normal s') ->
  forall s s', for_each xs body s <> Normal s'.
Proof.
  intros Hx Hbody. induction xs as [|y xs IH]; intros s s'; [by inversion Hx|].
  simpl. destruct (body y s) as [t| |] eqn:Hy; simpl; try done.
  apply elem_of_cons in Hx as [->|Hx]; [by destruct (Hbody s t)|].
  by apply IH.
Qed.

(** A loop whose state is rewritten by [step] on every round. *)
Lemma for_each_fold (step : S -> A -> S) (I : S -> Prop) (xs : list A)
    (body : A -> S -> comp R S) (s : S) :
  I s ->
  (forall x s, x ∈ xs -> I s -> body x s = Normal (step s x) /\ I (step s x)) ->
  for_each xs body s = Normal (fold_left step xs s) /\ I (fold_left step xs s).
Proof.
  revert s. induction xs as [|x xs IH]; intros s Hs Hbody; simpl; [done|].
  destruct (Hbody x s (list_elem_of_here _ _) Hs) as [-> Hs']. simpl.
  apply IH; [done|]. intros y t Hy. apply Hbody. by right.
Qed.
End Loops.

(** A search loop: it returns [r0] at the first element on which [hit]
    holds and falls through when there is none. *)
Lemma for_each_scan {R A : Type} (hit : A -> bool) (r0 : R) (xs : list A)
    (body : A -> unit -> comp R unit) :
  (forall x, x ∈ xs -> body x tt = if hit x then Return r0 else Normal tt) ->
  for_each xs body tt = if existsb hit xs then Return r0 else Normal tt.
Proof.
  induction xs as [|x xs IH]; intros Hbody; simpl; [done|].
  rewrite (Hbody x (list_elem_of_here _ _)).
  destruct (hit x); simpl; [done|].
  apply IH. intros y Hy. apply Hbody. by right.
Qed.

(** ** Cells *)

Lemma get_cell_cellAt (grid : SudokuGrid) row col :
  row < length grid -> get_cell grid row col = Ok (cellAt grid row col).
Proof.
  intros Hr. unfold get_cell, cellAt.
  destruct (lookup_lt_is_Some_2 grid row Hr) as [cells ->]. done.
Qed.

Lemma get_cell_Ok (grid : SudokuGrid) row col v :
  get_cell grid row col = Ok v -> row < length grid /\ cellAt grid row col = v.
Proof.
  unfold get_cell, cellAt. destruct (grid !! row) eqn:E; [|done].
  intros [= <-]. split; [|done]. by eapply lookup_lt_Some.
Qed.

Lemma wf_grid_row cfg (grid : SudokuGrid) row :
  wf_grid cfg grid -> row < size cfg ->
  exists cells, grid !! row = Some cells /\ length cells = size cfg /\
                Forall (fun v => v <> Undefined) cells.
Proof.
  intros [Hlen Hrows] Hr.
  destruct (lookup_lt_is_Some_2 grid row) as [cells Hc]; [lia|].
  exists cells. split; [done|].
  by apply (proj1 (Forall_lookup _ _) Hrows row cells).
Qed.

Lemma wf_grid_cell cfg (grid : SudokuGrid) row col :
  wf_grid cfg grid -> row < size cfg -> col < size cfg ->
  cellAt grid row col = Null \/ exists n, cellAt grid row col = Num n.
Proof.
  intros Hwf Hr Hc.
  destruct (wf_grid_row _ _ _ Hwf Hr) as (cells & Hrow & Hlen & Hdef).
  unfold cellAt, index. rewrite Hrow.
  destruct (lookup_lt_is_Some_2 cells col) as [v Hv]; [lia|].
  rewrite Hv. simpl.
  pose proof (proj1 (Forall_lookup _ _) Hdef col v Hv) as Hne.
  destruct v; [done|by left|right; eauto].
Qed.

Lemma set_cell_in_range cfg (grid : SudokuGrid) row col v :
  wf_grid cfg grid -> row < size cfg -> col < size cfg ->
  exists cells, grid !! row = Some cells /\ length cells = size cfg /\
    set_cell grid row col v = Ok (<[row := <[col := v]> cells]> grid).
Proof.
  intros Hwf Hr Hc.
  destruct (wf_grid_row _ _ _ Hwf Hr) as (cells & Hrow & Hlen & _).
  exists cells. split; [done|]. split; [done|].
  unfold set_cell, assign. rewrite Hrow.
  destruct (Nat.ltb_spec col (length cells)); [done|lia].
Qed.

Lemma cellAt_insert_same (grid : SudokuGrid) cells row col v :
  grid !! row = Some cells -> col < length cells ->
  cellAt (<[row := <[col := v]> cells]> grid) row col = v.
Proof.
  intros Hrow Hc. unfold cellAt, index.
  rewrite list_lookup_insert_eq by (by eapply lookup_lt_Some).
  by rewrite list_lookup_insert_eq.
Qed.

Lemma cellAt_insert_other (grid : SudokuGrid) cells row col v r c :
  grid !! row = Some cells -> (r, c) <> (row, col) ->
  cellAt (<[row := <[col := v]> cells]> grid) r c = cellAt grid r c.
Proof.
  intros Hrow Hne. unfold cellAt, index.
  destruct (decide (r = row)) as [->|Hr].
  - rewrite list_lookup_insert_eq by (by eapply lookup_lt_Some).
    rewrite Hrow. rewrite list_lookup_insert_ne; [done|congruence].
  - by rewrite list_lookup_insert_ne.
Qed.

Lemma wf_grid_insert cfg (grid : SudokuGrid) cells row col v :
  wf_grid cfg grid -> grid !! row = Some cells -> v <> Undefined ->
  wf_grid cfg (<[row := <[col := v]> cells]> grid).
Proof.
  intros [Hlen Hrows] Hrow Hv. split; [by rewrite length_insert|].
  apply Forall_insert; [done|].
  pose proof (proj1 (Forall_lookup _ _) Hrows row cells Hrow) as [Hl Hd].
  split; [by rewrite length_insert|].
  destruct (decide (col < length cells)).
  - by apply Forall_insert.
  - rewrite list_insert_ge; [done|lia].
Qed.

(** Writing back what a cell held undoes a write to it. *)
Lemma insert_restore (grid : SudokuGrid) cells row col v :
  grid !! row = Some cells ->
  <[row := <[col := index cells col]> (<[col := v]> cells)]>
    (<[row := <[col := v]> cells]> grid) = grid.
Proof.
  intros Hrow. rewrite list_insert_insert_eq.
  rewrite list_insert_insert_eq.
  apply list_insert_id. rewrite Hrow. f_equal.
  unfold index. destruct (cells !! col) as [w|] eqn:E; simpl.
  - symmetry. by apply list_insert_id.
  - symmetry. apply list_insert_ge. by apply lookup_ge_None.
Qed.

(** ** isValidMove *)

Lemma box_rows_in_grid cfg row :
  wf_config cfg -> row < size cfg ->
  row / subGridRows cfg * subGridRows cfg + subGridRows cfg <= size cfg.
Proof.
  intros (HR & HC & Hsz & _) Hrow. rewrite Hsz in *.
  assert (row / subGridRows cfg < subGridCols cfg) as Hq.
  { apply Nat.Div0.div_lt_upper_bound. lia. }
  nia.
Qed.

Lemma box_cols_in_grid cfg col :
  wf_config cfg -> col < size cfg ->
  col / subGridCols cfg * subGridCols cfg + subGridCols cfg <= size cfg.
Proof.
  intros (HR & HC & Hsz & _) Hcol. rewrite Hsz in *.
  assert (col / subGridCols cfg < subGridRows cfg) as Hq.
  { apply Nat.Div0.div_lt_upper_bound. lia. }
  nia.
Qed.

Lemma inBox_self cfg row col :
  wf_config cfg -> inBox cfg row col row col.
Proof.
  intros (HR & HC & _). unfold inBox. simpl.
  pose proof (Nat.div_mod_eq row (subGridRows cfg)).
  pose proof (Nat.mod_upper_bound row (subGridRows cfg)).
  pose proof (Nat.div_mod_eq col (subGridCols cfg)).
  pose proof (Nat.mod_upper_bound col (subGridCols cfg)).
  lia.
Qed.

(** On a grid with all its rows, [isValidMove] does not throw and is the
    conjunction of its three scans. *)
Lemma isValidMove_noHit cfg (grid : SudokuGrid) row col num :
  wf_config cfg -> length grid = size cfg -> row < size cfg ->
  isValidMove grid row col num cfg = Ok (noHit grid row col num cfg).
Proof.
  intros Hcfg Hlen Hrow. unfold isValidMove, noHit.
  rewrite (for_each_scan (rowHit grid row col num) false).
  2:{ intros c _. unfold rowHit. destruct (c =? col); simpl; [done|].
      rewrite get_cell_cellAt by lia. simpl.
      by destruct (strict_eq _ _). }
  destruct (existsb (rowHit grid row col num) _); simpl; [done|].
  rewrite (for_each_scan (colHit grid row col num) false).
  2:{ intros r Hr%elem_of_seq. unfold colHit. destruct (r =? row); simpl; [done|].
      rewrite get_cell_cellAt by lia. simpl.
      by destruct (strict_eq _ _). }
  destruct (existsb (colHit grid row col num) _); simpl; [done|].
  rewrite (for_each_scan
             (fun r => existsb (boxHit grid row col num r)
                         (seq (col / subGridCols cfg * subGridCols cfg)
                              (subGridCols cfg))) false).
  2:{ intros r Hr%elem_of_seq.
      apply (for_each_scan (boxHit grid row col num r) false).
      intros c _. unfold boxHit.
      destruct (negb (r =? row) || negb (c =? col)); simpl; [|done].
      pose proof (box_rows_in_grid cfg row Hcfg Hrow).
      rewrite get_cell_cellAt by lia. simpl.
      by destruct (strict_eq _ _). }
  by destruct (existsb _ _).
Qed.

(** A scan hits exactly when some peer of the cell holds [num]. *)
Lemma noHit_false cfg (grid : SudokuGrid) row col num :
  wf_config cfg -> row < size cfg -> col < size cfg ->
  noHit grid row col num cfg = false <->
  exists r c, peer cfg row col r c /\ cellAt grid r c = num.
Proof.
  intros Hcfg Hrow Hcol. unfold noHit.
  pose proof (box_rows_in_grid cfg row Hcfg Hrow).
  pose proof (box_cols_in_grid cfg col Hcfg Hcol).
  rewrite !andb_false_iff, !negb_false_iff. split.
  - intros [[Hex|Hex]|Hex].
    + apply existsb_exists in Hex as (c & Hc%in_seq & Hhit).
      unfold rowHit in Hhit. apply andb_true_iff in Hhit as [Hn Heq].
      apply negb_true_iff, Nat.eqb_neq in Hn. apply strict_eq_true in Heq.
      exists row, c. split; [|done].
      repeat split; [lia|lia|congruence|by left].
    + apply existsb_exists in Hex as (r & Hr%in_seq & Hhit).
      unfold colHit in Hhit. apply andb_true_iff in Hhit as [Hn Heq].
      apply negb_true_iff, Nat.eqb_neq in Hn. apply strict_eq_true in Heq.
      exists r, col. split; [|done].
      repeat split; [lia|lia|congruence|right; by left].
    + apply existsb_exists in Hex as (r & Hr%in_seq & Hex).
      apply existsb_exists in Hex as (c & Hc%in_seq & Hhit).
      unfold boxHit in Hhit. apply andb_true_iff in Hhit as [Hn Heq].
      apply strict_eq_true in Heq.
      exists r, c. split; [|done].
      repeat split; [lia|lia| |right; right; unfold inBox; simpl; lia].
      intros [= -> ->]. rewrite !Nat.eqb_refl in Hn. done.
  - intros (r & c & (Hrlt & Hclt & Hne & Hrel) & Heq).
    apply strict_eq_true in Heq.
    destruct (decide (r = row)) as [->|Hnr].
    + assert (c <> col) by congruence.
      left; left. apply existsb_exists. exists c. split; [apply in_seq; lia|].
      unfold rowHit. rewrite Heq.
      by destruct (Nat.eqb_spec c col).
    + destruct (decide (c = col)) as [->|Hnc].
      * left; right. apply existsb_exists. exists r. split; [apply in_seq; lia|].
        unfold colHit. rewrite Heq.
        by destruct (Nat.eqb_spec r row).
      * destruct Hrel as [?|[?|[Hbr Hbc]]]; [done|done|].
        right. apply existsb_exists. exists r. split; [apply in_seq; lia|].
        apply existsb_exists. exists c. split; [apply in_seq; lia|].
        unfold boxHit. rewrite Heq.
        by destruct (Nat.eqb_spec r row).
Qed.

Lemma noHit_true cfg (grid : SudokuGrid) row col num :
  wf_config cfg -> row < size cfg -> col < size cfg ->
  noHit grid row col num cfg = true <->
  forall r c, peer cfg row col r c -> cellAt grid r c <> num.
Proof.
  intros Hcfg Hrow Hcol.
  pose proof (noHit_false cfg grid row col num Hcfg Hrow Hcol) as Hf.
  destruct (noHit grid row col num cfg); split; try done.
  - intros _ r c Hp Heq.
    assert (true = false); [|done]. apply Hf. eauto.
  - intros Hall. destruct (proj1 Hf eq_refl) as (r & c & Hp & Heq).
    by destruct (Hall r c Hp).
Qed.

Lemma existsb_eq {A : Type} (f g : A -> bool) (l : list A) :
  (forall x, f x = g x) -> existsb f l = existsb g l.
Proof. intros H. induction l as [|x l IH]; simpl; [done|]. by rewrite H, IH. Qed.

(** [isValidMove] never looks at the cell it is asked about. *)
Lemma noHit_insert_self (grid : SudokuGrid) cells row col num v cfg :
  grid !! row = Some cells ->
  noHit (<[row := <[col := v]> cells]> grid) row col num cfg =
  noHit grid row col num cfg.
Proof.
  intros Hrow. unfold noHit. f_equal; [f_equal|]; f_equal.
  - apply existsb_eq. intros c. unfold rowHit.
    destruct (Nat.eqb_spec c col); simpl; [done|].
    rewrite cellAt_insert_other; [done|done|congruence].
  - apply existsb_eq. intros r. unfold colHit.
    destruct (Nat.eqb_spec r row); simpl; [done|].
    rewrite cellAt_insert_other; [done|done|congruence].
  - apply existsb_eq. intros r. apply existsb_eq. intros c. unfold boxHit.
    destruct (Nat.eqb_spec r row) as [->|]; simpl.
    + destruct (Nat.eqb_spec c col) as [->|]; simpl; [done|].
      rewrite cellAt_insert_other; [done|done|congruence].
    + rewrite cellAt_insert_other; [done|done|congruence].
Qed.

(** ** validateGrid *)

(** A loop that appends to a list and leaves the rest of its state alone. *)
Lemma for_each_collect {R A S P : Type} (f : A -> list P) (xs : list A)
    (body : A -> S * list P -> comp R (S * list P)) (s : S) (acc : list P) :
  (forall x acc, x ∈ xs -> body x (s, acc) = Normal (s, acc ++ f x)) ->
  for_each xs body (s, acc) = Normal (s, acc ++ flat_map f xs).
Proof.
  revert acc. induction xs as [|x xs IH]; intros acc Hbody; simpl.
  - by rewrite app_nil_r.
  - rewrite (Hbody x acc (list_elem_of_here _ _)). simpl.
    rewrite IH; [by rewrite <- app_assoc|].
    intros y acc' Hy. apply Hbody. by right.
Qed.

Lemma validateGrid_conflictsOf cfg (grid : SudokuGrid) :
  wf_config cfg -> wf_grid cfg grid ->
  validateGrid grid cfg =
  Ok ({| isValid := length (conflictsOf grid cfg) =? 0;
         conflicts := conflictsOf grid cfg |}, grid).
Proof.
  intros Hcfg Hwf. unfold validateGrid.
  rewrite (for_each_collect (fun row =>
    flat_map (fun col =>
      if conflictAt grid cfg row col
      then [{| row := row; col := col |}] else [])
      (seq 0 (size cfg)))); [done|].
  intros r acc Hr%elem_of_seq.
  apply (for_each_collect (fun col =>
      if conflictAt grid cfg r col
      then [{| row := r; col := col |}] else [])).
  intros c acc' Hc%elem_of_seq.
  pose proof (proj1 Hwf) as Hlen.
  rewrite get_cell_cellAt by lia. simpl.
  unfold conflictAt.
  destruct (strict_eq (cellAt grid r c) Null) eqn:Hnull; simpl.
  { by rewrite app_nil_r. }
  destruct (set_cell_in_range cfg grid r c Null Hwf) as (cells & Hrow & Hcl & ->);
    [lia|lia|]. simpl.
  rewrite isValidMove_noHit; [|done|by rewrite length_insert|lia]. simpl.
  rewrite noHit_insert_self by done.
  unfold set_cell, assign.
  rewrite list_lookup_insert_eq by (by eapply lookup_lt_Some).
  rewrite length_insert.
  destruct (Nat.ltb_spec c (length cells)); [|lia]. simpl.
  assert (cellAt grid r c = index cells c) as ->
    by (unfold cellAt; by rewrite Hrow).
  rewrite insert_restore by done.
  destruct (noHit grid r c (index cells c) cfg); simpl; [|done].
  by rewrite app_nil_r.
Qed.

Lemma elem_of_conflictsOf cfg (grid : SudokuGrid) r c :
  {| row := r; col := c |} ∈ conflictsOf grid cfg <->
  r < size cfg /\ c < size cfg /\ conflictAt grid cfg r c = true.
Proof.
  unfold conflictsOf. rewrite list_elem_of_In, in_flat_map. split.
  - intros (r' & Hr'%in_seq & Hin). apply in_flat_map in Hin as (c' & Hc'%in_seq & Hin).
    destruct (conflictAt grid cfg r' c') eqn:E; simpl in Hin; [|done].
    destruct Hin as [[= -> ->]|[]]. repeat split; [lia|lia|done].
  - intros (Hr & Hc & Hconf). exists r. split; [apply in_seq; lia|].
    apply in_flat_map. exists c. split; [apply in_seq; lia|].
    rewrite Hconf. by left.
Qed.

Lemma conflictAt_true cfg (grid : SudokuGrid) row col :
  wf_config cfg -> wf_grid cfg grid -> row < size cfg -> col < size cfg ->
  conflictAt grid cfg row col = true <->
  exists n, cellAt grid row col = Num n /\
    exists r c, peer cfg row col r c /\ cellAt grid r c = Num n.
Proof.
  intros Hcfg Hwf Hrow Hcol. unfold conflictAt.
  rewrite andb_true_iff, !negb_true_iff, strict_eq_false.
  rewrite (noHit_false cfg grid row col _ Hcfg Hrow Hcol).
  destruct (wf_grid_cell cfg grid row col Hwf Hrow Hcol) as [Hn|[n Hn]];
    rewrite Hn.
  - split; [by intros []|]. by intros (n & [=] & _).
  - split.
    + intros [_ Hex]. eauto.
    + intros (m & [= <-] & Hex). done.
Qed.

(** ** The solver *)

Lemma for_each_push {R A P : Type} (f : A -> list P) (xs : list A)
    (body : A -> list P -> comp R (list P)) (acc : list P) :
  (forall x acc, x ∈ xs -> body x acc = Normal (acc ++ f x)) ->
  for_each xs body acc = Normal (acc ++ flat_map f xs).
Proof.
  revert acc. induction xs as [|x xs IH]; intros acc Hbody; simpl.
  - by rewrite app_nil_r.
  - rewrite (Hbody x acc (list_elem_of_here _ _)). simpl.
    rewrite IH; [by rewrite <- app_assoc|].
    intros y acc' Hy. apply Hbody. by right.
Qed.

Lemma getPossibleNumbers_candidates cfg (grid : SudokuGrid) row col :
  wf_config cfg -> length grid = size cfg -> row < size cfg ->
  getPossibleNumbers grid row col cfg = Ok (candidates grid row col cfg).
Proof.
  intros Hcfg Hlen Hrow. unfold getPossibleNumbers, candidates.
  rewrite (for_each_push (fun num =>
    if noHit grid row col (Num (Z.of_nat num)) cfg then [Z.of_nat num] else []));
    [done|].
  intros num acc _. rewrite isValidMove_noHit by done. simpl.
  destruct (noHit _ _ _ _ _); [done|]. by rewrite app_nil_r.
Qed.

(** [findBestEmptyCell] does not throw, and a cell it returns is an empty
    cell of the grid. *)
Lemma findBestEmptyCell_empty cfg (grid : SudokuGrid) :
  wf_config cfg -> length grid = size cfg ->
  match findBestEmptyCell grid cfg with
  | Ok (Some (r, c)) => r < size cfg /\ c < size cfg /\ cellAt grid r c = Null
  | Ok None => True
  | Err _ => False
  end.
Proof.
  intros Hcfg Hlen. unfold findBestEmptyCell.
  set (good := fun best : option (nat * nat) =>
    match best with
    | Some (r, c) => r < size cfg /\ c < size cfg /\ cellAt grid r c = Null
    | None => True
    end).
  match goal with |- context [for_each ?xs ?body ?s] =>
    pose proof (for_each_spec (fun st => good (fst st)) good xs body s I) as Hloop
  end.
  match type of Hloop with ?P -> _ => assert P as Hbody end.
  { intros r st Hr%elem_of_seq Hst.
    apply (for_each_spec (fun st => good (fst st)) good); [done|].
    intros c [best minP] Hc%elem_of_seq Hbest.
    rewrite get_cell_cellAt by lia. simpl.
    destruct (strict_eq (cellAt grid r c) Null) eqn:Hnull; simpl; [|done].
    apply strict_eq_true in Hnull.
    rewrite getPossibleNumbers_candidates by (done || lia). simpl.
    destruct (_ <? minP); [|done].
    destruct (_ =? 1); simpl; repeat split; (done || lia). }
  specialize (Hloop Hbody).
  destruct (for_each _ _ _) as [[best minP]|best|e]; simpl in *; try done;
    by destruct best as [[r c]|].
Qed.

(** With no empty cell in the grid [findBestEmptyCell] returns null. *)
Lemma findBestEmptyCell_full cfg (grid : SudokuGrid) :
  wf_config cfg -> length grid = size cfg ->
  (forall r c, r < size cfg -> c < size cfg -> cellAt grid r c <> Null) ->
  findBestEmptyCell grid cfg = Ok None.
Proof.
  intros Hcfg Hlen Hfull. unfold findBestEmptyCell.
  match goal with |- context [for_each ?xs ?body ?s] =>
    pose proof (for_each_spec (fun st => st = s) (fun _ => False) xs body s eq_refl)
      as Hloop
  end.
  match type of Hloop with ?P -> _ => assert P as Hbody end.
  { intros r st Hr%elem_of_seq ->.
    apply (for_each_spec (fun st => st = (None, maxNumber cfg + 1)) (fun _ => False));
      [done|].
    intros c st Hc%elem_of_seq ->.
    rewrite get_cell_cellAt by lia. simpl.
    destruct (strict_eq (cellAt grid r c) Null) eqn:Hnull; simpl; [|done].
    apply strict_eq_true in Hnull. destruct (Hfull r c); (done || lia). }
  specialize (Hloop Hbody).
  destruct (for_each _ _ _) as [st|best|e]; simpl in *; try done.
  by subst st.
Qed.

Lemma filter_insert_length {A : Type} (P : A -> Prop) `{!forall x, Decision (P x)}
    (l : list A) (i : nat) (x y : A) :
  l !! i = Some x -> P x -> ~ P y ->
  length (filter P (<[i := y]> l)) + 1 = length (filter P l).
Proof.
  intros Hi Hx Hy.
  rewrite insert_take_drop by (by eapply lookup_lt_Some).
  rewrite <- (take_drop_middle l i x Hi) at 3.
  rewrite !filter_app, !filter_cons.
  destruct (decide (P x)); [|done]. destruct (decide (P y)); [done|].
  rewrite !length_app. simpl. lia.
Qed.

Lemma countEmpty_insert (grid : SudokuGrid) cells row col v :
  grid !! row = Some cells -> cells !! col = Some Null -> v <> Null ->
  countEmpty (<[row := <[col := v]> cells]> grid) + 1 = countEmpty grid.
Proof.
  intros Hrow Hcol Hv. unfold countEmpty.
  rewrite insert_take_drop by (by eapply lookup_lt_Some).
  rewrite <- (take_drop_middle grid row cells Hrow) at 3.
  rewrite !concat_app, !concat_cons, !filter_app, !length_app.
  pose proof (filter_insert_length (fun v => v = Null) cells col Null v Hcol eq_refl Hv).
  lia.
Qed.

Lemma set_cell_restore (grid : SudokuGrid) cells row col v :
  grid !! row = Some cells -> col < length cells ->
  set_cell (<[row := <[col := v]> cells]> grid) row col (index cells col) = Ok grid.
Proof.
  intros Hrow Hcol. unfold set_cell, assign.
  rewrite list_lookup_insert_eq by (by eapply lookup_lt_Some).
  rewrite length_insert.
  destruct (Nat.ltb_spec col (length cells)); [|lia].
  by rewrite insert_restore.
Qed.

Lemma solveRecursive_unfold fuel (grid : SudokuGrid) cfg :
  solveRecursive (S fuel) grid cfg =
  fn (
    let* bestCell := call (findBestEmptyCell grid cfg) in
    match bestCell with
    | None => Return (true, grid)
    | Some (row, col) =>
      let* possibleNumbers := call (getPossibleNumbers grid row col cfg) in
      let* grid := for_each possibleNumbers (fun num grid =>
        let* grid := call (set_cell grid row col (Num num)) in
        let* (solved, grid) := call (solveRecursive fuel grid cfg) in
        if solved : bool then Return (true, grid)
        else call (set_cell grid row col Null)) grid in
      Return (false, grid)
    end).
Proof. reflexivity. Qed.

(** Enough fuel gives a result; a failed search leaves the grid as it
    found it, and a search never rewrites a filled cell. *)
Lemma solveRecursive_spec cfg :
  wf_config cfg ->
  forall fuel (grid : SudokuGrid),
    wf_grid cfg grid -> countEmpty grid < fuel ->
    exists b grid',
      solveRecursive fuel grid cfg = Ok (b, grid') /\
      wf_grid cfg grid' /\
      (b = false -> grid' = grid) /\
      (forall r c, cellAt grid r c <> Null -> cellAt grid' r c = cellAt grid r c).
Proof.
  intros Hcfg. induction fuel as [|fuel IH]; intros grid Hwf Hfuel; [lia|].
  rewrite solveRecursive_unfold.
  pose proof (proj1 Hwf) as Hlen.
  pose proof (findBestEmptyCell_empty cfg grid Hcfg Hlen) as Hbest.
  destruct (findBestEmptyCell grid cfg) as [[[row col]|]|e]; simpl; [| |done].
  2:{ exists true, grid. repeat split; (done || apply Hwf). }
  destruct Hbest as (Hrow & Hcol & Hnull).
  rewrite getPossibleNumbers_candidates by done. simpl.
  destruct (set_cell_in_range cfg grid row col Null Hwf Hrow Hcol)
    as (cells & Hcells & Hcl & _).
  assert (index cells col = Null) as Hidx
    by (unfold cellAt in Hnull; by rewrite Hcells in Hnull).
  assert (cells !! col = Some Null) as Hlk.
  { destruct (lookup_lt_is_Some_2 cells col) as [w Hw]; [lia|].
    unfold index in Hidx. rewrite Hw in Hidx. simpl in Hidx. by subst w. }
  match goal with |- context [for_each ?xs ?body ?s] =>
    pose proof (for_each_spec (fun g => g = grid)
      (fun r => exists grid', r = (true, grid') /\ wf_grid cfg grid' /\
         forall r c, cellAt grid r c <> Null -> cellAt grid' r c = cellAt grid r c)
      xs body s eq_refl) as Hloop
  end.
  match type of Hloop with ?P -> _ => assert P as Hbody end.
  { intros num g _ ->.
    destruct (set_cell_in_range cfg grid row col (Num num) Hwf Hrow Hcol)
      as (cells' & Hcells' & _ & ->).
    assert (cells' = cells) as -> by congruence. simpl.
    destruct (IH (<[row := <[col := Num num]> cells]> grid))
      as (b & grid' & -> & Hwf' & Hfail & Hframe).
    { by apply wf_grid_insert. }
    { assert (Num num <> Null) as Hnum by done.
      pose proof (countEmpty_insert grid cells row col (Num num) Hcells Hlk Hnum).
      lia. }
    simpl. destruct b.
    - exists grid'. repeat split; [apply Hwf'|apply Hwf'|].
      intros r c Hfilled.
      assert ((r, c) <> (row, col)) as Hne by (intros [= -> ->]; done).
      rewrite Hframe; rewrite cellAt_insert_other by done; done.
    - rewrite Hfail by done. rewrite <- Hidx.
      rewrite set_cell_restore by (done || lia). done. }
  specialize (Hloop Hbody).
  destruct (for_each _ _ _) as [g|[b g]|e]; simpl in *; [| |done].
  - subst g. exists false, grid. done.
  - destruct Hloop as (grid' & [= -> ->] & Hwf' & Hframe).
    exists true, grid'. done.
Qed.

(** ** The generator of complete grids *)

Lemma index_assign_ne (cells : list value) col v c :
  c <> col -> index (assign cells col v) c = index cells c.
Proof.
  intros Hne. unfold index, assign.
  destruct (Nat.ltb_spec col (length cells)) as [Hlt|Hge].
  - by rewrite list_lookup_insert_ne.
  - destruct (decide (c < length cells)) as [Hc|Hc].
    + by rewrite lookup_app_l.
    + rewrite lookup_app_r by lia.
      rewrite (proj2 (lookup_ge_None cells c)) by lia. simpl.
      destruct (decide (c - length cells < col - length cells)) as [Hin|Hout].
      * rewrite lookup_app_l by (rewrite length_replicate; lia).
        by rewrite lookup_replicate_2.
      * rewrite lookup_app_r by (rewrite length_replicate; lia).
        rewrite length_replicate.
        destruct (c - length cells - (col - length cells)) as [|n] eqn:Hd; [lia|].
        done.
Qed.

Lemma set_cell_other (grid grid' : SudokuGrid) row col v r c :
  set_cell grid row col v = Ok grid' -> (r, c) <> (row, col) ->
  cellAt grid' r c = cellAt grid r c.
Proof.
  unfold set_cell. destruct (grid !! row) as [cells|] eqn:Hrow; [|done].
  intros [= <-] Hne. unfold cellAt.
  destruct (decide (r = row)) as [->|Hr].
  - rewrite list_lookup_insert_eq by (by eapply lookup_lt_Some).
    rewrite Hrow. apply index_assign_ne. congruence.
  - by rewrite list_lookup_insert_ne.
Qed.

Lemma set_cell_length (grid grid' : SudokuGrid) row col v :
  set_cell grid row col v = Ok grid' -> length grid' = length grid.
Proof.
  unfold set_cell. destruct (grid !! row); [|done].
  intros [= <-]. by rewrite length_insert.
Qed.

(** A cell [findFirstEmptyCell] returns lies in the top left 9 by 9
    window, whatever the size of the grid. *)
Lemma findFirstEmptyCell_some (grid : SudokuGrid) r c :
  findFirstEmptyCell grid = Ok (Some (r, c)) ->
  r < 9 /\ c < 9 /\ get_cell grid r c = Ok Null.
Proof.
  unfold findFirstEmptyCell.
  set (found := fun best : option (nat * nat) =>
    match best with
    | Some (r, c) => r < 9 /\ c < 9 /\ get_cell grid r c = Ok Null
    | None => False
    end).
  match goal with |- context [for_each ?xs ?body ?s] =>
    pose proof (for_each_rule (fun _ => True) found (fun _ => True) xs body s I)
      as Hloop
  end.
  match type of Hloop with ?P -> _ => assert P as Hbody end.
  { intros row [] Hrow%elem_of_seq _.
    apply (for_each_rule (fun _ => True) found (fun _ => True)); [done|].
    intros col [] Hcol%elem_of_seq _.
    destruct (get_cell grid row col) as [v|] eqn:Hget; simpl; [|done].
    destruct (strict_eq v Null) eqn:Hv; [|done].
    apply strict_eq_true in Hv. subst v. simpl. repeat split; (done || lia). }
  specialize (Hloop Hbody).
  destruct (for_each _ _ _) as [[]|best|e]; simpl in *; try done.
  intros [= ->]. done.
Qed.

(** On a grid of fewer than 9 rows [findFirstEmptyCell] never returns
    null: once the rows that exist are full the scan reads row
    [grid.length]. *)
Lemma findFirstEmptyCell_short (grid : SudokuGrid) :
  length grid < 9 -> findFirstEmptyCell grid <> Ok None.
Proof.
  intros Hshort. unfold findFirstEmptyCell.
  match goal with |- context [for_each ?xs ?body ?s] =>
    pose proof (for_each_not_normal xs body (length grid)) as Hloop;
    pose proof (for_each_rule (fun _ => True) (fun best => best <> None)
                  (fun _ => True) xs body s I) as Hret
  end.
  match type of Hloop with ?P -> _ => assert P as Hin by (apply elem_of_seq; lia) end.
  specialize (Hloop Hin).
  match type of Hloop with ?P -> _ => assert P as Hbody end.
  { intros [] []. simpl. unfold get_cell.
    rewrite (proj2 (lookup_ge_None grid (length grid))) by lia. done. }
  specialize (Hloop Hbody tt).
  match type of Hret with ?P -> _ => assert P as Hfound end.
  { intros row [] _ _.
    apply (for_each_rule (fun _ => True) (fun best => best <> None) (fun _ => True));
      [done|].
    intros col [] _ _.
    destruct (get_cell grid row col) as [v|]; simpl; [|done].
    by destruct (strict_eq v Null). }
  specialize (Hret Hfound).
  destruct (for_each _ _ _) as [[]|best|e]; simpl in *; try done.
  - by destruct (Hloop tt).
  - congruence.
Qed.

Lemma get_cell_Null (grid : SudokuGrid) row col :
  get_cell grid row col = Ok Null ->
  exists cells, grid !! row = Some cells /\ col < length cells /\
                index cells col = Null.
Proof.
  unfold get_cell. destruct (grid !! row) as [cells|]; [|done].
  intros [= Hidx]. exists cells. repeat split; [|done].
  unfold index in Hidx. destruct (cells !! col) eqn:E; [|done].
  by eapply lookup_lt_Some.
Qed.

Lemma set_cell_at (grid : SudokuGrid) cells row col v :
  grid !! row = Some cells -> col < length cells ->
  set_cell grid row col v = Ok (<[row := <[col := v]> cells]> grid).
Proof.
  intros Hrow Hcol. unfold set_cell, assign. rewrite Hrow.
  destruct (Nat.ltb_spec col (length cells)); [done|lia].
Qed.

Lemma fillGridRandomly_unfold rand fuel (grid : SudokuGrid) cfg k :
  fillGridRandomly rand (S fuel) grid cfg k =
  fn (
    let* emptyCell := call (findFirstEmptyCell grid) in
    match emptyCell with
    | None => Return (true, grid, k)
    | Some (row, col) =>
      let '(numbers, k) :=
        shuffleArray rand (map Z.of_nat (seq 1 (maxNumber cfg))) k in
      let* (grid, k) := for_each numbers (fun num '(grid, k) =>
        let* ok := call (isValidMove grid row col (Num num) cfg) in
        if ok then
          let* grid := call (set_cell grid row col (Num num)) in
          let* (filled, grid, k) := call (fillGridRandomly rand fuel grid cfg k) in
          if filled : bool then Return (true, grid, k)
          else
            let* grid := call (set_cell grid row col Null) in
            Normal (grid, k)
        else Normal (grid, k)) (grid, k) in
      Return (false, grid, k)
    end).
Proof. reflexivity. Qed.

(** On a grid of fewer than 9 rows [fillGridRandomly] never reports
    success: it throws or gives up with the grid as it found it. *)
Lemma fillGridRandomly_short rand cfg fuel :
  forall (grid grid' : SudokuGrid) k k' b,
    length grid < 9 ->
    fillGridRandomly rand fuel grid cfg k = Ok (b, grid', k') ->
    b = false /\ grid' = grid.
Proof.
  induction fuel as [|fuel IH]; intros grid grid' k k' b Hshort Hrun; [done|].
  rewrite fillGridRandomly_unfold in Hrun.
  pose proof (findFirstEmptyCell_short grid Hshort) as Hnone.
  pose proof (findFirstEmptyCell_some grid) as Hsome.
  destruct (findFirstEmptyCell grid) as [[[row col]|]|e]; simpl in Hrun;
    [|done|done].
  destruct (Hsome row col eq_refl) as (_ & _ & Hget).
  destruct (get_cell_Null grid row col Hget) as (cells & Hrow & Hcol & Hidx).
  destruct (shuffleArray rand _ k) as [numbers k1].
  revert Hrun.
  match goal with |- context [for_each ?xs ?body ?s] =>
    pose proof (for_each_rule (fun st => fst st = grid) (fun _ => False)
                  (fun _ => True) xs body s eq_refl) as Hloop
  end.
  match type of Hloop with ?P -> _ => assert P as Hbody end.
  { intros num [g0 k0] _ Hst. simpl in Hst. subst g0.
    destruct (isValidMove grid row col (Num num) cfg) as [[|]|]; simpl; try done.
    rewrite (set_cell_at grid cells) by done. simpl.
    destruct (fillGridRandomly rand fuel _ cfg k0) as [[[filled g2] k2]|] eqn:Hrec;
      simpl; [|done].
    apply IH in Hrec as [-> ->]; [|by rewrite length_insert].
    rewrite <- Hidx. rewrite set_cell_restore by done. done. }
  specialize (Hloop Hbody).
  destruct (for_each _ _ _) as [[g0 k0]|r|e]; simpl in *; [|done|done].
  intros [= <- <- <-]. done.
Qed.

Lemma keepsOutside9_refl (grid : SudokuGrid) : keepsOutside9 grid grid.
Proof. by split. Qed.

Lemma keepsOutside9_trans (g1 g2 g3 : SudokuGrid) :
  keepsOutside9 g1 g2 -> keepsOutside9 g2 g3 -> keepsOutside9 g1 g3.
Proof.
  intros [Hl1 Hc1] [Hl2 Hc2]. split; [congruence|].
  intros r c Hout. by rewrite Hc2, Hc1.
Qed.

Lemma keepsOutside9_set_cell (grid grid' : SudokuGrid) row col v :
  row < 9 -> col < 9 -> set_cell grid row col v = Ok grid' ->
  keepsOutside9 grid grid'.
Proof.
  intros Hrow Hcol Hset. split; [by eapply set_cell_length|].
  intros r c Hout. eapply set_cell_other; [done|].
  intros [= -> ->]. lia.
Qed.

(** [fillGridRandomly] writes inside the top left 9 by 9 window only. *)
Lemma fillGridRandomly_window rand cfg fuel :
  forall (grid grid' : SudokuGrid) k k' b,
    fillGridRandomly rand fuel grid cfg k = Ok (b, grid', k') ->
    keepsOutside9 grid grid'.
Proof.
  induction fuel as [|fuel IH]; intros grid grid' k k' b Hrun; [done|].
  rewrite fillGridRandomly_unfold in Hrun.
  pose proof (findFirstEmptyCell_some grid) as Hsome.
  destruct (findFirstEmptyCell grid) as [[[row col]|]|e]; simpl in Hrun;
    [| |done].
  2:{ injection Hrun as <- <- <-. apply keepsOutside9_refl. }
  destruct (Hsome row col eq_refl) as (Hrow & Hcol & _).
  destruct (shuffleArray rand _ k) as [numbers k1].
  revert Hrun.
  match goal with |- context [for_each ?xs ?body ?s] =>
    pose proof (for_each_rule (fun st => keepsOutside9 grid (fst st))
                  (fun r => keepsOutside9 grid (snd (fst r)))
                  (fun _ => True) xs body s (keepsOutside9_refl grid)) as Hloop
  end.
  match type of Hloop with ?P -> _ => assert P as Hbody end.
  { intros num [g0 k0] _ Hst. simpl in Hst.
    destruct (isValidMove g0 row col (Num num) cfg) as [[|]|]; simpl; try done.
    destruct (set_cell g0 row col (Num num)) as [g1|] eqn:Hset1; simpl; [|done].
    apply keepsOutside9_set_cell in Hset1; [|done|done].
    destruct (fillGridRandomly rand fuel g1 cfg k0) as [[[filled g2] k2]|] eqn:Hrec;
      simpl; [|done].
    apply IH in Hrec.
    assert (keepsOutside9 grid g2) as Hg2
      by (eapply keepsOutside9_trans; [|done]; by eapply keepsOutside9_trans).
    destruct filled; simpl; [done|].
    destruct (set_cell g2 row col Null) as [g3|] eqn:Hset3; simpl; [|done].
    apply keepsOutside9_set_cell in Hset3; [|done|done].
    by eapply keepsOutside9_trans. }
  specialize (Hloop Hbody).
  destruct (for_each _ _ _) as [[g0 k0]|[[b0 g0] k0]|e]; simpl in *; [| |done].
  - by intros [= <- <- <-].
  - by intros [= <- <- <-].
Qed.

(** ** getHint *)

Section Sort.
Context {R T : Type} (key : T -> nat) (compareFn : T -> T -> comp R Z).

Lemma sort_insert_perm (a : T) (sorted : list T) :
  (forall b, b ∈ sorted ->
     compareFn a b = Normal (Z.of_nat (key a) - Z.of_nat (key b))%Z) ->
  exists l, sort_insert compareFn a sorted = Normal l /\ l ≡ₚ a :: sorted.
Proof.
  induction sorted as [|b rest IH]; intros Hcmp; simpl; [by eexists|].
  rewrite (Hcmp b (list_elem_of_here _ _)). simpl.
  destruct (Z.leb_spec (Z.of_nat (key a) - Z.of_nat (key b)) 0); [by eexists|].
  destruct IH as (l & -> & Hperm); [intros; apply Hcmp; by right|].
  simpl. eexists. split; [done|]. rewrite Hperm. apply Permutation_swap.
Qed.

Lemma sort_insert_headMin (a : T) (sorted : list T) :
  (forall b, b ∈ sorted ->
     compareFn a b = Normal (Z.of_nat (key a) - Z.of_nat (key b))%Z) ->
  headMin key sorted ->
  exists l, sort_insert compareFn a sorted = Normal l /\ l ≡ₚ a :: sorted /\
            headMin key l.
Proof.
  intros Hcmp Hmin.
  destruct (sort_insert_perm a sorted Hcmp) as (l & Hl & Hperm).
  exists l. split; [done|]. split; [done|].
  destruct sorted as [|b rest]; simpl in Hl.
  - injection Hl as <-. intros h [= <-] x Hx.
    apply list_elem_of_singleton in Hx. by subst.
  - rewrite (Hcmp b (list_elem_of_here _ _)) in Hl. simpl in Hl.
    destruct (Z.leb_spec (Z.of_nat (key a) - Z.of_nat (key b)) 0).
    + injection Hl as <-. intros h [= <-] x Hx.
      apply elem_of_cons in Hx as [->|Hx]; [done|].
      pose proof (Hmin b eq_refl x Hx). lia.
    + destruct (sort_insert compareFn a rest) as [rest'| |]; simpl in Hl;
        try done.
      injection Hl as <-. intros h [= <-] x Hx.
      rewrite Hperm in Hx.
      apply elem_of_cons in Hx as [->|Hx]; [lia|].
      by apply (Hmin b eq_refl).
Qed.

(** The first element of the sorted array is one of the least. *)
Lemma array_sort_headMin (array : list T) :
  (forall a b, a ∈ array -> b ∈ array ->
     compareFn a b = Normal (Z.of_nat (key a) - Z.of_nat (key b))%Z) ->
  exists l, array_sort compareFn array = Normal l /\ l ≡ₚ array /\ headMin key l.
Proof.
  induction array as [|a rest IH]; intros Hcmp; simpl.
  - exists []. repeat split; [done|]. by intros h.
  - destruct IH as (l & -> & Hperm & Hmin).
    { intros x y Hx Hy. apply Hcmp; by right. }
    simpl.
    destruct (sort_insert_headMin a l) as (l' & Hl' & Hperm' & Hmin');
      [|done|].
    { intros b Hb. apply Hcmp; [by left|]. right. by rewrite <- Hperm. }
    exists l'. repeat split; [done| |done].
    by rewrite Hperm', Hperm.
Qed.
End Sort.

Lemma elem_of_emptyCellsOf cfg (grid : SudokuGrid) pos :
  pos ∈ emptyCellsOf grid cfg <->
  row pos < size cfg /\ col pos < size cfg /\ cellAt grid (row pos) (col pos) = Null.
Proof.
  unfold emptyCellsOf. rewrite list_elem_of_In, in_flat_map. split.
  - intros (r & Hr%in_seq & Hin). apply in_flat_map in Hin as (c & Hc%in_seq & Hin).
    destruct (strict_eq (cellAt grid r c) Null) eqn:E; simpl in Hin; [|done].
    destruct Hin as [<-|[]]. simpl. apply strict_eq_true in E.
    repeat split; [lia|lia|done].
  - intros (Hr & Hc & Hnull). exists (row pos). split; [apply in_seq; lia|].
    apply in_flat_map. exists (col pos). split; [apply in_seq; lia|].
    rewrite Hnull. simpl. left. by destruct pos.
Qed.

Lemma candidateCount_candidates cfg (grid : SudokuGrid) row col :
  wf_config cfg -> length grid = size cfg -> row < size cfg ->
  length (candidates grid row col cfg) = candidateCount grid row col cfg.
Proof.
  intros Hcfg Hlen Hrow. unfold candidates, candidateCount.
  induction (seq 1 (maxNumber cfg)) as [|n l IH]; simpl; [done|].
  rewrite filter_cons, length_app, IH.
  rewrite isValidMove_noHit by done.
  destruct (noHit grid row col (Num (Z.of_nat n)) cfg);
    destruct (decide _) as [Heq|Hne]; simpl; done.
Qed.

Lemma getHint_sorted cfg (grid solution : SudokuGrid) :
  wf_config cfg -> length grid = size cfg ->
  exists l, l ≡ₚ emptyCellsOf grid cfg /\
    headMin (fun pos => candidateCount grid (row pos) (col pos) cfg) l /\
    getHint grid solution cfg = Ok (head l).
Proof.
  intros Hcfg Hlen. unfold getHint.
  rewrite (for_each_push (fun row =>
    flat_map (fun col =>
      if strict_eq (cellAt grid row col) Null
      then [{| row := row; col := col |}] else [])
      (seq 0 (size cfg)))).
  2:{ intros r acc Hr%elem_of_seq.
      apply (for_each_push (fun col =>
        if strict_eq (cellAt grid r col) Null
        then [{| row := r; col := col |}] else [])).
      intros c acc' _. rewrite get_cell_cellAt by lia. simpl.
      destruct (strict_eq _ _); [done|]. by rewrite app_nil_r. }
  simpl. fold (emptyCellsOf grid cfg).
  destruct (length (emptyCellsOf grid cfg) =? 0) eqn:Hempty.
  - apply Nat.eqb_eq, nil_length_inv in Hempty. rewrite Hempty.
    exists []. repeat split; [done|]. by intros h.
  - match goal with |- context [array_sort ?cmp ?l] =>
      destruct (array_sort_headMin
                  (fun pos => candidateCount grid (row pos) (col pos) cfg) cmp l)
        as (l' & -> & Hperm & Hmin)
    end.
    { intros a b Ha%elem_of_emptyCellsOf Hb%elem_of_emptyCellsOf.
      rewrite !getPossibleNumbers_candidates by (done || lia). simpl.
      rewrite !candidateCount_candidates by (done || lia). done. }
    exists l'. done.
Qed.

(** ** Checks by evaluation *)

Lemma allCells_true n P :
  allCells n P = true -> forall r c, r < n -> c < n -> P r c = true.
Proof.
  unfold allCells. intros Hall r c Hr Hc.
  rewrite forallb_forall in Hall.
  assert (In r (seq 0 n)) as Hin by (apply in_seq; lia).
  apply Hall in Hin. rewrite forallb_forall in Hin.
  apply Hin, in_seq. lia.
Qed.

Lemma wf_gridb_true cfg (grid : SudokuGrid) :
  wf_gridb cfg grid = true -> wf_grid cfg grid.
Proof.
  unfold wf_gridb, wf_grid. intros [Hlen Hrows]%andb_true_iff.
  split; [by apply Nat.eqb_eq|].
  apply Forall_forall. intros cells Hin%list_elem_of_In.
  rewrite forallb_forall in Hrows.
  apply Hrows in Hin as [Hl Hcells]%andb_true_iff.
  split; [by apply Nat.eqb_eq|].
  apply Forall_forall. intros v Hv%list_elem_of_In.
  rewrite forallb_forall in Hcells.
  apply Hcells in Hv. apply negb_true_iff, strict_eq_false in Hv. done.
Qed.

Lemma wf_config_getGridConfig d : wf_config (getGridConfig d).
Proof. destruct d; unfold wf_config; simpl; lia. Qed.

Lemma inBox_sym cfg row col r c :
  wf_config cfg -> inBox cfg row col r c -> inBox cfg r c row col.
Proof.
  intros (HR & HC & _) [[Hr1 Hr2] [Hc1 Hc2]]. unfold inBox in *. simpl in *.
  assert (r / subGridRows cfg = row / subGridRows cfg) as ->.
  { symmetry.
    apply (Nat.div_unique r (subGridRows cfg) _
             (r - row / subGridRows cfg * subGridRows cfg)); lia. }
  assert (c / subGridCols cfg = col / subGridCols cfg) as ->.
  { symmetry.
    apply (Nat.div_unique c (subGridCols cfg) _
             (c - col / subGridCols cfg * subGridCols cfg)); lia. }
  pose proof (Nat.div_mod_eq row (subGridRows cfg)).
  pose proof (Nat.mod_upper_bound row (subGridRows cfg)).
  pose proof (Nat.div_mod_eq col (subGridCols cfg)).
  pose proof (Nat.mod_upper_bound col (subGridCols cfg)).
  lia.
Qed.

Lemma peer_sym cfg row col r c :
  wf_config cfg -> row < size cfg -> col < size cfg ->
  peer cfg row col r c -> peer cfg r c row col.
Proof.
  intros Hcfg Hrow Hcol (Hr & Hc & Hne & Hrel).
  repeat split; [done|done|congruence|].
  destruct Hrel as [->|[->|Hbox]]; [by left|right; by left|].
  right; right. by apply inBox_sym.
Qed.

(** * The claims *)

(** C4. On a well-formed grid and configuration, for an in-range cell
    [(row, col)] and any number [v] (in particular one in [1..maxNumber]),
    [isValidMove] returns, and returns true exactly when no other cell of
    the same row, the same column or the same sub-box holds [v]; the
    sub-box starts at [(floor(row/R)*R, floor(col/C)*C)], see [inBox].
    [isValidMove] has no write: only [get_cell] occurs in it. *)
Theorem isValidMove_iff_no_peer cfg (grid : SudokuGrid) row col (v : Z) :
  wf_config cfg -> wf_grid cfg grid -> row < size cfg -> col < size cfg ->
  exists b, isValidMove grid row col (Num v) cfg = Ok b /\
    (b = true <->
     forall r c, r < size cfg -> c < size cfg -> (r, c) <> (row, col) ->
       (r = row \/ c = col \/ inBox cfg row col r c) ->
       get_cell grid r c <> Ok (Num v)).
Proof.
  intros Hcfg Hwf Hrow Hcol. pose proof (proj1 Hwf) as Hlen.
  exists (noHit grid row col (Num v) cfg).
  split; [by apply isValidMove_noHit|].
  rewrite (noHit_true cfg grid row col (Num v) Hcfg Hrow Hcol). split.
  - intros Hpeers r c Hr Hc Hne Hrel Hget.
    apply get_cell_Ok in Hget as [_ Hget].
    by apply (Hpeers r c).
  - intros Hcells r c (Hr & Hc & Hne & Hrel) Hcell.
    apply (Hcells r c Hr Hc Hne Hrel).
    rewrite get_cell_cellAt by lia. by rewrite Hcell.
Qed.

Lemma isValidMove_iff_no_peer_witness :
  wf_config (getGridConfig easy) /\ wf_grid (getGridConfig easy) puzzle4 /\
  exists b, isValidMove puzzle4 0 1 (Num 2) (getGridConfig easy) = Ok b /\
    (b = true <->
     forall r c, r < 4 -> c < 4 -> (r, c) <> (0, 1) ->
       (r = 0 \/ c = 1 \/ inBox (getGridConfig easy) 0 1 r c) ->
       get_cell puzzle4 r c <> Ok (Num 2)).
Proof.
  split; [apply wf_config_getGridConfig|].
  split; [by apply wf_gridb_true|].
  apply (isValidMove_iff_no_peer (getGridConfig easy) puzzle4 0 1 2).
  - apply wf_config_getGridConfig.
  - by apply wf_gridb_true.
  - simpl; lia.
  - simpl; lia.
Defined.

(** C5. On a well-formed grid and configuration [validateGrid] returns,
    and [conflicts] holds exactly the positions of the filled cells whose
    value some other cell of the same row, column or sub-box holds too;
    of two filled cells that conflict with one another both are listed;
    [isValid] is true exactly when [conflicts] is empty. *)
Theorem validateGrid_conflicts_exact cfg (grid : SudokuGrid) :
  wf_config cfg -> wf_grid cfg grid ->
  exists result grid',
    validateGrid grid cfg = Ok (result, grid') /\
    (forall r c,
       {| row := r; col := c |} ∈ conflicts result <->
       r < size cfg /\ c < size cfg /\
       exists n, get_cell grid r c = Ok (Num n) /\
         exists r' c', peer cfg r c r' c' /\ get_cell grid r' c' = Ok (Num n)) /\
    (forall r c r' c' n,
       r < size cfg -> c < size cfg -> peer cfg r c r' c' ->
       get_cell grid r c = Ok (Num n) -> get_cell grid r' c' = Ok (Num n) ->
       {| row := r; col := c |} ∈ conflicts result /\
       {| row := r'; col := c' |} ∈ conflicts result) /\
    (isValid result = true <-> conflicts result = []).
Proof.
  intros Hcfg Hwf. pose proof (proj1 Hwf) as Hlen.
  eexists _, grid. split; [by apply validateGrid_conflictsOf|]. simpl.
  assert (forall r c,
    {| row := r; col := c |} ∈ conflictsOf grid cfg <->
    r < size cfg /\ c < size cfg /\
    exists n, get_cell grid r c = Ok (Num n) /\
      exists r' c', peer cfg r c r' c' /\ get_cell grid r' c' = Ok (Num n))
    as Hexact.
  { intros r c. rewrite elem_of_conflictsOf. split.
    - intros (Hr & Hc & Hconf). repeat split; [done|done|].
      apply conflictAt_true in Hconf as (n & Hn & r' & c' & Hp & Hn');
        [|done|done|done|done].
      exists n. rewrite get_cell_cellAt by lia. split; [by rewrite Hn|].
      exists r', c'. split; [done|].
      destruct Hp as (Hr' & _). rewrite get_cell_cellAt by lia. by rewrite Hn'.
    - intros (Hr & Hc & n & Hn & r' & c' & Hp & Hn'). repeat split; [done|done|].
      apply conflictAt_true; [done|done|done|done|].
      apply get_cell_Ok in Hn as [_ Hn]. apply get_cell_Ok in Hn' as [_ Hn'].
      exists n. split; [done|]. by exists r', c'. }
  split; [done|]. split.
  - intros r c r' c' n Hr Hc Hp Hn Hn'. split.
    + apply Hexact. repeat split; [done|done|]. exists n. split; [done|].
      by exists r', c'.
    + pose proof (peer_sym cfg r c r' c' Hcfg Hr Hc Hp) as Hp'.
      destruct Hp as (Hr' & Hc' & _).
      apply Hexact. repeat split; [done|done|]. exists n. split; [done|].
      by exists r, c.
  - rewrite Nat.eqb_eq. split; [apply nil_length_inv|by intros ->].
Qed.

Lemma validateGrid_conflicts_exact_witness :
  wf_config (getGridConfig easy) /\ wf_grid (getGridConfig easy) twoOnes4 /\
  exists result grid',
    validateGrid twoOnes4 (getGridConfig easy) = Ok (result, grid') /\
    (forall r c,
       {| row := r; col := c |} ∈ conflicts result <->
       r < 4 /\ c < 4 /\
       exists n, get_cell twoOnes4 r c = Ok (Num n) /\
         exists r' c', peer (getGridConfig easy) r c r' c' /\
                       get_cell twoOnes4 r' c' = Ok (Num n)) /\
    (forall r c r' c' n,
       r < 4 -> c < 4 -> peer (getGridConfig easy) r c r' c' ->
       get_cell twoOnes4 r c = Ok (Num n) -> get_cell twoOnes4 r' c' = Ok (Num n) ->
       {| row := r; col := c |} ∈ conflicts result /\
       {| row := r'; col := c' |} ∈ conflicts result) /\
    (isValid result = true <-> conflicts result = []).
Proof.
  split; [apply wf_config_getGridConfig|].
  split; [by apply wf_gridb_true|].
  apply (validateGrid_conflicts_exact (getGridConfig easy) twoOnes4).
  - apply wf_config_getGridConfig.
  - by apply wf_gridb_true.
Defined.

(** C8. On a well-formed grid and configuration [validateGrid] returns
    with the grid holding at every cell what it held before the call,
    although each filled cell is cleared while it is checked. *)
Theorem validateGrid_restores_grid cfg (grid : SudokuGrid) :
  wf_config cfg -> wf_grid cfg grid ->
  exists result grid',
    validateGrid grid cfg = Ok (result, grid') /\
    grid' = grid /\
    forall r c, get_cell grid' r c = get_cell grid r c.
Proof.
  intros Hcfg Hwf. eexists _, grid.
  split; [by apply validateGrid_conflictsOf|]. done.
Qed.

Lemma validateGrid_restores_grid_witness :
  wf_config (getGridConfig easy) /\ wf_grid (getGridConfig easy) puzzle4 /\
  exists result grid',
    validateGrid puzzle4 (getGridConfig easy) = Ok (result, grid') /\
    grid' = puzzle4 /\
    forall r c, get_cell grid' r c = get_cell puzzle4 r c.
Proof.
  split; [apply wf_config_getGridConfig|].
  split; [by apply wf_gridb_true|].
  apply (validateGrid_restores_grid (getGridConfig easy) puzzle4).
  - apply wf_config_getGridConfig.
  - by apply wf_gridb_true.
Defined.

(** C7, the counterexample.  In the 4 by 4 grid with two 1s in row 0,
    cell (0,0) holds 1; with that 1 removed, [isValidMove] for 1 at (0,0)
    returns false, because of the 1 at (0,1). *)
Lemma isValidMove_own_value_counterexample :
  get_cell twoOnes4 0 0 = Ok (Num 1) /\
  exists grid0,
    set_cell twoOnes4 0 0 Null = Ok grid0 /\
    isValidMove grid0 0 0 (Num 1) (getGridConfig easy) = Ok false.
Proof. split; [reflexivity|]. eexists. split; reflexivity. Qed.

(** C7, amended.  If cell [(r, c)] of a well-formed grid holds [v] and
    no other cell of its row, column or sub-box holds [v], then after
    removing [v] from [(r, c)], [isValidMove] for [v] at [(r, c)] returns
    true. *)
Theorem isValidMove_own_value cfg (grid : SudokuGrid) r c (v : Z) :
  wf_config cfg -> wf_grid cfg grid -> r < size cfg -> c < size cfg ->
  get_cell grid r c = Ok (Num v) ->
  (forall r' c', peer cfg r c r' c' -> get_cell grid r' c' <> Ok (Num v)) ->
  exists grid0,
    set_cell grid r c Null = Ok grid0 /\
    isValidMove grid0 r c (Num v) cfg = Ok true.
Proof.
  intros Hcfg Hwf Hr Hc Hget Hpeers. pose proof (proj1 Hwf) as Hlen.
  destruct (set_cell_in_range cfg grid r c Null Hwf Hr Hc)
    as (cells & Hrow & Hcl & ->).
  eexists. split; [done|].
  rewrite isValidMove_noHit; [|done|by rewrite length_insert|done].
  rewrite noHit_insert_self by done. f_equal.
  apply noHit_true; [done|done|done|].
  intros r' c' Hp Hcell. apply (Hpeers r' c' Hp).
  destruct Hp as (Hr' & _). rewrite get_cell_cellAt by lia. by rewrite Hcell.
Qed.

Lemma isValidMove_own_value_witness :
  get_cell solution4 0 0 = Ok (Num 1) /\
  exists grid0,
    set_cell solution4 0 0 Null = Ok grid0 /\
    isValidMove grid0 0 0 (Num 1) (getGridConfig easy) = Ok true.
Proof.
  split; [reflexivity|].
  apply (isValidMove_own_value (getGridConfig easy) solution4 0 0 1).
  - apply wf_config_getGridConfig.
  - by apply wf_gridb_true.
  - simpl; lia.
  - simpl; lia.
  - reflexivity.
  - intros r' c' (Hr' & Hc' & Hne & Hrel). simpl in Hr', Hc'.
    unfold inBox in Hrel. simpl in Hrel.
    do 4 (destruct r' as [|r'];
          [do 4 (destruct c' as [|c'];
                 [first [discriminate | congruence | exfalso; lia]|]); lia|]).
    lia.
Defined.

(** C10. With fuel for every empty cell, [solve] on a well-formed grid
    and configuration returns, true or false, and every cell that was
    filled before the call holds its original value afterwards. *)
Theorem solve_keeps_filled_cells cfg (grid : SudokuGrid) fuel :
  wf_config cfg -> wf_grid cfg grid -> countEmpty grid < fuel ->
  exists b grid',
    solve fuel grid cfg = Ok (b, grid') /\
    forall r c, r < size cfg -> c < size cfg ->
      get_cell grid r c <> Ok Null -> get_cell grid' r c = get_cell grid r c.
Proof.
  intros Hcfg Hwf Hfuel. unfold solve.
  destruct (solveRecursive_spec cfg Hcfg fuel grid Hwf Hfuel)
    as (b & grid' & Hrun & Hwf' & _ & Hframe).
  exists b, grid'. split; [done|].
  intros r c Hr Hc Hfilled.
  pose proof (proj1 Hwf). pose proof (proj1 Hwf').
  rewrite !get_cell_cellAt in * by lia.
  f_equal. apply Hframe. congruence.
Qed.

Lemma solve_keeps_filled_cells_witness :
  countEmpty puzzle4 < 9 /\
  exists b grid',
    solve 9 puzzle4 (getGridConfig easy) = Ok (b, grid') /\
    forall r c, r < 4 -> c < 4 ->
      get_cell puzzle4 r c <> Ok Null -> get_cell grid' r c = get_cell puzzle4 r c.
Proof.
  split; [vm_compute; lia|].
  apply (solve_keeps_filled_cells (getGridConfig easy) puzzle4 9).
  - apply wf_config_getGridConfig.
  - by apply wf_gridb_true.
  - vm_compute; lia.
Defined.

(** C2, the counterexample.  The 4 by 4 grid of sixteen 1s has no empty
    cell; [solve] returns true on it although [validateGrid] reports all
    sixteen cells as conflicts. *)
Lemma solve_full_grid_counterexample :
  countEmpty allOnes4 = 0 /\
  solve 1 allOnes4 (getGridConfig easy) = Ok (true, allOnes4) /\
  exists result,
    validateGrid allOnes4 (getGridConfig easy) = Ok (result, allOnes4) /\
    isValid result = false /\ length (conflicts result) = 16.
Proof.
  split; [reflexivity|]. split; [reflexivity|].
  eexists. split; [reflexivity|]. split; reflexivity.
Qed.

(** C2, amended.  On a well-formed grid with no empty cell [solve]
    returns true, whether or not [validateGrid] reports conflicts, and
    leaves every cell unchanged. *)
Theorem solve_full_grid cfg (grid : SudokuGrid) fuel :
  wf_config cfg -> wf_grid cfg grid -> 0 < fuel ->
  (forall r c, r < size cfg -> c < size cfg -> get_cell grid r c <> Ok Null) ->
  solve fuel grid cfg = Ok (true, grid).
Proof.
  intros Hcfg Hwf Hfuel Hfull. pose proof (proj1 Hwf) as Hlen.
  destruct fuel as [|fuel]; [lia|].
  unfold solve. rewrite solveRecursive_unfold.
  rewrite findBestEmptyCell_full; [done|done|done|].
  intros r c Hr Hc Hnull. apply (Hfull r c Hr Hc).
  rewrite get_cell_cellAt by lia. by rewrite Hnull.
Qed.

Lemma solve_full_grid_witness :
  solve 1 allOnes4 (getGridConfig easy) = Ok (true, allOnes4).
Proof.
  apply (solve_full_grid (getGridConfig easy) allOnes4 1).
  - apply wf_config_getGridConfig.
  - by apply wf_gridb_true.
  - lia.
  - intros r c Hr Hc. simpl in Hr, Hc.
    do 4 (destruct r as [|r];
          [do 4 (destruct c as [|c]; [discriminate|]); lia|]).
    lia.
Defined.

(** C3, the counterexample.  [nearlyFull4] has an empty cell, (3,3), and
    its filled cells hold two 2s in row 0; [solve] returns true on it and
    leaves 1 in the cell that was empty. *)
Lemma solve_contradictory_counterexample :
  get_cell nearlyFull4 3 3 = Ok Null /\
  get_cell nearlyFull4 0 0 = Ok (Num 2) /\
  get_cell nearlyFull4 0 1 = Ok (Num 2) /\
  solve 2 nearlyFull4 (getGridConfig easy) = Ok (true, nearlyFull4_solved) /\
  get_cell nearlyFull4_solved 3 3 = Ok (Num 1).
Proof. repeat split; reflexivity. Qed.

(** C3, amended.  With fuel for every empty cell [solve] on a well-formed
    grid and configuration returns, and when it returns false every cell
    holds what it held before the call, so that every cell that was empty
    is empty again; on the 4 by 4 grid with two 1s in row 0 and all other
    cells empty it returns false. *)
Theorem solve_false_unwinds cfg (grid : SudokuGrid) fuel :
  wf_config cfg -> wf_grid cfg grid -> countEmpty grid < fuel ->
  (exists b grid',
     solve fuel grid cfg = Ok (b, grid') /\
     (b = false ->
      grid' = grid /\
      forall r c, get_cell grid r c = Ok Null -> get_cell grid' r c = Ok Null)) /\
  solve 15 twoOnes4 (getGridConfig easy) = Ok (false, twoOnes4).
Proof.
  intros Hcfg Hwf Hfuel. split; [|by vm_compute].
  unfold solve.
  destruct (solveRecursive_spec cfg Hcfg fuel grid Hwf Hfuel)
    as (b & grid' & Hrun & _ & Hfail & _).
  exists b, grid'. split; [done|].
  intros Hb. rewrite (Hfail Hb). done.
Qed.

Lemma solve_false_unwinds_witness :
  countEmpty twoOnes4 < 15 /\
  (exists b grid',
     solve 15 twoOnes4 (getGridConfig easy) = Ok (b, grid') /\
     (b = false ->
      grid' = twoOnes4 /\
      forall r c, get_cell twoOnes4 r c = Ok Null -> get_cell grid' r c = Ok Null)) /\
  solve 15 twoOnes4 (getGridConfig easy) = Ok (false, twoOnes4).
Proof.
  split; [vm_compute; lia|].
  apply (solve_false_unwinds (getGridConfig easy) twoOnes4 15).
  - apply wf_config_getGridConfig.
  - by apply wf_gridb_true.
  - vm_compute; lia.
Defined.

(** C6. On a well-formed puzzle grid and configuration: when the puzzle
    has an empty cell, [getHint] returns the position of an empty cell
    whose number of legal candidate values is least among all empty
    cells; when it has none, [getHint] returns null; and the position
    returned is the same for every [solution]. *)
Theorem getHint_most_constrained cfg (puzzle solution : SudokuGrid) :
  wf_config cfg -> wf_grid cfg puzzle ->
  ((exists r c, r < size cfg /\ c < size cfg /\ get_cell puzzle r c = Ok Null) ->
   exists pos,
     getHint puzzle solution cfg = Ok (Some pos) /\
     row pos < size cfg /\ col pos < size cfg /\
     get_cell puzzle (row pos) (col pos) = Ok Null /\
     forall r c, r < size cfg -> c < size cfg -> get_cell puzzle r c = Ok Null ->
       candidateCount puzzle (row pos) (col pos) cfg <=
       candidateCount puzzle r c cfg) /\
  ((forall r c, r < size cfg -> c < size cfg -> get_cell puzzle r c <> Ok Null) ->
   getHint puzzle solution cfg = Ok None) /\
  (forall solution' : SudokuGrid,
     getHint puzzle solution' cfg = getHint puzzle solution cfg).
Proof.
  intros Hcfg Hwf. pose proof (proj1 Hwf) as Hlen.
  destruct (getHint_sorted cfg puzzle solution Hcfg Hlen)
    as (l & Hperm & Hmin & Hhint).
  split; [|split]; [| |done].
  - intros (r & c & Hr & Hc & Hnull).
    apply get_cell_Ok in Hnull as [_ Hnull].
    assert ({| row := r; col := c |} ∈ l) as Hin.
    { rewrite Hperm. by apply elem_of_emptyCellsOf. }
    destruct l as [|pos l']; [by apply elem_of_nil in Hin|].
    exists pos. split; [done|].
    assert (pos ∈ emptyCellsOf puzzle cfg) as Hpos
      by (rewrite <- Hperm; by left).
    apply elem_of_emptyCellsOf in Hpos as (Hpr & Hpc & Hpnull).
    repeat split; [done|done|rewrite get_cell_cellAt by lia; by rewrite Hpnull|].
    intros r' c' Hr' Hc' Hnull'.
    apply get_cell_Ok in Hnull' as [_ Hnull'].
    apply (Hmin pos eq_refl {| row := r'; col := c' |}).
    rewrite Hperm. by apply elem_of_emptyCellsOf.
  - intros Hfull. rewrite Hhint.
    destruct l as [|pos l']; [done|].
    assert (pos ∈ emptyCellsOf puzzle cfg) as Hpos
      by (rewrite <- Hperm; by left).
    apply elem_of_emptyCellsOf in Hpos as (Hpr & Hpc & Hpnull).
    destruct (Hfull (row pos) (col pos) Hpr Hpc).
    rewrite get_cell_cellAt by lia. by rewrite Hpnull.
Qed.

Lemma getHint_most_constrained_witness :
  wf_config (getGridConfig easy) /\ wf_grid (getGridConfig easy) puzzle4 /\
  ((exists r c, r < 4 /\ c < 4 /\ get_cell puzzle4 r c = Ok Null) ->
   exists pos,
     getHint puzzle4 solution4 (getGridConfig easy) = Ok (Some pos) /\
     row pos < 4 /\ col pos < 4 /\
     get_cell puzzle4 (row pos) (col pos) = Ok Null /\
     forall r c, r < 4 -> c < 4 -> get_cell puzzle4 r c = Ok Null ->
       candidateCount puzzle4 (row pos) (col pos) (getGridConfig easy) <=
       candidateCount puzzle4 r c (getGridConfig easy)) /\
  ((forall r c, r < 4 -> c < 4 -> get_cell puzzle4 r c <> Ok Null) ->
   getHint puzzle4 solution4 (getGridConfig easy) = Ok None) /\
  (forall solution' : SudokuGrid,
     getHint puzzle4 solution' (getGridConfig easy) =
     getHint puzzle4 solution4 (getGridConfig easy)).
Proof.
  split; [apply wf_config_getGridConfig|].
  split; [by apply wf_gridb_true|].
  apply (getHint_most_constrained (getGridConfig easy) puzzle4 solution4).
  - apply wf_config_getGridConfig.
  - by apply wf_gridb_true.
Defined.

(** C9. For each difficulty [generatePuzzle] returns the configuration
    [getGridConfig] gives for it, of size 4, 6 or 16 and well formed,
    with a puzzle and a solution that both have [size] rows of [size]
    cells; every cell of the solution holds a value in [1..size],
    [validateGrid] reports no conflict on it, and every non-empty cell of
    the puzzle holds what the same cell of the solution holds.  The
    puzzle has cells that are cleared and cells that are given. *)
Theorem generatePuzzle_pair (difficulty : Difficulty) :
  let generated := SudokuGenerator.generatePuzzle difficulty in
  let cfg := SudokuGenerator.gen_gridConfig generated in
  let puzzle := SudokuGenerator.gen_puzzle generated in
  let solution := SudokuGenerator.gen_solution generated in
  cfg = getGridConfig difficulty /\
  size cfg = match difficulty with easy => 4 | medium => 6 | hard => 16 end /\
  wf_config cfg /\
  length puzzle = size cfg /\ length solution = size cfg /\
  Forall (fun cells => length cells = size cfg) puzzle /\
  Forall (fun cells => length cells = size cfg) solution /\
  0 < countEmpty puzzle < size cfg * size cfg /\
  wf_grid cfg puzzle /\ wf_grid cfg solution /\
  (forall r c, r < size cfg -> c < size cfg ->
     exists v, get_cell solution r c = Ok (Num v) /\
               (1 <= v <= Z.of_nat (size cfg))%Z) /\
  (exists result,
     validateGrid solution cfg = Ok (result, solution) /\
     isValid result = true /\ conflicts result = []) /\
  isComplete solution cfg = Ok (true, solution) /\
  (forall r c, r < size cfg -> c < size cfg ->
     get_cell puzzle r c <> Ok Null ->
     get_cell puzzle r c = get_cell solution r c).
Proof.
  intros generated cfg puzzle solution.
  assert (wf_grid cfg puzzle) as Hwfp
    by (apply wf_gridb_true; destruct difficulty; by vm_compute).
  assert (wf_grid cfg solution) as Hwfs
    by (apply wf_gridb_true; destruct difficulty; by vm_compute).
  pose proof (proj1 Hwfp) as Hlp. pose proof (proj1 Hwfs) as Hls.
  split; [done|]. split; [by destruct difficulty|].
  split; [apply wf_config_getGridConfig|].
  split; [done|]. split; [done|].
  split; [eapply Forall_impl; [apply Hwfp|by intros cells [Hcells _]]|].
  split; [eapply Forall_impl; [apply Hwfs|by intros cells [Hcells _]]|].
  split; [destruct difficulty; vm_compute; lia|].
  split; [done|]. split; [done|]. split; [|split; [|split]].
  - intros r c Hr Hc.
    pose proof (allCells_true (size cfg)
      (fun r c => match cellAt solution r c with
                  | Num v => (1 <=? v)%Z && (v <=? Z.of_nat (size cfg))%Z
                  | _ => false
                  end)) as Hall.
    rewrite get_cell_cellAt by lia.
    specialize (Hall ltac:(destruct difficulty; by vm_compute) r c Hr Hc).
    simpl in Hall.
    destruct (cellAt solution r c) as [| |v]; [done|done|].
    exists v. split; [done|]. lia.
  - exists {| isValid := true; conflicts := [] |}.
    split; [|done]. destruct difficulty; by vm_compute.
  - destruct difficulty; by vm_compute.
  - intros r c Hr Hc.
    pose proof (allCells_true (size cfg)
      (fun r c => strict_eq (cellAt puzzle r c) Null ||
                  strict_eq (cellAt puzzle r c) (cellAt solution r c))) as Hall.
    rewrite !get_cell_cellAt by lia.
    specialize (Hall ltac:(destruct difficulty; by vm_compute) r c Hr Hc).
    simpl in Hall.
    apply orb_true_iff in Hall as [Hnull%strict_eq_true|Heq%strict_eq_true].
    + intros []. by rewrite Hnull.
    + intros _. by rewrite Heq.
Qed.

(** [generateComplete] on a size other than 9 leaves an empty cell in
    whatever grid it returns: below 9 the fill never reports success and
    unwinds, above 9 no cell outside the top left 9 by 9 window is
    written. *)
Lemma generateComplete_not_9 rand fuel cfg k (grid : SudokuGrid) k' :
  0 < size cfg -> size cfg <> 9 ->
  generateComplete rand fuel cfg k = Ok (grid, k') ->
  exists r c, r < size cfg /\ c < size cfg /\ get_cell grid r c = Ok Null.
Proof.
  intros Hpos Hne. unfold generateComplete.
  set (empty := replicate (size cfg) (replicate (size cfg) Null)).
  assert (length empty = size cfg) as Hlen by apply length_replicate.
  assert (forall r c, r < size cfg -> c < size cfg -> cellAt empty r c = Null)
    as Hempty.
  { intros r c Hr Hc. unfold cellAt, empty, index.
    rewrite lookup_replicate_2 by done. by rewrite lookup_replicate_2. }
  destruct (fillGridRandomly rand fuel empty cfg k) as [[[b g] k1]|] eqn:Hfill;
    simpl; [|done].
  intros [= <- <-].
  destruct (decide (size cfg < 9)) as [Hsmall|Hlarge].
  - apply fillGridRandomly_short in Hfill as [_ ->]; [|lia].
    exists 0, 0. repeat split; [done|done|].
    rewrite get_cell_cellAt by lia. by rewrite Hempty.
  - apply fillGridRandomly_window in Hfill as [Hl Hout].
    exists (size cfg - 1), (size cfg - 1). repeat split; [lia|lia|].
    rewrite get_cell_cellAt by lia.
    rewrite Hout by lia. rewrite Hempty by lia. done.
Qed.

(** C1, as the code has it.  For each of the three configurations, every
    random source and every fuel: a grid that [generateComplete] returns
    has an empty cell, so it is never the complete grid the claim
    promises. *)
Theorem generateComplete_leaves_empty_cell rand fuel difficulty k
    (grid : SudokuGrid) k' :
  generateComplete rand fuel (getGridConfig difficulty) k = Ok (grid, k') ->
  exists r c,
    r < size (getGridConfig difficulty) /\ c < size (getGridConfig difficulty) /\
    get_cell grid r c = Ok Null.
Proof.
  apply generateComplete_not_9; destruct difficulty; simpl; lia.
Qed.

Lemma generateComplete_leaves_empty_cell_witness :
  exists grid k',
    generateComplete (fun _ => 0) 82 (getGridConfig hard) 0 = Ok (grid, k') /\
    exists r c, r < 16 /\ c < 16 /\ get_cell grid r c = Ok Null.
Proof.
  eexists _, _. split; [vm_compute; reflexivity|].
  eapply (generateComplete_leaves_empty_cell (fun _ => 0) 82 hard 0).
  vm_compute; reflexivity.
Defined.

(** On the 4 by 4 and the 6 by 6 configuration the fill reaches a full
    grid and the next scan reads row 4, respectively row 6: a TypeError;
    here with the random source that always draws 0. *)
Example generateComplete_easy_throws :
  generateComplete (fun _ => 0) 17 (getGridConfig easy) 0 = Err TypeError.
Proof. by vm_compute. Qed.

Example generateComplete_medium_throws :
  generateComplete (fun _ => 0) 37 (getGridConfig medium) 0 = Err TypeError.
Proof. by vm_compute. Qed.

(** On the 16 by 16 configuration the call returns once the top left 9
    by 9 cells are filled: 175 of the 256 cells are still empty. *)
Example generateComplete_hard_partial :
  exists grid k',
    generateComplete (fun _ => 0) 82 (getGridConfig hard) 0 = Ok (grid, k') /\
    countEmpty grid = 175 /\
    isComplete grid (getGridConfig hard) = Ok (false, grid).
Proof. eexists _, _. split; [by vm_compute|]. split; by vm_compute. Qed.

(** * Further properties *)

(** ** More on loops *)

Lemma for_each_app {R A S : Type} (xs ys : list A) (body : A -> S -> comp R S)
    (s : S) :
  for_each (xs ++ ys) body s =
  let* s' := for_each xs body s in for_each ys body s'.
Proof.
  revert s. induction xs as [|x xs IH]; intros s; simpl; [done|].
  destruct (body x s); simpl; [apply IH|done|done].
Qed.

Lemma for_each_map {R A B S : Type} (f : A -> B) (xs : list A)
    (body : B -> S -> comp R S) (s : S) :
  for_each (map f xs) body s = for_each xs (fun x => body (f x)) s.
Proof.
  revert s. induction xs as [|x xs IH]; intros s; simpl; [done|].
  destruct (body (f x) s); simpl; [apply IH|done|done].
Qed.

(** Two nested scans are one scan over the pairs. *)
Lemma for_each_nested {R A B S : Type} (rows : list A) (cols : list B)
    (outer : A -> S -> comp R S) (inner : A -> B -> S -> comp R S) (s : S) :
  (forall r s, outer r s = for_each cols (inner r) s) ->
  for_each rows outer s =
  for_each (flat_map (fun r => map (pair r) cols) rows)
           (fun p => inner (fst p) (snd p)) s.
Proof.
  intros Houter. revert s. induction rows as [|r rows IH]; intros s; simpl; [done|].
  rewrite for_each_app, for_each_map, Houter. simpl.
  destruct (for_each cols (inner r) s); simpl; [apply IH|done|done].
Qed.

(** The loop rule with an invariant that knows the elements done. *)
Lemma for_each_prefix {R A S : Type} (I : list A -> S -> Prop) (Q : R -> Prop)
    (E : error -> Prop) (xs : list A) (body : A -> S -> comp R S) (s : S) :
  I [] s ->
  (forall pre x post s, xs = pre ++ x :: post -> I pre s ->
     match body x s with
     | Normal s' => I (pre ++ [x]) s' | Return r => Q r | Throw e => E e
     end) ->
  match for_each xs body s with
  | Normal s' => I xs s' | Return r => Q r | Throw e => E e
  end.
Proof.
  intros Hinit Hbody.
  assert (forall ys pre s, xs = pre ++ ys -> I pre s ->
            match for_each ys body s with
            | Normal s' => I xs s' | Return r => Q r | Throw e => E e
            end) as Hgen.
  { induction ys as [|y ys IH]; intros pre t Hxs Ht; simpl.
    - by rewrite Hxs, app_nil_r.
    - pose proof (Hbody pre y ys t Hxs Ht) as Hy.
      destruct (body y t) as [t'| |]; simpl; try done.
      apply (IH (pre ++ [y])); [|done]. by rewrite <- app_assoc. }
  by apply (Hgen xs []).
Qed.

Lemma elem_of_cellPositions n r c :
  (r, c) ∈ cellPositions n <-> r < n /\ c < n.
Proof.
  unfold cellPositions. rewrite list_elem_of_In, in_flat_map. split.
  - intros (r' & Hr'%in_seq & Hin). apply in_map_iff in Hin as (c' & [= <- <-] & Hc'%in_seq).
    lia.
  - intros [Hr Hc]. exists r. split; [apply in_seq; lia|].
    apply in_map_iff. exists c. split; [done|]. apply in_seq. lia.
Qed.

(** ** isComplete, getPossibleNumbers, findBestEmptyCell *)

Lemma isComplete_noNull_conflictsOf cfg (grid : SudokuGrid) :
  wf_config cfg -> wf_grid cfg grid ->
  isComplete grid cfg =
  Ok (negb (existsb (fun r => existsb (fun c => strict_eq (cellAt grid r c) Null)
                                (seq 0 (size cfg))) (seq 0 (size cfg)))
      && (length (conflictsOf grid cfg) =? 0), grid).
Proof.
  intros Hcfg Hwf. pose proof (proj1 Hwf) as Hlen. unfold isComplete.
  rewrite (for_each_scan
             (fun r => existsb (fun c => strict_eq (cellAt grid r c) Null)
                         (seq 0 (size cfg))) (false, grid)).
  2:{ intros r Hr%elem_of_seq.
      apply (for_each_scan (fun c => strict_eq (cellAt grid r c) Null) (false, grid)).
      intros c _. rewrite get_cell_cellAt by lia. simpl.
      by destruct (strict_eq _ _). }
  destruct (existsb _ _); simpl; [done|].
  rewrite validateGrid_conflictsOf by done. done.
Qed.

Lemma noNull_scan cfg (grid : SudokuGrid) :
  existsb (fun r => existsb (fun c => strict_eq (cellAt grid r c) Null)
                      (seq 0 (size cfg))) (seq 0 (size cfg)) = false <->
  forall r c, r < size cfg -> c < size cfg -> cellAt grid r c <> Null.
Proof.
  split.
  - intros Hscan r c Hr Hc Hnull.
    assert (existsb (fun r => existsb (fun c => strict_eq (cellAt grid r c) Null)
                      (seq 0 (size cfg))) (seq 0 (size cfg)) = true); [|congruence].
    apply existsb_exists. exists r. split; [apply in_seq; lia|].
    apply existsb_exists. exists c. split; [apply in_seq; lia|].
    by apply strict_eq_true.
  - intros Hfull. apply not_true_is_false. intros Hex.
    apply existsb_exists in Hex as (r & Hr%in_seq & Hex).
    apply existsb_exists in Hex as (c & Hc%in_seq & Hnull%strict_eq_true).
    apply (Hfull r c); (done || lia).
Qed.

Lemma conflictsOf_nil cfg (grid : SudokuGrid) :
  conflictsOf grid cfg = [] <-> conflictFree cfg grid.
Proof.
  split.
  - intros Hnil r c Hr Hc. apply not_true_is_false. intros Hconf.
    assert ({| row := r; col := c |} ∈ conflictsOf grid cfg) as Hin
      by (by apply elem_of_conflictsOf).
    rewrite Hnil in Hin. by apply elem_of_nil in Hin.
  - intros Hfree. destruct (conflictsOf grid cfg) as [|[r c] l] eqn:E; [done|].
    assert ({| row := r; col := c |} ∈ conflictsOf grid cfg) as Hin
      by (rewrite E; by left).
    apply elem_of_conflictsOf in Hin as (Hr & Hc & Hconf).
    by rewrite Hfree in Hconf.
Qed.

Lemma candidates_length cfg (grid : SudokuGrid) row col :
  length (candidates grid row col cfg) <= maxNumber cfg.
Proof.
  unfold candidates.
  assert (forall l : list nat,
    length (flat_map (fun num =>
              if noHit grid row col (Num (Z.of_nat num)) cfg
              then [Z.of_nat num] else []) l) <= length l) as Hle.
  { induction l as [|n l IH]; simpl; [done|].
    rewrite length_app. destruct (noHit _ _ _ _ _); simpl; lia. }
  specialize (Hle (seq 1 (maxNumber cfg))). by rewrite length_seq in Hle.
Qed.

Lemma elem_of_candidates cfg (grid : SudokuGrid) row col (n : Z) :
  n ∈ candidates grid row col cfg <->
  (1 <= n <= Z.of_nat (maxNumber cfg))%Z /\
  noHit grid row col (Num n) cfg = true.
Proof.
  unfold candidates. rewrite list_elem_of_In, in_flat_map. split.
  - intros (k & Hk%in_seq & Hin).
    destruct (noHit grid row col (Num (Z.of_nat k)) cfg) eqn:E; [|done].
    destruct Hin as [<-|[]]. split; [lia|done].
  - intros [Hn Hhit]. exists (Z.to_nat n).
    rewrite Z2Nat.id by lia. split; [apply in_seq; lia|].
    rewrite Hhit. by left.
Qed.

(** What [findBestEmptyCell] returns, by cases. *)
Lemma findBestEmptyCell_cases cfg (grid : SudokuGrid) :
  wf_config cfg -> length grid = size cfg ->
  match findBestEmptyCell grid cfg with
  | Ok None =>
      forall r c, r < size cfg -> c < size cfg -> cellAt grid r c <> Null
  | Ok (Some (r, c)) =>
      r < size cfg /\ c < size cfg /\ cellAt grid r c = Null /\
      (length (candidates grid r c cfg) = 1 \/
       forall r' c', r' < size cfg -> c' < size cfg -> cellAt grid r' c' = Null ->
         length (candidates grid r c cfg) <= length (candidates grid r' c' cfg))
  | Err _ => False
  end.
Proof.
  intros Hcfg Hlen. unfold findBestEmptyCell.
  match goal with
  | |- context [for_each ?rows (fun row st => for_each ?cols (@?inner row) st) ?s] =>
      rewrite (for_each_nested rows cols _ inner s) by reflexivity
  end.
  fold (cellPositions (size cfg)).
  set (count := fun r c => length (candidates grid r c cfg)).
  set (inv := fun (pre : list (nat * nat)) (st : option (nat * nat) * nat) =>
    snd st <= maxNumber cfg + 1 /\
    (forall r c, (r, c) ∈ pre -> cellAt grid r c = Null -> snd st <= count r c) /\
    match fst st with
    | None => snd st = maxNumber cfg + 1
    | Some (r, c) =>
        r < size cfg /\ c < size cfg /\ cellAt grid r c = Null /\ count r c = snd st
    end).
  set (early := fun best : option (nat * nat) =>
    match best with
    | Some (r, c) =>
        r < size cfg /\ c < size cfg /\ cellAt grid r c = Null /\ count r c = 1
    | None => False
    end).
  match goal with |- context [for_each ?xs ?body ?s] =>
    pose proof (for_each_prefix inv early (fun _ => False) xs body s) as Hloop
  end.
  match type of Hloop with ?P -> _ => assert P as Hinit end.
  { unfold inv; simpl. split; [lia|]. split; [|done].
    intros r c Hin. by apply elem_of_nil in Hin. }
  specialize (Hloop Hinit).
  match type of Hloop with ?P -> _ => assert P as Hbody end.
  { intros pre [r c] post [best minP] Hxs (Hmax & Hmin & Hbest). simpl in *.
    assert ((r, c) ∈ cellPositions (size cfg)) as [Hr Hc]%elem_of_cellPositions.
    { rewrite Hxs. apply elem_of_app. right. by left. }
    pose proof (candidates_length cfg grid r c) as Hcount.
    rewrite get_cell_cellAt by lia. simpl.
    destruct (strict_eq (cellAt grid r c) Null) eqn:Hnull; simpl.
    2:{ apply strict_eq_false in Hnull. unfold inv; simpl.
        split; [done|]. split; [|done].
        intros r' c' [Hin|Hin%list_elem_of_singleton]%elem_of_app Hn;
          [by apply Hmin|]. injection Hin as -> ->. done. }
    apply strict_eq_true in Hnull.
    rewrite getPossibleNumbers_candidates by (done || lia). simpl.
    fold (count r c).
    destruct (Nat.ltb_spec (count r c) minP) as [Hlt|Hge].
    - destruct (Nat.eqb_spec (count r c) 1) as [Hone|Hmore]; simpl.
      + done.
      + unfold inv; simpl. split; [unfold count; lia|]. split; [|done].
        intros r' c' [Hin|Hin%list_elem_of_singleton]%elem_of_app Hn.
        * specialize (Hmin r' c' Hin Hn). lia.
        * injection Hin as -> ->. done.
    - unfold inv; simpl. split; [done|]. split; [|done].
      intros r' c' [Hin|Hin%list_elem_of_singleton]%elem_of_app Hn;
        [by apply Hmin|]. injection Hin as -> ->. done. }
  specialize (Hloop Hbody).
  destruct (for_each _ _ _) as [[best minP]|best|e]; simpl in *; [| |done].
  - destruct Hloop as (Hmax & Hmin & Hbest). simpl in *.
    destruct best as [[r c]|].
    + destruct Hbest as (Hr & Hc & Hnull & Hcount).
      repeat split; [done|done|done|]. right.
      intros r' c' Hr' Hc' Hnull'. fold (count r c). rewrite Hcount.
      apply Hmin; [|done]. by apply elem_of_cellPositions.
    + intros r c Hr Hc Hnull.
      assert (minP <= count r c) as Hle
        by (apply Hmin; [by apply elem_of_cellPositions|done]).
      pose proof (candidates_length cfg grid r c). unfold count in Hle. lia.
  - destruct best as [[r c]|]; [|done].
    destruct Hloop as (Hr & Hc & Hnull & Hcount).
    repeat split; [done|done|done|]. by left.
Qed.

(** X1. On a well-formed grid and configuration [findBestEmptyCell] does
    not throw, and it returns null exactly when the grid has no empty
    cell. *)
Theorem findBestEmptyCell_null_iff_full cfg (grid : SudokuGrid) :
  wf_config cfg -> wf_grid cfg grid ->
  (exists best, findBestEmptyCell grid cfg = Ok best) /\
  (findBestEmptyCell grid cfg = Ok None <->
   forall r c, r < size cfg -> c < size cfg -> get_cell grid r c <> Ok Null).
Proof.
  intros Hcfg Hwf. pose proof (proj1 Hwf) as Hlen.
  pose proof (findBestEmptyCell_cases cfg grid Hcfg Hlen) as Hcases.
  destruct (findBestEmptyCell grid cfg) as [[[r c]|]|e]; [| |done].
  - split; [by eexists|]. split; [done|].
    intros Hfull. destruct Hcases as (Hr & Hc & Hnull & _).
    destruct (Hfull r c Hr Hc). rewrite get_cell_cellAt by lia. by rewrite Hnull.
  - split; [by eexists|]. split; [|done].
    intros _ r c Hr Hc Hget. apply get_cell_Ok in Hget as [_ Hget].
    by apply (Hcases r c).
Qed.

Lemma findBestEmptyCell_null_iff_full_witness :
  (exists best, findBestEmptyCell solution4 (getGridConfig easy) = Ok best) /\
  (findBestEmptyCell solution4 (getGridConfig easy) = Ok None <->
   forall r c, r < 4 -> c < 4 -> get_cell solution4 r c <> Ok Null).
Proof.
  apply (findBestEmptyCell_null_iff_full (getGridConfig easy) solution4).
  - apply wf_config_getGridConfig.
  - by apply wf_gridb_true.
Defined.

(** X2. The cell [findBestEmptyCell] returns is an empty cell of the
    grid that either has exactly one legal candidate (the scan stops at
    the first such cell it improves on) or has the least number of legal
    candidates among all empty cells. *)
Theorem findBestEmptyCell_most_constrained cfg (grid : SudokuGrid) r c :
  wf_config cfg -> wf_grid cfg grid ->
  findBestEmptyCell grid cfg = Ok (Some (r, c)) ->
  r < size cfg /\ c < size cfg /\ get_cell grid r c = Ok Null /\
  (candidateCount grid r c cfg = 1 \/
   forall r' c', r' < size cfg -> c' < size cfg -> get_cell grid r' c' = Ok Null ->
     candidateCount grid r c cfg <= candidateCount grid r' c' cfg).
Proof.
  intros Hcfg Hwf Hbest. pose proof (proj1 Hwf) as Hlen.
  pose proof (findBestEmptyCell_cases cfg grid Hcfg Hlen) as Hcases.
  rewrite Hbest in Hcases. destruct Hcases as (Hr & Hc & Hnull & Hmin).
  repeat split; [done|done|rewrite get_cell_cellAt by lia; by rewrite Hnull|].
  rewrite <- candidateCount_candidates by done.
  destruct Hmin as [Hone|Hmin]; [by left|right].
  intros r' c' Hr' Hc' Hget. apply get_cell_Ok in Hget as [_ Hget].
  rewrite <- candidateCount_candidates by done. by apply Hmin.
Qed.

Lemma findBestEmptyCell_most_constrained_witness :
  0 < 4 /\ 1 < 4 /\ get_cell puzzle4 0 1 = Ok Null /\
  (candidateCount puzzle4 0 1 (getGridConfig easy) = 1 \/
   forall r' c', r' < 4 -> c' < 4 -> get_cell puzzle4 r' c' = Ok Null ->
     candidateCount puzzle4 0 1 (getGridConfig easy) <=
     candidateCount puzzle4 r' c' (getGridConfig easy)).
Proof.
  apply (findBestEmptyCell_most_constrained (getGridConfig easy) puzzle4 0 1).
  - apply wf_config_getGridConfig.
  - by apply wf_gridb_true.
  - by vm_compute.
Defined.

(** ** What the solver's answers mean *)

Lemma extends_refl (grid : SudokuGrid) : extends grid grid.
Proof. by intros r c _. Qed.

(** Writing a value none of its peers holds into an empty cell of a
    grid without conflicts gives a grid without conflicts. *)
Lemma conflictFree_place cfg (grid : SudokuGrid) cells row col n :
  wf_config cfg -> wf_grid cfg grid -> row < size cfg -> col < size cfg ->
  grid !! row = Some cells -> cellAt grid row col = Null ->
  noHit grid row col (Num n) cfg = true ->
  conflictFree cfg grid ->
  conflictFree cfg (<[row := <[col := Num n]> cells]> grid).
Proof.
  intros Hcfg Hwf Hrow Hcol Hcells Hnull Hhit Hfree r c Hr Hc.
  assert (length cells = size cfg) as Hcl.
  { destruct (wf_grid_row cfg grid row Hwf Hrow) as (cells' & Hc' & Hl & _).
    congruence. }
  assert (wf_grid cfg (<[row := <[col := Num n]> cells]> grid)) as Hwf'
    by (by apply wf_grid_insert).
  pose proof (proj1 (noHit_true cfg grid row col (Num n) Hcfg Hrow Hcol) Hhit)
    as Hpeers.
  apply not_true_is_false. intros Hconf.
  apply conflictAt_true in Hconf as (m & Hm & r' & c' & Hp & Hm');
    [|done|done|done|done].
  destruct (decide ((r, c) = (row, col))) as [[= -> ->]|Hne].
  - rewrite cellAt_insert_same in Hm by (done || lia). injection Hm as <-.
    assert ((r', c') <> (row, col)) as Hne' by (by destruct Hp as (_ & _ & ? & _)).
    rewrite cellAt_insert_other in Hm' by done.
    by apply (Hpeers r' c').
  - rewrite cellAt_insert_other in Hm by done.
    destruct (decide ((r', c') = (row, col))) as [[= -> ->]|Hne'].
    + rewrite cellAt_insert_same in Hm' by (done || lia). injection Hm' as <-.
      apply (Hpeers r c); [|done]. by apply peer_sym.
    + rewrite cellAt_insert_other in Hm' by done.
      assert (conflictAt grid cfg r c = true) as Hold.
      { apply conflictAt_true; [done|done|done|done|].
        exists m. split; [done|]. by exists r', c'. }
      by rewrite Hfree in Hold.
Qed.

(** A solved grid that keeps the filled cells of [grid] holds, at an
    empty cell of [grid], one of the candidates of that cell. *)
Lemma solved_value_is_candidate cfg (grid full : SudokuGrid) row col :
  wf_config cfg -> row < size cfg -> col < size cfg ->
  solved cfg full -> extends grid full ->
  exists n, cellAt full row col = Num n /\ n ∈ candidates grid row col cfg.
Proof.
  intros Hcfg Hrow Hcol (Hwf & Hvals & Hfree) Hext.
  destruct (Hvals row col Hrow Hcol) as (n & Hn & Hrange).
  exists n. split; [done|]. apply elem_of_candidates. split; [done|].
  apply noHit_true; [done|done|done|].
  intros r c Hp Hcell.
  assert (cellAt full r c = Num n) as Hfull
    by (rewrite Hext; [done|by rewrite Hcell]).
  assert (conflictAt full cfg row col = true) as Hconf.
  { apply conflictAt_true; [done|done|done|done|].
    exists n. split; [done|]. by exists r, c. }
  by rewrite Hfree in Hconf.
Qed.

Lemma extends_place (grid full : SudokuGrid) cells row col n :
  grid !! row = Some cells -> extends grid full ->
  cellAt full row col = Num n ->
  extends (<[row := <[col := Num n]> cells]> grid) full.
Proof.
  intros Hcells Hext Hn r c Hfilled.
  destruct (decide ((r, c) = (row, col))) as [[= -> ->]|Hne].
  - destruct (decide (col < length cells)).
    + by rewrite cellAt_insert_same.
    + rewrite (list_insert_ge cells) in * by lia.
      rewrite list_insert_id in * by done. by apply Hext.
  - rewrite cellAt_insert_other in * by done. by apply Hext.
Qed.

(** What an answer of [solveRecursive] means. *)
Lemma solveRecursive_outcome cfg :
  wf_config cfg ->
  forall fuel (grid grid' : SudokuGrid) b,
    wf_grid cfg grid -> solveRecursive fuel grid cfg = Ok (b, grid') ->
    if b then
      wf_grid cfg grid' /\ extends grid grid' /\
      (forall r c, r < size cfg -> c < size cfg -> cellAt grid' r c <> Null) /\
      (forall r c, r < size cfg -> c < size cfg -> cellAt grid r c = Null ->
         exists n, cellAt grid' r c = Num n /\
                   (1 <= n <= Z.of_nat (maxNumber cfg))%Z) /\
      (conflictFree cfg grid -> conflictFree cfg grid')
    else
      grid' = grid /\ ~ exists full, solved cfg full /\ extends grid full.
Proof.
  intros Hcfg. induction fuel as [|fuel IH]; intros grid grid' b Hwf Hrun; [done|].
  rewrite solveRecursive_unfold in Hrun.
  pose proof (proj1 Hwf) as Hlen.
  pose proof (findBestEmptyCell_cases cfg grid Hcfg Hlen) as Hbest.
  destruct (findBestEmptyCell grid cfg) as [[[row col]|]|e]; simpl in Hrun;
    [| |done].
  2:{ injection Hrun as <- <-. simpl.
      split; [done|]. split; [apply extends_refl|]. split; [done|].
      split; [|done].
      intros r c Hr Hc Hnull. by destruct (Hbest r c Hr Hc). }
  destruct Hbest as (Hrow & Hcol & Hnull & _).
  rewrite getPossibleNumbers_candidates in Hrun by done. simpl in Hrun.
  destruct (set_cell_in_range cfg grid row col Null Hwf Hrow Hcol)
    as (cells & Hcells & Hcl & _).
  assert (index cells col = Null) as Hidx
    by (unfold cellAt in Hnull; by rewrite Hcells in Hnull).
  revert Hrun.
  match goal with |- context [for_each ?xs ?body ?s] =>
    pose proof (for_each_prefix
      (fun pre g => g = grid /\
         forall x, x ∈ pre ->
           ~ exists full, solved cfg full /\
                          extends (<[row := <[col := Num x]> cells]> grid) full)
      (fun r => exists g', r = (true, g') /\
         wf_grid cfg g' /\ extends grid g' /\
         (forall r c, r < size cfg -> c < size cfg -> cellAt g' r c <> Null) /\
         (forall r c, r < size cfg -> c < size cfg -> cellAt grid r c = Null ->
            exists n, cellAt g' r c = Num n /\
                      (1 <= n <= Z.of_nat (maxNumber cfg))%Z) /\
         (conflictFree cfg grid -> conflictFree cfg g'))
      (fun _ => True) xs body s) as Hloop
  end.
  match type of Hloop with ?P -> _ => assert P as Hinit end.
  { split; [done|]. intros x Hx. by apply elem_of_nil in Hx. }
  specialize (Hloop Hinit).
  match type of Hloop with ?P -> _ => assert P as Hbody end.
  { intros pre x post g Hxs [-> Hpre].
    assert (x ∈ candidates grid row col cfg) as [Hrange Hhit]%elem_of_candidates
      by (rewrite Hxs; apply elem_of_app; right; by left).
    rewrite (set_cell_at grid cells) by (done || lia). simpl.
    assert (wf_grid cfg (<[row := <[col := Num x]> cells]> grid)) as Hwf1
      by (by apply wf_grid_insert).
    destruct (solveRecursive fuel _ cfg) as [[b2 g2]|e] eqn:Hrec; simpl; [|done].
    apply IH in Hrec; [|done]. destruct b2.
    - destruct Hrec as (Hwf2 & Hext2 & Hfull2 & Hnew2 & Hfree2).
      exists g2. split; [done|]. split; [done|]. split; [|split; [done|split]].
      + intros r c Hfilled.
        assert ((r, c) <> (row, col)) as Hne by (intros [= -> ->]; done).
        rewrite Hext2; rewrite cellAt_insert_other by done; done.
      + intros r c Hr Hc Hempty.
        destruct (decide ((r, c) = (row, col))) as [[= -> ->]|Hne].
        * exists x. split; [|done].
          rewrite Hext2; rewrite cellAt_insert_same by (done || lia); done.
        * apply Hnew2; [done|done|]. by rewrite cellAt_insert_other.
      + intros Hfree. apply Hfree2. by apply conflictFree_place.
    - destruct Hrec as [-> Hnone]. rewrite <- Hidx.
      rewrite set_cell_restore by (done || lia). split; [done|].
      intros y [Hy|Hy%list_elem_of_singleton]%elem_of_app; [by apply Hpre|].
      by subst y. }
  specialize (Hloop Hbody).
  destruct (for_each _ _ _) as [g|[b2 g2]|e]; simpl in *; [| |done].
  - destruct Hloop as [-> Hnone]. intros [= <- <-]. split; [done|].
    intros (full & Hsolved & Hext).
    destruct (solved_value_is_candidate cfg grid full row col Hcfg Hrow Hcol
                Hsolved Hext) as (n & Hn & Hcand).
    apply (Hnone n Hcand). exists full. split; [done|].
    by apply extends_place.
  - destruct Hloop as (g' & [= -> ->] & Hprops). intros [= <- <-]. done.
Qed.

Lemma validateGrid_no_conflicts cfg (grid : SudokuGrid) :
  wf_config cfg -> wf_grid cfg grid ->
  (exists result grid',
     validateGrid grid cfg = Ok (result, grid') /\ conflicts result = []) <->
  conflictFree cfg grid.
Proof.
  intros Hcfg Hwf. rewrite <- conflictsOf_nil.
  rewrite validateGrid_conflictsOf by done. split.
  - by intros (result & grid' & [= <- <-] & Hnil).
  - intros Hnil. by eexists _, _.
Qed.

(** X3. On a well-formed grid and configuration [isComplete] returns and
    leaves the grid as it was; it returns true exactly when every cell
    holds a number and no two distinct cells of one row, column or
    sub-box hold the same number.  That the numbers lie in
    [1..maxNumber] is not checked. *)
Theorem isComplete_iff_filled_without_duplicates cfg (grid : SudokuGrid) :
  wf_config cfg -> wf_grid cfg grid ->
  exists b,
    isComplete grid cfg = Ok (b, grid) /\
    (b = true <->
     (forall r c, r < size cfg -> c < size cfg ->
        exists n, get_cell grid r c = Ok (Num n)) /\
     (forall r c r' c' n, r < size cfg -> c < size cfg -> peer cfg r c r' c' ->
        get_cell grid r c = Ok (Num n) -> get_cell grid r' c' <> Ok (Num n))).
Proof.
  intros Hcfg Hwf. pose proof (proj1 Hwf) as Hlen.
  eexists. split; [by apply isComplete_noNull_conflictsOf|].
  rewrite andb_true_iff, negb_true_iff, noNull_scan, Nat.eqb_eq.
  rewrite length_zero_iff_nil, conflictsOf_nil. split.
  - intros [Hfull Hfree]. split.
    + intros r c Hr Hc. rewrite get_cell_cellAt by lia.
      destruct (wf_grid_cell cfg grid r c Hwf Hr Hc) as [Hn|[n Hn]];
        [by destruct (Hfull r c)|]. exists n. by rewrite Hn.
    + intros r c r' c' n Hr Hc Hp Hget Hget'.
      apply get_cell_Ok in Hget as [_ Hget]. apply get_cell_Ok in Hget' as [_ Hget'].
      assert (conflictAt grid cfg r c = true) as Hconf.
      { apply conflictAt_true; [done|done|done|done|].
        exists n. split; [done|]. by exists r', c'. }
      by rewrite Hfree in Hconf.
  - intros [Hfull Hdistinct]. split.
    + intros r c Hr Hc Hnull. destruct (Hfull r c Hr Hc) as [n Hn].
      apply get_cell_Ok in Hn as [_ Hn]. congruence.
    + intros r c Hr Hc. apply not_true_is_false. intros Hconf.
      apply conflictAt_true in Hconf as (n & Hn & r' & c' & Hp & Hn');
        [|done|done|done|done].
      apply (Hdistinct r c r' c' n Hr Hc Hp).
      * rewrite get_cell_cellAt by lia. by rewrite Hn.
      * destruct Hp as (Hr' & _). rewrite get_cell_cellAt by lia. by rewrite Hn'.
Qed.

Lemma isComplete_iff_filled_without_duplicates_witness :
  isComplete fiveToEight4 (getGridConfig easy) = Ok (true, fiveToEight4) /\
  exists b,
    isComplete fiveToEight4 (getGridConfig easy) = Ok (b, fiveToEight4) /\
    (b = true <->
     (forall r c, r < 4 -> c < 4 ->
        exists n, get_cell fiveToEight4 r c = Ok (Num n)) /\
     (forall r c r' c' n, r < 4 -> c < 4 -> peer (getGridConfig easy) r c r' c' ->
        get_cell fiveToEight4 r c = Ok (Num n) ->
        get_cell fiveToEight4 r' c' <> Ok (Num n))).
Proof.
  split; [by vm_compute|].
  apply (isComplete_iff_filled_without_duplicates (getGridConfig easy) fiveToEight4).
  - apply wf_config_getGridConfig.
  - by apply wf_gridb_true.
Defined.

(** X4. On a grid with all its rows [getPossibleNumbers] does not throw
    and returns, in ascending order, exactly the values of
    [1..maxNumber] for which [isValidMove] returns true. *)
Theorem getPossibleNumbers_filter cfg (grid : SudokuGrid) row col :
  wf_config cfg -> length grid = size cfg -> row < size cfg ->
  getPossibleNumbers grid row col cfg =
  Ok (map Z.of_nat
        (filter (fun v => isValidMove grid row col (Num (Z.of_nat v)) cfg = Ok true)
                (seq 1 (maxNumber cfg)))).
Proof.
  intros Hcfg Hlen Hrow. rewrite getPossibleNumbers_candidates by done.
  f_equal. unfold candidates.
  induction (seq 1 (maxNumber cfg)) as [|n l IH]; simpl; [done|].
  rewrite filter_cons, IH. rewrite isValidMove_noHit by done.
  destruct (noHit grid row col (Num (Z.of_nat n)) cfg);
    destruct (decide _) as [Heq|Hne]; simpl; done.
Qed.

Lemma getPossibleNumbers_filter_witness :
  getPossibleNumbers twoOnes4 1 2 (getGridConfig easy) = Ok [1; 2; 3; 4]%Z /\
  getPossibleNumbers twoOnes4 0 2 (getGridConfig easy) =
  Ok (map Z.of_nat
        (filter (fun v => isValidMove twoOnes4 0 2 (Num (Z.of_nat v))
                            (getGridConfig easy) = Ok true)
                (seq 1 4))).
Proof.
  split; [by vm_compute|].
  apply (getPossibleNumbers_filter (getGridConfig easy) twoOnes4 0 2).
  - apply wf_config_getGridConfig.
  - reflexivity.
  - simpl; lia.
Defined.

(** X5. When [solve] returns true on a well-formed grid, whether or not
    the given cells conflict, the grid it leaves has no empty cell, every
    cell that was filled holds its value, and every cell that was empty
    holds a value in [1..maxNumber]. *)
Theorem solve_true_fills_grid cfg (grid grid' : SudokuGrid) fuel :
  wf_config cfg -> wf_grid cfg grid ->
  solve fuel grid cfg = Ok (true, grid') ->
  forall r c, r < size cfg -> c < size cfg ->
    (exists n, get_cell grid' r c = Ok (Num n)) /\
    (get_cell grid r c <> Ok Null -> get_cell grid' r c = get_cell grid r c) /\
    (get_cell grid r c = Ok Null ->
     exists n, get_cell grid' r c = Ok (Num n) /\
               (1 <= n <= Z.of_nat (maxNumber cfg))%Z).
Proof.
  intros Hcfg Hwf Hrun r c Hr Hc. unfold solve in Hrun.
  apply (solveRecursive_outcome cfg Hcfg) in Hrun
    as (Hwf' & Hext & Hfull & Hnew & _); [|done].
  pose proof (proj1 Hwf). pose proof (proj1 Hwf').
  rewrite !get_cell_cellAt by lia. split; [|split].
  - destruct (wf_grid_cell cfg grid' r c Hwf' Hr Hc) as [Hn|[n Hn]];
      [by destruct (Hfull r c)|]. exists n. by rewrite Hn.
  - intros Hfilled. f_equal. apply Hext. congruence.
  - intros [= Hnull]. destruct (Hnew r c Hr Hc Hnull) as (n & Hn & Hrange).
    exists n. by rewrite Hn.
Qed.

Lemma solve_true_fills_grid_witness :
  solve 2 nearlyFull4 (getGridConfig easy) = Ok (true, nearlyFull4_solved) /\
  forall r c, r < 4 -> c < 4 ->
    (exists n, get_cell nearlyFull4_solved r c = Ok (Num n)) /\
    (get_cell nearlyFull4 r c <> Ok Null ->
     get_cell nearlyFull4_solved r c = get_cell nearlyFull4 r c) /\
    (get_cell nearlyFull4 r c = Ok Null ->
     exists n, get_cell nearlyFull4_solved r c = Ok (Num n) /\ (1 <= n <= 4)%Z).
Proof.
  split; [by vm_compute|].
  apply (solve_true_fills_grid (getGridConfig easy) nearlyFull4 nearlyFull4_solved 2).
  - apply wf_config_getGridConfig.
  - by apply wf_gridb_true.
  - by vm_compute.
Defined.

(** X6. When [solve] returns true on a well-formed grid on which
    [validateGrid] reports no conflict, [isComplete] returns true on the
    grid it leaves. *)
Theorem solve_true_isComplete cfg (grid grid' : SudokuGrid) fuel :
  wf_config cfg -> wf_grid cfg grid ->
  (exists result grid0,
     validateGrid grid cfg = Ok (result, grid0) /\ conflicts result = []) ->
  solve fuel grid cfg = Ok (true, grid') ->
  isComplete grid' cfg = Ok (true, grid').
Proof.
  intros Hcfg Hwf Hvalid Hrun. unfold solve in Hrun.
  apply validateGrid_no_conflicts in Hvalid; [|done|done].
  apply (solveRecursive_outcome cfg Hcfg) in Hrun
    as (Hwf' & _ & Hfull & _ & Hfree); [|done].
  rewrite isComplete_noNull_conflictsOf by done.
  rewrite (proj2 (noNull_scan cfg grid') Hfull).
  rewrite (proj2 (conflictsOf_nil cfg grid') (Hfree Hvalid)). done.
Qed.

Lemma solve_true_isComplete_witness :
  exists grid',
    solve 9 puzzle4 (getGridConfig easy) = Ok (true, grid') /\
    isComplete grid' (getGridConfig easy) = Ok (true, grid').
Proof.
  eexists. split; [by vm_compute|].
  apply (solve_true_isComplete (getGridConfig easy) puzzle4 _ 9).
  - apply wf_config_getGridConfig.
  - by apply wf_gridb_true.
  - eexists _, _. split; by vm_compute.
  - by vm_compute.
Defined.

(** X7. When [solve] returns false on a well-formed grid, the grid has
    no completion: no solved grid (square, every cell a value in
    [1..maxNumber], no conflict) keeps all its filled cells. *)
Theorem solve_false_no_completion cfg (grid grid' : SudokuGrid) fuel :
  wf_config cfg -> wf_grid cfg grid ->
  solve fuel grid cfg = Ok (false, grid') ->
  ~ exists full, solved cfg full /\ extends grid full.
Proof.
  intros Hcfg Hwf Hrun. unfold solve in Hrun.
  by apply (solveRecursive_outcome cfg Hcfg) in Hrun as [_ Hnone].
Qed.

Lemma solve_false_no_completion_witness :
  solve 15 twoOnes4 (getGridConfig easy) = Ok (false, twoOnes4) /\
  ~ exists full, solved (getGridConfig easy) full /\ extends twoOnes4 full.
Proof.
  split; [by vm_compute|].
  apply (solve_false_no_completion (getGridConfig easy) twoOnes4 twoOnes4 15).
  - apply wf_config_getGridConfig.
  - by apply wf_gridb_true.
  - by vm_compute.
Defined.

(** X8. On a well-formed grid whose filled cells hold values in
    [1..maxNumber] and on which [validateGrid] reports no conflict,
    [solve] with fuel for every empty cell returns true exactly when the
    grid has a completion, and the grid it then leaves is one. *)
Theorem solve_decides_solvability cfg (grid : SudokuGrid) fuel :
  wf_config cfg -> wf_grid cfg grid ->
  (forall r c n, r < size cfg -> c < size cfg -> get_cell grid r c = Ok (Num n) ->
     (1 <= n <= Z.of_nat (maxNumber cfg))%Z) ->
  (exists result grid0,
     validateGrid grid cfg = Ok (result, grid0) /\ conflicts result = []) ->
  countEmpty grid < fuel ->
  exists b grid',
    solve fuel grid cfg = Ok (b, grid') /\
    (b = true <-> exists full, solved cfg full /\ extends grid full) /\
    (b = true -> solved cfg grid' /\ extends grid grid').
Proof.
  intros Hcfg Hwf Hlegal Hvalid Hfuel. pose proof (proj1 Hwf) as Hlen.
  apply validateGrid_no_conflicts in Hvalid; [|done|done].
  destruct (solveRecursive_spec cfg Hcfg fuel grid Hwf Hfuel)
    as (b & grid' & Hrun & _).
  exists b, grid'. split; [done|].
  pose proof (solveRecursive_outcome cfg Hcfg fuel grid grid' b Hwf Hrun) as Hout.
  destruct b.
  - destruct Hout as (Hwf' & Hext & Hfull & Hnew & Hfree).
    assert (solved cfg grid') as Hsolved.
    { split; [done|]. split; [|by apply Hfree].
      intros r c Hr Hc.
      destruct (wf_grid_cell cfg grid r c Hwf Hr Hc) as [Hnull|[n Hn]].
      - by apply Hnew.
      - exists n. split; [rewrite Hext; [done|by rewrite Hn]|].
        apply (Hlegal r c n Hr Hc). rewrite get_cell_cellAt by lia.
        by rewrite Hn. }
    split; [|done]. split; [|done]. intros _. by exists grid'.
  - destruct Hout as [_ Hnone]. split; [|done]. split; [done|].
    intros Hex. by destruct Hnone.
Qed.

Lemma solve_decides_solvability_witness :
  countEmpty puzzle4 < 9 /\
  exists b grid',
    solve 9 puzzle4 (getGridConfig easy) = Ok (b, grid') /\
    (b = true <->
     exists full, solved (getGridConfig easy) full /\ extends puzzle4 full) /\
    (b = true -> solved (getGridConfig easy) grid' /\ extends puzzle4 grid').
Proof.
  split; [vm_compute; lia|].
  apply (solve_decides_solvability (getGridConfig easy) puzzle4 9).
  - apply wf_config_getGridConfig.
  - by apply wf_gridb_true.
  - intros r c n Hr Hc. simpl in Hr, Hc.
    do 4 (destruct r as [|r];
          [do 4 (destruct c as [|c];
                 [first [discriminate | intros [= <-]; simpl; lia]|]); lia|]).
    lia.
  - eexists _, _. split; by vm_compute.
  - vm_compute; lia.
Defined.

(** ** shuffleArray and createRemovalOrder *)

Lemma swap_Permutation {T : Type} (l : list T) i j : swap l i j ≡ₚ l.
Proof.
  unfold swap. destruct (l !! i) as [a|] eqn:Hi; [|done].
  destruct (l !! j) as [b|] eqn:Hj; [|done].
  by apply Permutation_insert_swap.
Qed.

Lemma shuffle_fold {T : Type} (rand : nat -> nat) (idx : list nat)
    (array : list T) k :
  let '(l, k') :=
    fold_left (fun '(shuffled, k) i =>
                 let j := rand k mod (i + 1) in (swap shuffled i j, S k))
              idx (array, k) in
  l ≡ₚ array /\ k' = k + length idx.
Proof.
  revert array k. induction idx as [|i idx IH]; intros array k; simpl.
  - split; [done|lia].
  - specialize (IH (swap array i (rand k mod (i + 1))) (S k)).
    destruct (fold_left _ idx _) as [l k'].
    destruct IH as [Hperm ->]. split; [|lia].
    by rewrite Hperm, swap_Permutation.
Qed.

Lemma shuffleArray_perm {T : Type} (rand : nat -> nat) (array : list T) (k : nat) :
  fst (shuffleArray rand array k) ≡ₚ array /\
  snd (shuffleArray rand array k) = k + (length array - 1).
Proof.
  unfold shuffleArray.
  pose proof (shuffle_fold rand (rev (seq 1 (length array - 1))) array k) as H.
  destruct (fold_left _ _ _) as [l k']. simpl.
  destruct H as [Hperm ->]. split; [done|].
  by rewrite length_rev, length_seq.
Qed.

(** X9. [shuffleArray] returns a permutation of its argument, of
    whatever the random source draws, and takes one draw for each
    element but the first; an empty or one-element array takes none. *)
Theorem shuffleArray_Permutation {T : Type} (rand : nat -> nat)
    (array : list T) (k : nat) :
  fst (shuffleArray rand array k) ≡ₚ array /\
  snd (shuffleArray rand array k) = k + (length array - 1).
Proof. apply shuffleArray_perm. Qed.

Lemma createRemovalOrder_shuffle rand cfg k :
  createRemovalOrder rand cfg k = Ok (shuffleArray rand (allPositions cfg) k).
Proof.
  unfold createRemovalOrder, allPositions.
  rewrite (for_each_push (fun row =>
    flat_map (fun col => [{| row := row; col := col |}]) (seq 0 (size cfg))));
    [done|].
  intros r acc _.
  apply (for_each_push (fun col => [{| row := r; col := col |}])).
  done.
Qed.

Lemma elem_of_allPositions cfg pos :
  pos ∈ allPositions cfg <-> row pos < size cfg /\ col pos < size cfg.
Proof.
  unfold allPositions. rewrite list_elem_of_In, in_flat_map. split.
  - intros (r & Hr%in_seq & Hin). apply in_flat_map in Hin as (c & Hc%in_seq & Hin).
    destruct Hin as [<-|[]]. simpl. lia.
  - intros [Hr Hc]. exists (row pos). split; [apply in_seq; lia|].
    apply in_flat_map. exists (col pos). split; [apply in_seq; lia|].
    left. by destruct pos.
Qed.

Lemma NoDup_allPositions cfg : NoDup (allPositions cfg).
Proof.
  unfold allPositions.
  assert (forall rows, NoDup rows ->
    NoDup (flat_map (fun row =>
      flat_map (fun col => [{| row := row; col := col |}])
        (seq 0 (size cfg))) rows)) as Hrows.
  { induction rows as [|r rows IH]; intros Hnd; simpl; [constructor|].
    apply NoDup_cons in Hnd as [Hr Hnd].
    apply NoDup_app. split; [|split; [|by apply IH]].
    - assert (forall cols, NoDup cols ->
        NoDup (flat_map (fun col => [{| row := r; col := col |}]) cols)) as Hcols.
      { induction cols as [|c cols IHc]; intros Hc; simpl; [constructor|].
        apply NoDup_cons in Hc as [Hc Hcs]. apply NoDup_cons. split; [|by apply IHc].
        rewrite list_elem_of_In, in_flat_map.
        intros (c' & Hc'%list_elem_of_In & [[= <-]|[]]). done. }
      apply Hcols, NoDup_seq.
    - intros pos Hin Hin'.
      apply list_elem_of_In, in_flat_map in Hin as (c & _ & [<-|[]]).
      apply list_elem_of_In, in_flat_map in Hin' as (r' & Hr'%list_elem_of_In & Hin').
      apply in_flat_map in Hin' as (c' & _ & [[= <- <-]|[]]). done. }
  apply Hrows, NoDup_seq.
Qed.

(** X10. [createRemovalOrder] does not throw; the order it returns lists
    every position of the grid exactly once, and nothing else. *)
Theorem createRemovalOrder_each_position_once rand cfg k :
  exists order k',
    createRemovalOrder rand cfg k = Ok (order, k') /\
    NoDup order /\ length order = size cfg * size cfg /\
    forall pos, pos ∈ order <-> row pos < size cfg /\ col pos < size cfg.
Proof.
  rewrite createRemovalOrder_shuffle.
  destruct (shuffleArray_perm rand (allPositions cfg) k) as [Hperm _].
  destruct (shuffleArray rand (allPositions cfg) k) as [order k']. simpl in Hperm.
  exists order, k'. split; [done|]. split; [|split].
  - rewrite Hperm. apply NoDup_allPositions.
  - rewrite Hperm. unfold allPositions.
    assert (forall rows : list nat,
      length (flat_map (fun row =>
        flat_map (fun col => [{| row := row; col := col |}])
          (seq 0 (size cfg))) rows) = length rows * size cfg) as Hlen.
    { induction rows as [|r rows IH]; simpl; [done|].
      rewrite length_app, IH. f_equal.
      assert (forall cols : list nat,
        length (flat_map (fun col => [{| row := r; col := col |}]) cols)
        = length cols) as Hc
        by (induction cols as [|c cols IHc]; simpl; [done|by rewrite IHc]).
      by rewrite Hc, length_seq. }
    by rewrite Hlen, length_seq.
  - intros pos. rewrite Hperm. apply elem_of_allPositions.
Qed.

(** ** The generator of complete grids, on every grid size *)

Lemma seq_prefix (n : nat) (pre post : list nat) (x : nat) :
  seq 0 n = pre ++ x :: post -> x = length pre /\ pre = seq 0 x /\ x < n.
Proof.
  intros Hsplit.
  assert (length pre < n) as Hlt.
  { apply (f_equal length) in Hsplit.
    rewrite length_seq, length_app in Hsplit. simpl in Hsplit. lia. }
  assert (x = length pre) as ->.
  { assert (seq 0 n !! length pre = Some x) as Hx
      by (rewrite Hsplit; apply list_lookup_middle; done).
    rewrite lookup_seq_lt in Hx by done. by injection Hx. }
  split; [done|]. split; [|done].
  assert (pre = take (length pre) (seq 0 n)) as Hp
    by (by rewrite Hsplit, take_app_length).
  rewrite take_seq, Nat.min_l in Hp by lia. done.
Qed.

Lemma cellAt_Null_in_row cfg (grid : SudokuGrid) r c :
  wf_grid cfg grid -> cellAt grid r c = Null -> r < size cfg /\ c < size cfg.
Proof.
  intros [Hlen Hrows] Hnull. unfold cellAt, index in Hnull.
  destruct (grid !! r) as [cells|] eqn:Hr; [|done].
  destruct (cells !! c) as [v|] eqn:Hc; [|done].
  apply lookup_lt_Some in Hr as Hr'.
  pose proof (proj1 (Forall_lookup _ _) Hrows r cells Hr) as [Hl _].
  apply lookup_lt_Some in Hc. lia.
Qed.

(** What [findFirstEmptyCell] does on a square grid, by cases. *)
Lemma findFirstEmptyCell_cases cfg (grid : SudokuGrid) :
  wf_grid cfg grid ->
  match findFirstEmptyCell grid with
  | Ok (Some (r, c)) => inWindow cfg r c /\ cellAt grid r c = Null
  | Ok None => 9 <= size cfg /\ windowFull cfg grid
  | Err e => e = TypeError /\ size cfg < 9 /\ windowFull cfg grid
  end.
Proof.
  intros Hwf. pose proof (proj1 Hwf) as Hlen. unfold findFirstEmptyCell.
  set (found := fun best : option (nat * nat) =>
    match best with
    | Some (r, c) => inWindow cfg r c /\ cellAt grid r c = Null
    | None => False
    end).
  match goal with |- context [for_each ?xs ?body ?s] =>
    pose proof (for_each_prefix
      (fun pre (_ : unit) =>
         forall r, r ∈ pre ->
           r < size cfg /\ forall c, c < 9 -> cellAt grid r c <> Null)
      found
      (fun e => e = TypeError /\ size cfg < 9 /\ windowFull cfg grid)
      xs body s) as Hloop
  end.
  match type of Hloop with ?P -> _ => assert P as Hinit end.
  { intros r Hr. by apply elem_of_nil in Hr. }
  specialize (Hloop Hinit).
  match type of Hloop with ?P -> _ => assert P as Hbody end.
  { clear Hloop. intros pre r post [] Hsplit Hpre.
    apply seq_prefix in Hsplit as (_ & Hpre_eq & Hr9).
    destruct (decide (r < size cfg)) as [Hr|Hr].
    - match goal with |- context [for_each ?xs ?body ?s] =>
        pose proof (for_each_prefix
          (fun prec (_ : unit) => forall c, c ∈ prec -> cellAt grid r c <> Null)
          found (fun _ => False) xs body s) as Hin
      end.
      match type of Hin with ?P -> _ => assert P as Hinit' end.
      { intros c Hc. by apply elem_of_nil in Hc. }
      specialize (Hin Hinit').
      match type of Hin with ?P -> _ => assert P as Hbody' end.
      { intros prec c postc [] Hsplitc Hprec.
        apply seq_prefix in Hsplitc as (_ & _ & Hc9).
        rewrite get_cell_cellAt by lia. simpl.
        destruct (strict_eq (cellAt grid r c) Null) eqn:Hnull; simpl.
        - apply strict_eq_true in Hnull. split; [|done].
          destruct (cellAt_Null_in_row cfg grid r c Hwf Hnull).
          unfold inWindow. lia.
        - apply strict_eq_false in Hnull.
          intros c' [Hc'|Hc'%list_elem_of_singleton]%elem_of_app;
            [by apply Hprec|by subst c']. }
      specialize (Hin Hbody'). cbv beta in *.
      destruct (for_each _ _ _) as [[]|best|e]; simpl in *; [|done|done].
      intros r' [Hr'|Hr'%list_elem_of_singleton]%elem_of_app; [by apply Hpre|].
      subst r'. split; [done|]. intros c Hc.
      apply Hin, (proj2 (elem_of_seq 0 9 c)). lia.
    - simpl. unfold get_cell.
      rewrite (proj2 (lookup_ge_None grid r)) by lia. simpl.
      split; [done|]. split; [lia|].
      intros r' c' (Hr' & Hc' & Hrn & Hcn).
      apply (Hpre r'); [|done]. rewrite Hpre_eq. apply elem_of_seq. lia. }
  specialize (Hloop Hbody).
  destruct (for_each _ _ _) as [[]|best|e]; simpl in *.
  - assert (8 < size cfg) by (apply Hloop, (proj2 (elem_of_seq 0 9 8)); lia).
    split; [lia|]. intros r c (Hr & Hc & _).
    apply (Hloop r); [apply (proj2 (elem_of_seq 0 9 r)); lia|done].
  - by destruct best as [[r c]|].
  - done.
Qed.

(** What an answer of [fillGridRandomly] means on a square grid.  With
    fuel for every empty cell the fuel does not run out. *)
Lemma fillGridRandomly_outcome rand cfg :
  wf_config cfg ->
  forall fuel (grid : SudokuGrid) k,
    wf_grid cfg grid -> countEmpty grid < fuel ->
    match fillGridRandomly rand fuel grid cfg k with
    | Ok (true, grid', _) =>
        9 <= size cfg /\ wf_grid cfg grid' /\ extends grid grid' /\
        windowFull cfg grid' /\
        (forall r c, cellAt grid r c = Null ->
           cellAt grid' r c = Null \/
           exists n, cellAt grid' r c = Num n /\
                     (1 <= n <= Z.of_nat (maxNumber cfg))%Z) /\
        (conflictFree cfg grid -> conflictFree cfg grid')
    | Ok (false, grid', _) =>
        grid' = grid /\ ~ exists full, fillsWindow cfg full /\ extends grid full
    | Err e => e = TypeError /\ size cfg < 9
    end.
Proof.
  intros Hcfg. induction fuel as [|fuel IH]; intros grid k Hwf Hfuel; [lia|].
  rewrite fillGridRandomly_unfold.
  pose proof (proj1 Hwf) as Hlen.
  pose proof (findFirstEmptyCell_cases cfg grid Hwf) as Hfirst.
  destruct (findFirstEmptyCell grid) as [[[row col]|]|e]; simpl.
  3:{ by destruct Hfirst as (-> & Hsmall & _). }
  2:{ destruct Hfirst as [Hbig Hfull].
      split; [done|]. split; [done|]. split; [apply extends_refl|].
      split; [done|]. split; [by left|done]. }
  destruct Hfirst as [Hwin Hnull].
  assert (row < size cfg /\ col < size cfg) as [Hrow Hcol]
    by (unfold inWindow in Hwin; lia).
  destruct (shuffleArray_perm rand (map Z.of_nat (seq 1 (maxNumber cfg))) k)
    as [Hperm _].
  destruct (shuffleArray rand _ k) as [numbers k1]. simpl in Hperm.
  assert (forall x, x ∈ numbers <-> (1 <= x <= Z.of_nat (maxNumber cfg))%Z)
    as Hnumbers.
  { intros x. rewrite Hperm, list_elem_of_In, in_map_iff. split.
    - intros (n & <- & Hn%in_seq). lia.
    - intros Hx. exists (Z.to_nat x). split; [lia|]. apply in_seq. lia. }
  destruct (set_cell_in_range cfg grid row col Null Hwf Hrow Hcol)
    as (cells & Hcells & Hcl & _).
  assert (index cells col = Null) as Hidx
    by (unfold cellAt in Hnull; by rewrite Hcells in Hnull).
  assert (cells !! col = Some Null) as Hlk.
  { destruct (lookup_lt_is_Some_2 cells col) as [w Hw]; [lia|].
    unfold index in Hidx. rewrite Hw in Hidx. simpl in Hidx. by subst w. }
  match goal with |- context [for_each ?xs ?body ?s] =>
    pose proof (for_each_prefix
      (fun pre st => fst st = grid /\
         forall x, x ∈ pre ->
           ~ exists full, fillsWindow cfg full /\ extends grid full /\
                          cellAt full row col = Num x)
      (fun r => fst (fst r) = true /\
         9 <= size cfg /\ wf_grid cfg (snd (fst r)) /\
         extends grid (snd (fst r)) /\ windowFull cfg (snd (fst r)) /\
         (forall r' c', cellAt grid r' c' = Null ->
            cellAt (snd (fst r)) r' c' = Null \/
            exists n, cellAt (snd (fst r)) r' c' = Num n /\
                      (1 <= n <= Z.of_nat (maxNumber cfg))%Z) /\
         (conflictFree cfg grid -> conflictFree cfg (snd (fst r))))
      (fun e => e = TypeError /\ size cfg < 9) xs body s) as Hloop
  end.
  match type of Hloop with ?P -> _ => assert P as Hinit end.
  { split; [done|]. intros x Hx. by apply elem_of_nil in Hx. }
  specialize (Hloop Hinit).
  match type of Hloop with ?P -> _ => assert P as Hbody end.
  { clear Hloop. intros pre x post [g0 k0] Hsplit [Hg Hpre]. simpl in Hg. subst g0.
    assert ((1 <= x <= Z.of_nat (maxNumber cfg))%Z) as Hx
      by (apply Hnumbers; rewrite Hsplit; apply elem_of_app; right; by left).
    rewrite isValidMove_noHit by done. simpl.
    destruct (noHit grid row col (Num x) cfg) eqn:Hhit; simpl.
    2:{ split; [done|].
        intros y [Hy|Hy%list_elem_of_singleton]%elem_of_app; [by apply Hpre|].
        subst y. intros (full & (Hwff & Hfreef & _) & Hext & Hfx).
        apply (noHit_false cfg grid row col (Num x) Hcfg Hrow Hcol) in Hhit
          as (r & c & Hp & Hcell).
        assert (cellAt full r c = Num x) as Hfull
          by (rewrite Hext; [done|by rewrite Hcell]).
        assert (conflictAt full cfg row col = true) as Hconf.
        { apply conflictAt_true; [done|done|done|done|].
          exists x. split; [done|]. by exists r, c. }
        by rewrite Hfreef in Hconf. }
    rewrite (set_cell_at grid cells) by (done || lia). simpl.
    assert (wf_grid cfg (<[row := <[col := Num x]> cells]> grid)) as Hwf1
      by (by apply wf_grid_insert).
    assert (countEmpty (<[row := <[col := Num x]> cells]> grid) < fuel) as Hfuel1.
    { assert (Num x <> Null) as Hnum by done.
      pose proof (countEmpty_insert grid cells row col (Num x) Hcells Hlk Hnum).
      lia. }
    pose proof (IH (<[row := <[col := Num x]> cells]> grid) k0 Hwf1 Hfuel1) as Hrec.
    destruct (fillGridRandomly rand fuel _ cfg k0) as [[[b2 g2] k2]|e]; simpl;
      [|done].
    destruct b2; simpl.
    - destruct Hrec as (Hbig & Hwf2 & Hext2 & Hfull2 & Hnew2 & Hfree2).
      split; [done|]. split; [done|]. split; [done|]. split; [|split; [done|split]].
      + intros r c Hfilled.
        assert ((r, c) <> (row, col)) as Hne by (intros [= -> ->]; done).
        rewrite Hext2; rewrite cellAt_insert_other by done; done.
      + intros r c Hempty.
        destruct (decide ((r, c) = (row, col))) as [[= -> ->]|Hne].
        * right. exists x. split; [|done].
          rewrite Hext2; rewrite cellAt_insert_same by (done || lia); done.
        * apply Hnew2. by rewrite cellAt_insert_other.
      + intros Hfree. apply Hfree2. by apply conflictFree_place.
    - destruct Hrec as [-> Hnone]. rewrite <- Hidx.
      rewrite set_cell_restore by (done || lia). simpl. split; [done|].
      intros y [Hy|Hy%list_elem_of_singleton]%elem_of_app; [by apply Hpre|].
      subst y. intros (full & Hfills & Hext & Hfx).
      apply Hnone. exists full. split; [done|]. by apply extends_place. }
  specialize (Hloop Hbody).
  destruct (for_each _ _ _) as [[g0 k0]|[[b2 g2] k2]|e]; simpl in *; [| |done].
  - destruct Hloop as [-> Hnone]. split; [done|].
    intros (full & Hfills & Hext).
    destruct Hfills as (Hwff & Hfreef & Hvals).
    destruct (Hvals row col Hwin) as (n & Hn & Hrange).
    apply (Hnone n); [by apply Hnumbers|].
    exists full. done.
  - destruct Hloop as (-> & Hprops). done.
Qed.

Lemma cellAt_empty n r c :
  cellAt (replicate n (replicate n Null)) r c =
  if (r <? n) && (c <? n) then Null else Undefined.
Proof.
  unfold cellAt, index.
  destruct (Nat.ltb_spec r n) as [Hr|Hr]; simpl.
  - rewrite lookup_replicate_2 by done.
    destruct (Nat.ltb_spec c n) as [Hc|Hc].
    + by rewrite lookup_replicate_2.
    + rewrite (proj2 (lookup_ge_None _ c)); [done|]. by rewrite length_replicate.
  - rewrite (proj2 (lookup_ge_None _ r)); [done|]. by rewrite length_replicate.
Qed.

Lemma wf_grid_empty cfg :
  wf_grid cfg (replicate (size cfg) (replicate (size cfg) Null)).
Proof.
  split; [apply length_replicate|].
  apply Forall_replicate. split; [apply length_replicate|].
  by apply Forall_replicate.
Qed.

Lemma conflictFree_empty cfg :
  conflictFree cfg (replicate (size cfg) (replicate (size cfg) Null)).
Proof.
  intros r c Hr Hc. unfold conflictAt. rewrite cellAt_empty.
  destruct (Nat.ltb_spec r (size cfg)); [|lia].
  destruct (Nat.ltb_spec c (size cfg)); [|lia]. done.
Qed.

Lemma cellAt_outside cfg (grid : SudokuGrid) r c :
  wf_grid cfg grid -> ~ (r < size cfg /\ c < size cfg) ->
  cellAt grid r c = Undefined.
Proof.
  intros [Hlen Hrows] Hout. unfold cellAt, index.
  destruct (grid !! r) as [cells|] eqn:Hr; [|done].
  pose proof (proj1 (Forall_lookup _ _) Hrows r cells Hr) as [Hl _].
  apply lookup_lt_Some in Hr.
  rewrite (proj2 (lookup_ge_None cells c)); [done|lia].
Qed.

Lemma extends_empty cfg (full : SudokuGrid) :
  wf_grid cfg full ->
  extends (replicate (size cfg) (replicate (size cfg) Null)) full.
Proof.
  intros Hwf r c. rewrite cellAt_empty.
  destruct (Nat.ltb_spec r (size cfg)); simpl;
    [destruct (Nat.ltb_spec c (size cfg)); [done|]|];
    intros _; apply (cellAt_outside cfg); (done || lia).
Qed.

Lemma countEmpty_empty n :
  countEmpty (replicate n (replicate n Null)) = n * n.
Proof.
  unfold countEmpty.
  assert (forall k, length (filter (fun v => v = Null) (replicate k Null)) = k)
    as Hrow.
  { induction k as [|k IHk]; [done|].
    change (replicate (S k) Null) with (Null :: replicate k Null).
    rewrite filter_cons. destruct (decide (Null = Null)); [|done].
    simpl. by rewrite IHk. }
  assert (forall m, length (filter (fun v => v = Null)
                              (concat (replicate m (replicate n Null)))) = m * n)
    as Hrows.
  { induction m as [|m IH]; [done|].
    change (replicate (S m) (replicate n Null))
      with (replicate n Null :: replicate m (replicate n Null)).
    rewrite concat_cons, filter_app, length_app, IH, Hrow. done. }
  apply Hrows.
Qed.

(** The fixed solutions fill the window of their grid, and so does
    [window16]. *)
Lemma fillsWindow_check cfg (full : SudokuGrid) :
  wf_gridb cfg full = true -> conflictsOf full cfg = [] ->
  allCells (size cfg) (fun r c =>
    negb ((r <? 9) && (c <? 9)) ||
    match cellAt full r c with
    | Num n => (1 <=? n)%Z && (n <=? Z.of_nat (maxNumber cfg))%Z
    | _ => false
    end) = true ->
  fillsWindow cfg full.
Proof.
  intros Hwf Hnil Hall. split; [by apply wf_gridb_true|].
  split; [by apply conflictsOf_nil|].
  intros r c (Hr9 & Hc9 & Hr & Hc).
  pose proof (allCells_true _ _ Hall r c Hr Hc) as Hcell. simpl in Hcell.
  destruct (Nat.ltb_spec r 9); [|lia]. destruct (Nat.ltb_spec c 9); [|lia].
  simpl in Hcell. destruct (cellAt full r c) as [| |n]; [done|done|].
  exists n. split; [done|]. lia.
Qed.

Lemma generateComplete_unfold rand fuel cfg k :
  generateComplete rand fuel cfg k =
  match fillGridRandomly rand fuel
          (replicate (size cfg) (replicate (size cfg) Null)) cfg k with
  | Ok (_, grid, k') => Ok (grid, k')
  | Err e => Err e
  end.
Proof.
  unfold generateComplete.
  by destruct (fillGridRandomly _ _ _ _ _) as [[[b g] k']|e].
Qed.

(** X11. On the 4 by 4 and on the 6 by 6 configuration
    [generateComplete] throws a TypeError for every random source: the
    search cannot give up, because a complete grid exists, and once the
    rows are full [findFirstEmptyCell] reads past the last row. *)
Theorem generateComplete_small_throws rand fuel difficulty k :
  difficulty = easy \/ difficulty = medium ->
  size (getGridConfig difficulty) * size (getGridConfig difficulty) < fuel ->
  generateComplete rand fuel (getGridConfig difficulty) k = Err TypeError.
Proof.
  intros Hd Hfuel. set (cfg := getGridConfig difficulty) in *.
  rewrite generateComplete_unfold.
  pose proof (fillGridRandomly_outcome rand cfg (wf_config_getGridConfig _) fuel
                _ k (wf_grid_empty cfg)) as Hout.
  rewrite countEmpty_empty in Hout. specialize (Hout Hfuel).
  destruct (fillGridRandomly _ _ _ _ _) as [[[b g] k']|e].
  - destruct b.
    + destruct Hout as (Hbig & _). destruct Hd as [-> | ->]; simpl in Hbig; lia.
    + destruct Hout as [_ Hnone]. destruct Hnone.
      exists (SudokuGenerator.gen_solution (SudokuGenerator.generatePuzzle difficulty)).
      assert (fillsWindow cfg
                (SudokuGenerator.gen_solution
                   (SudokuGenerator.generatePuzzle difficulty))) as Hfills
        by (destruct Hd as [-> | ->]; apply fillsWindow_check; by vm_compute).
      split; [done|]. apply extends_empty. apply Hfills.
  - by destruct Hout as [-> _].
Qed.

Lemma generateComplete_small_throws_witness :
  generateComplete (fun k => k) 17 (getGridConfig easy) 0 = Err TypeError.
Proof.
  apply (generateComplete_small_throws (fun k => k) 17 easy 0).
  - by left.
  - simpl; lia.
Defined.

(** X12. On the 16 by 16 configuration [generateComplete] returns for
    every random source, with fuel for every cell: the cells of the top
    left 9 by 9 window hold values in [1..16], every other cell is still
    empty, and [validateGrid] reports no conflict. *)
Theorem generateComplete_hard_fills_window rand fuel k :
  256 < fuel ->
  exists grid k',
    generateComplete rand fuel (getGridConfig hard) k = Ok (grid, k') /\
    (forall r c, r < 16 -> c < 16 ->
       if (r <? 9) && (c <? 9)
       then exists n, get_cell grid r c = Ok (Num n) /\ (1 <= n <= 16)%Z
       else get_cell grid r c = Ok Null) /\
    (exists result,
       validateGrid grid (getGridConfig hard) = Ok (result, grid) /\
       conflicts result = []).
Proof.
  intros Hfuel. set (cfg := getGridConfig hard).
  rewrite generateComplete_unfold. fold cfg.
  pose proof (fillGridRandomly_outcome rand cfg (wf_config_getGridConfig _) fuel
                _ k (wf_grid_empty cfg)) as Hout.
  rewrite countEmpty_empty in Hout. specialize (Hout Hfuel).
  destruct (fillGridRandomly _ _ _ _ _) as [[[b g] k']|e] eqn:Hfill.
  2:{ destruct Hout as [_ Hsmall]. simpl in Hsmall. lia. }
  destruct b.
  2:{ destruct Hout as [_ Hnone]. destruct Hnone. exists window16.
      assert (fillsWindow cfg window16) as Hfills
        by (apply fillsWindow_check; by vm_compute).
      split; [done|]. apply extends_empty. apply Hfills. }
  destruct Hout as (_ & Hwf & _ & Hfull & Hnew & Hfree).
  apply fillGridRandomly_window in Hfill as [_ Hout].
  pose proof (proj1 Hwf) as Hlen.
  exists g, k'. split; [done|]. split.
  - intros r c Hr Hc. rewrite get_cell_cellAt by (simpl in Hlen; lia).
    destruct (Nat.ltb_spec r 9) as [Hr9|Hr9]; simpl;
      [destruct (Nat.ltb_spec c 9) as [Hc9|Hc9]|].
    + destruct (Hnew r c) as [Hnull|(n & Hn & Hrange)].
      * rewrite cellAt_empty. simpl.
        destruct (Nat.ltb_spec r 16); [|lia]. by destruct (Nat.ltb_spec c 16); [|lia].
      * destruct (Hfull r c); [by repeat split|done].
      * exists n. split; [by rewrite Hn|]. simpl in Hrange. lia.
    + rewrite Hout by lia. rewrite cellAt_empty. simpl.
      destruct (Nat.ltb_spec r 16); [|lia]. by destruct (Nat.ltb_spec c 16); [|lia].
    + rewrite Hout by lia. rewrite cellAt_empty. simpl.
      destruct (Nat.ltb_spec r 16); [|lia]. by destruct (Nat.ltb_spec c 16); [|lia].
  - rewrite validateGrid_conflictsOf by (done || apply wf_config_getGridConfig).
    eexists. split; [done|]. simpl. apply conflictsOf_nil, Hfree, conflictFree_empty.
Qed.

Lemma generateComplete_hard_fills_window_witness :
  exists grid k',
    generateComplete (fun k => k) 257 (getGridConfig hard) 0 = Ok (grid, k') /\
    (forall r c, r < 16 -> c < 16 ->
       if (r <? 9) && (c <? 9)
       then exists n, get_cell grid r c = Ok (Num n) /\ (1 <= n <= 16)%Z
       else get_cell grid r c = Ok Null) /\
    (exists result,
       validateGrid grid (getGridConfig hard) = Ok (result, grid) /\
       conflicts result = []).
Proof.
  apply (generateComplete_hard_fills_window (fun k => k) 257 0). lia.
Defined.

(** ** The game state *)

Lemma copyGrid_id (grid : SudokuGrid) : SudokuGenerator.copyGrid grid = grid.
Proof.
  unfold SudokuGenerator.copyGrid. induction grid as [|cells grid IH]; [done|].
  simpl. by rewrite app_nil_r, IH.
Qed.

Lemma imap_set_cell (cells : list value) col v :
  imap (fun colIndex cell => if colIndex =? col then v else cell) cells =
  <[col := v]> cells.
Proof.
  apply list_eq. intros i. rewrite list_lookup_imap.
  destruct (decide (i = col)) as [->|Hne].
  - destruct (cells !! col) as [w|] eqn:E; simpl.
    + rewrite Nat.eqb_refl. symmetry. apply list_lookup_insert_eq.
      by eapply lookup_lt_Some.
    + symmetry. apply lookup_ge_None. rewrite length_insert.
      by apply lookup_ge_None.
  - rewrite list_lookup_insert_ne by done.
    destruct (cells !! i); simpl; [|done].
    by destruct (Nat.eqb_spec i col).
Qed.

(** The copy with one cell replaced is the grid with that cell written. *)
Lemma withCell_insert (grid : SudokuGrid) cells row col v :
  grid !! row = Some cells ->
  SudokuContext.withCell grid row col v = <[row := <[col := v]> cells]> grid.
Proof.
  intros Hrow. unfold SudokuContext.withCell.
  apply list_eq. intros i. rewrite list_lookup_imap.
  destruct (decide (i = row)) as [->|Hne].
  - rewrite Hrow. simpl. rewrite Nat.eqb_refl, imap_set_cell.
    symmetry. apply list_lookup_insert_eq. by eapply lookup_lt_Some.
  - rewrite list_lookup_insert_ne by done.
    destruct (grid !! i); simpl; [|done].
    destruct (Nat.eqb_spec i row); [done|]. by rewrite app_nil_r.
Qed.

Lemma pretty_N_go_noDash (x : N) (s : string) :
  noDash s = true -> noDash (pretty_N_go x s) = true.
Proof.
  revert s. induction (N.lt_wf_0 x) as [x _ IH]; intros s Hs.
  destruct (decide (x = 0)%N) as [->|Hx]; [by rewrite pretty_N_go_0|].
  rewrite pretty_N_go_step by lia. apply IH.
  - apply N.div_lt; lia.
  - simpl. rewrite Hs, andb_true_r.
    unfold pretty_N_char. by repeat case_match.
Qed.

Lemma pretty_nat_noDash (n : nat) : noDash (pretty n) = true.
Proof.
  unfold pretty, pretty_nat, pretty, pretty_N.
  destruct (decide (N.of_nat n = 0)%N); [done|].
  by apply pretty_N_go_noDash.
Qed.

Lemma append_dash_inj (s1 s2 t1 t2 : string) :
  noDash s1 = true -> noDash s2 = true ->
  s1 +:+ "-" +:+ t1 = s2 +:+ "-" +:+ t2 -> s1 = s2 /\ t1 = t2.
Proof.
  revert s2. induction s1 as [|a s1 IH]; intros [|b s2] H1 H2 Heq; simpl in *.
  - by injection Heq.
  - injection Heq as <- _. by rewrite Ascii.eqb_refl in H2.
  - injection Heq as -> _. by rewrite Ascii.eqb_refl in H1.
  - injection Heq as <- Heq.
    apply andb_true_iff in H1 as [_ H1]. apply andb_true_iff in H2 as [_ H2].
    destruct (IH s2 H1 H2 Heq) as [-> ->]. done.
Qed.

Lemma errorKey_inj r c r' c' :
  SudokuContext.errorKey r c = SudokuContext.errorKey r' c' -> r = r' /\ c = c'.
Proof.
  unfold SudokuContext.errorKey. intros Heq.
  apply append_dash_inj in Heq as [Hr Hc]; try apply pretty_nat_noDash.
  split; by apply (inj pretty).
Qed.

Lemma elem_of_errorSet (conflicts : list CellPosition) r c :
  SudokuContext.errorKey r c ∈ SudokuContext.errorSet conflicts <->
  {| row := r; col := c |} ∈ conflicts.
Proof.
  unfold SudokuContext.errorSet. rewrite elem_of_list_to_set, list_elem_of_fmap.
  split.
  - intros ([r' c'] & Hkey & Hin). simpl in Hkey.
    by apply errorKey_inj in Hkey as [-> ->].
  - intros Hin. by exists {| row := r; col := c |}.
Qed.

Lemma extends_check cfg (grid full : SudokuGrid) :
  wf_grid cfg grid -> wf_grid cfg full ->
  allCells (size cfg) (fun r c =>
    strict_eq (cellAt grid r c) Null ||
    strict_eq (cellAt grid r c) (cellAt full r c)) = true ->
  extends grid full.
Proof.
  intros Hwf Hwf' Hall r c Hfilled.
  destruct (decide (r < size cfg /\ c < size cfg)) as [[Hr Hc]|Hout].
  - pose proof (allCells_true _ _ Hall r c Hr Hc) as Hcell. simpl in Hcell.
    apply orb_true_iff in Hcell as [Hn%strict_eq_true|Heq%strict_eq_true];
      [done|by symmetry].
  - by rewrite (cellAt_outside cfg grid), (cellAt_outside cfg full).
Qed.

(** What is used of the puzzles the generator returns. *)
Lemma generated_facts difficulty :
  let generated := SudokuGenerator.generatePuzzle difficulty in
  let cfg := SudokuGenerator.gen_gridConfig generated in
  let puzzle := SudokuGenerator.gen_puzzle generated in
  let solution := SudokuGenerator.gen_solution generated in
  wf_config cfg /\ wf_grid cfg puzzle /\ wf_grid cfg solution /\
  conflictsOf puzzle cfg = [] /\ conflictsOf solution cfg = [] /\
  isComplete puzzle cfg = Ok (false, puzzle) /\
  isComplete solution cfg = Ok (true, solution) /\
  extends puzzle solution.
Proof.
  intros generated cfg puzzle solution.
  assert (wf_grid cfg puzzle) as Hwfp
    by (apply wf_gridb_true; destruct difficulty; by vm_compute).
  assert (wf_grid cfg solution) as Hwfs
    by (apply wf_gridb_true; destruct difficulty; by vm_compute).
  split; [apply wf_config_getGridConfig|].
  split; [done|]. split; [done|].
  split; [destruct difficulty; by vm_compute|].
  split; [destruct difficulty; by vm_compute|].
  split; [destruct difficulty; by vm_compute|].
  split; [destruct difficulty; by vm_compute|].
  apply (extends_check cfg); [done|done|]. destruct difficulty; by vm_compute.
Qed.

Lemma makeMove_outside prev now row col v :
  length (SudokuContext.initialGrid prev) <= row ->
  SudokuContext.makeMove now row col v prev = Err TypeError.
Proof.
  intros Hrow. unfold SudokuContext.makeMove, get_cell.
  by rewrite (proj2 (lookup_ge_None _ row)).
Qed.

Lemma makeMove_given prev now row col v :
  row < length (SudokuContext.initialGrid prev) ->
  cellAt (SudokuContext.initialGrid prev) row col <> Null ->
  SudokuContext.makeMove now row col v prev = Ok prev.
Proof.
  intros Hrow Hgiven. unfold SudokuContext.makeMove.
  rewrite get_cell_cellAt by done. simpl.
  apply strict_eq_false in Hgiven. by rewrite Hgiven.
Qed.

Lemma makeMove_writes prev now row col v cells :
  let cfg := SudokuContext.gridConfig prev in
  wf_config cfg -> wf_grid cfg (SudokuContext.grid prev) ->
  row < length (SudokuContext.initialGrid prev) ->
  cellAt (SudokuContext.initialGrid prev) row col = Null ->
  SudokuContext.grid prev !! row = Some cells -> v <> Undefined ->
  exists complete,
    isComplete (<[row := <[col := v]> cells]> (SudokuContext.grid prev)) cfg =
      Ok (complete, <[row := <[col := v]> cells]> (SudokuContext.grid prev)) /\
    SudokuContext.makeMove now row col v prev =
      Ok (written now prev (SudokuContext.selectedCell prev)
            (<[row := <[col := v]> cells]> (SudokuContext.grid prev)) complete).
Proof.
  intros cfg Hcfg Hwf Hrow Hnull Hcells Hv.
  assert (wf_grid cfg (<[row := <[col := v]> cells]> (SudokuContext.grid prev)))
    as Hwf1 by (by apply wf_grid_insert).
  eexists. split; [by apply isComplete_noNull_conflictsOf|].
  unfold SudokuContext.makeMove.
  rewrite get_cell_cellAt by done. simpl. rewrite Hnull. simpl.
  rewrite (withCell_insert _ cells) by done.
  fold cfg. rewrite validateGrid_conflictsOf by done. simpl.
  rewrite isComplete_noNull_conflictsOf by done. done.
Qed.

Lemma wf_cell_defined cfg (grid : SudokuGrid) r c :
  wf_grid cfg grid -> r < size cfg -> c < size cfg ->
  cellAt grid r c <> Undefined.
Proof.
  intros Hwf Hr Hc.
  destruct (wf_grid_cell cfg grid r c Hwf Hr Hc) as [->|[n ->]]; done.
Qed.

(** What the solver's [getHint] returns, by cases. *)
Lemma solver_getHint_cases cfg (grid solution : SudokuGrid) :
  wf_config cfg -> wf_grid cfg grid ->
  match getHint grid solution cfg with
  | Ok None =>
      forall r c, r < size cfg -> c < size cfg -> cellAt grid r c <> Null
  | Ok (Some pos) =>
      row pos < size cfg /\ col pos < size cfg /\
      cellAt grid (row pos) (col pos) = Null
  | Err _ => False
  end.
Proof.
  intros Hcfg Hwf. pose proof (proj1 Hwf) as Hlen.
  destruct (getHint_sorted cfg grid solution Hcfg Hlen) as (l & Hperm & _ & ->).
  destruct l as [|pos l]; simpl.
  - intros r c Hr Hc Hnull.
    assert ({| row := r; col := c |} ∈ emptyCellsOf grid cfg) as Hin
      by (by apply elem_of_emptyCellsOf).
    rewrite <- Hperm in Hin. by apply elem_of_nil in Hin.
  - apply elem_of_emptyCellsOf. rewrite <- Hperm. by left.
Qed.

Lemma ctx_getHint_none prev now :
  getHint (SudokuContext.grid prev) (SudokuContext.solution prev)
          (SudokuContext.gridConfig prev) = Ok None ->
  SudokuContext.getHint now prev = Ok prev.
Proof. intros Hhint. unfold SudokuContext.getHint. by rewrite Hhint. Qed.

Lemma ctx_getHint_some prev now pos cells :
  let cfg := SudokuContext.gridConfig prev in
  wf_config cfg -> wf_grid cfg (SudokuContext.grid prev) ->
  wf_grid cfg (SudokuContext.solution prev) ->
  getHint (SudokuContext.grid prev) (SudokuContext.solution prev) cfg
    = Ok (Some pos) ->
  row pos < size cfg ->
  SudokuContext.grid prev !! row pos = Some cells ->
  let v := cellAt (SudokuContext.solution prev) (row pos) (col pos) in
  let grid1 := <[row pos := <[col pos := v]> cells]> (SudokuContext.grid prev) in
  v <> Undefined ->
  exists complete,
    isComplete grid1 cfg = Ok (complete, grid1) /\
    SudokuContext.getHint now prev =
      Ok (written now prev (Some pos) grid1 complete).
Proof.
  intros cfg Hcfg Hwf Hwfs Hhint Hrow Hcells v grid1 Hv.
  assert (wf_grid cfg grid1) as Hwf1 by (by apply wf_grid_insert).
  eexists. split; [by apply isComplete_noNull_conflictsOf|].
  unfold SudokuContext.getHint. fold cfg. rewrite Hhint. simpl.
  rewrite get_cell_cellAt by (rewrite (proj1 Hwfs); done). simpl.
  rewrite (withCell_insert _ cells) by done.
  fold v grid1. rewrite validateGrid_conflictsOf by done. simpl.
  rewrite isComplete_noNull_conflictsOf by done. done.
Qed.

#[local] Opaque SudokuGenerator.generatePuzzle.

Lemma inPlay_facts st :
  inPlay st ->
  let cfg := SudokuContext.gridConfig st in
  wf_config cfg /\ wf_grid cfg (SudokuContext.initialGrid st) /\
  wf_grid cfg (SudokuContext.solution st) /\
  conflictsOf (SudokuContext.initialGrid st) cfg = [] /\
  conflictsOf (SudokuContext.solution st) cfg = [] /\
  isComplete (SudokuContext.initialGrid st) cfg
    = Ok (false, SudokuContext.initialGrid st) /\
  isComplete (SudokuContext.solution st) cfg
    = Ok (true, SudokuContext.solution st) /\
  extends (SudokuContext.initialGrid st) (SudokuContext.solution st).
Proof.
  intros (Hcfg & Hinit & Hsol & _). cbv zeta.
  rewrite Hcfg, Hinit, Hsol. apply generated_facts.
Qed.

Lemma inPlay_newGame now difficulty :
  inPlay (SudokuContext.newGame now difficulty).
Proof.
  destruct (generated_facts difficulty)
    as (Hcfg & Hwfp & Hwfs & Hcp & Hcs & Hip & His & Hext).
  unfold inPlay, SudokuContext.newGame. simpl. rewrite copyGrid_id.
  split; [done|]. split; [done|]. split; [done|]. split; [done|].
  split; [apply extends_refl|]. split; [done|]. by rewrite Hcp.
Qed.

Lemma inPlay_written prev now selected cells row col v complete :
  let cfg := SudokuContext.gridConfig prev in
  let grid1 := <[row := <[col := v]> cells]> (SudokuContext.grid prev) in
  inPlay prev -> SudokuContext.grid prev !! row = Some cells ->
  v <> Undefined -> cellAt (SudokuContext.initialGrid prev) row col = Null ->
  isComplete grid1 cfg = Ok (complete, grid1) ->
  inPlay (written now prev selected grid1 complete).
Proof.
  intros cfg grid1 Hinv Hcells Hv Hnull Hflag.
  destruct Hinv as (Hcfg & Hinit & Hsol & Hwf & Hext & _ & _).
  unfold inPlay, written. simpl.
  split; [done|]. split; [done|]. split; [done|].
  split; [by apply wf_grid_insert|]. split; [|done].
  intros r c Hgiven.
  assert ((r, c) <> (row, col)) as Hne by (intros [= -> ->]; done).
  unfold grid1. rewrite cellAt_insert_other by done. by apply Hext.
Qed.

(** Every update keeps [inPlay]. *)
Lemma inPlay_step now a prev st' :
  inPlay prev -> SudokuContext.step now a prev = Ok st' -> inPlay st'.
Proof.
  intros Hinv Hstep.
  pose proof (inPlay_facts prev Hinv)
    as (Hcfg & Hwfi & Hwfs & Hci & Hcs & Hii & His & Hexts).
  pose proof Hinv as (Hc & Hinit & Hsol & Hwf & Hext & Hflag & Herr).
  cbv zeta in *.
  destruct a as [d|row col v| | | |]; simpl in Hstep.
  - injection Hstep as <-. apply inPlay_newGame.
  - destruct (decide (row < length (SudokuContext.initialGrid prev))) as [Hrow|Hrow].
    2:{ rewrite makeMove_outside in Hstep by lia. done. }
    destruct (decide (cellAt (SudokuContext.initialGrid prev) row col = Null))
      as [Hnull|Hgiven].
    2:{ rewrite makeMove_given in Hstep by done. by injection Hstep as <-. }
    rewrite (proj1 Hwfi) in Hrow.
    destruct (wf_grid_row _ _ row Hwf Hrow) as (cells & Hcells & _).
    assert (from_option Num Null v <> Undefined) as Hv by (by destruct v).
    destruct (makeMove_writes prev now row col _ cells Hcfg Hwf
                ltac:(rewrite (proj1 Hwfi); done) Hnull Hcells Hv)
      as (complete & Hcomplete & Hmove).
    rewrite Hmove in Hstep. injection Hstep as <-.
    by apply inPlay_written.
  - injection Hstep as <-. unfold inPlay, SudokuContext.selectCell. simpl.
    done.
  - injection Hstep as <-. unfold inPlay, SudokuContext.solvePuzzle. simpl.
    rewrite copyGrid_id.
    split; [done|]. split; [done|]. split; [done|]. split; [done|].
    split; [done|]. split; [done|]. by rewrite Hcs.
  - pose proof (solver_getHint_cases _ _ (SudokuContext.solution prev) Hcfg Hwf)
      as Hcases.
    destruct (getHint _ _ _) as [[pos|]|e] eqn:Hhint; [| |done].
    + destruct Hcases as (Hr & Hc' & Hnull).
      destruct (wf_grid_row _ _ (row pos) Hwf Hr) as (cells & Hcells & _).
      pose proof (wf_cell_defined _ _ _ _ Hwfs Hr Hc') as Hv.
      destruct (ctx_getHint_some prev now pos cells Hcfg Hwf Hwfs Hhint Hr Hcells Hv)
        as (complete & Hcomplete & Hget).
      rewrite Hget in Hstep. injection Hstep as <-.
      apply inPlay_written; try done.
      destruct (decide (cellAt (SudokuContext.initialGrid prev) (row pos) (col pos)
                        = Null)) as [|Hgiven]; [done|].
      rewrite <- (Hext _ _ Hgiven) in Hgiven. done.
    + rewrite ctx_getHint_none in Hstep by done. by injection Hstep as <-.
  - injection Hstep as <-. unfold inPlay, SudokuContext.resetGame. simpl.
    rewrite copyGrid_id.
    split; [done|]. split; [done|]. split; [done|]. split; [done|].
    split; [apply extends_refl|]. split; [done|]. by rewrite Hci.
Qed.

Lemma inPlay_run events :
  forall st st', inPlay st -> SudokuContext.run events st = Ok st' -> inPlay st'.
Proof.
  induction events as [|[now a] events IH]; intros st st' Hinv Hrun; simpl in Hrun.
  - by injection Hrun as <-.
  - destruct (SudokuContext.step now a st) as [st1|e] eqn:Hstep; [|done].
    eapply IH; [|done]. by eapply inPlay_step.
Qed.

Lemma get_cell_insert_other (grid : SudokuGrid) cells row col v r c :
  grid !! row = Some cells -> (r, c) <> (row, col) ->
  get_cell (<[row := <[col := v]> cells]> grid) r c = get_cell grid r c.
Proof.
  intros Hcells Hne. unfold get_cell.
  destruct (decide (r = row)) as [->|Hr].
  - rewrite list_lookup_insert_eq by (by eapply lookup_lt_Some).
    rewrite Hcells. unfold index.
    rewrite list_lookup_insert_ne; [done|congruence].
  - by rewrite list_lookup_insert_ne.
Qed.

Lemma get_cell_insert_same cfg (grid : SudokuGrid) cells row col v :
  wf_grid cfg grid -> grid !! row = Some cells -> col < size cfg ->
  get_cell (<[row := <[col := v]> cells]> grid) row col = Ok v.
Proof.
  intros Hwf Hcells Hcol.
  assert (length cells = size cfg) as Hl.
  { destruct Hwf as [_ Hrows].
    by destruct (proj1 (Forall_lookup _ _) Hrows row cells Hcells). }
  apply lookup_lt_Some in Hcells as Hrow.
  rewrite get_cell_cellAt by (by rewrite length_insert).
  f_equal. apply cellAt_insert_same; [done|lia].
Qed.

Lemma hasError_conflicts st r c :
  SudokuContext.errors st
    = SudokuContext.errorSet (conflictsOf (SudokuContext.grid st)
                                (SudokuContext.gridConfig st)) ->
  SudokuContext.hasError st r c = true <->
  {| row := r; col := c |} ∈ conflictsOf (SudokuContext.grid st)
                              (SudokuContext.gridConfig st).
Proof.
  intros Herr. unfold SudokuContext.hasError.
  rewrite bool_decide_eq_true, Herr. apply elem_of_errorSet.
Qed.

Lemma validateGrid_lists cfg (grid : SudokuGrid) pos :
  wf_config cfg -> wf_grid cfg grid ->
  pos ∈ conflictsOf grid cfg <->
  exists result grid',
    validateGrid grid cfg = Ok (result, grid') /\ pos ∈ conflicts result.
Proof.
  intros Hcfg Hwf. rewrite validateGrid_conflictsOf by done. split.
  - intros Hin. by eexists _, _.
  - by intros (result & grid' & [= <- <-] & Hin).
Qed.

Lemma countEmpty_zero cfg (grid : SudokuGrid) :
  wf_grid cfg grid ->
  countEmpty grid = 0 <->
  forall r c, r < size cfg -> c < size cfg -> cellAt grid r c <> Null.
Proof.
  intros Hwf. unfold countEmpty. rewrite length_zero_iff_nil. split.
  - intros Hnil r c Hr Hc Hnull.
    destruct (wf_grid_row cfg grid r Hwf Hr) as (cells & Hcells & Hl & _).
    unfold cellAt, index in Hnull. rewrite Hcells in Hnull.
    destruct (cells !! c) as [v|] eqn:Hv; simpl in Hnull; [subst v|done].
    assert (Null ∈ filter (fun v => v = Null) (concat grid)) as Hin.
    { apply list_elem_of_filter. split; [done|].
      apply list_elem_of_In, in_concat. exists cells.
      split; apply list_elem_of_In; by eapply list_elem_of_lookup_2. }
    rewrite Hnil in Hin. by apply elem_of_nil in Hin.
  - intros Hfull.
    destruct (filter _ _) as [|v rest] eqn:Hf; [done|].
    assert (v ∈ filter (fun v => v = Null) (concat grid)) as Hin
      by (rewrite Hf; by left).
    apply list_elem_of_filter in Hin as [-> Hin].
    apply list_elem_of_In, in_concat in Hin as (cells & Hcells & Hin).
    apply list_elem_of_In, list_elem_of_lookup in Hcells as [r Hr].
    apply list_elem_of_In, list_elem_of_lookup in Hin as [c Hc].
    assert (cellAt grid r c = Null) as Hnull
      by (unfold cellAt, index; by rewrite Hr, Hc).
    destruct (cellAt_Null_in_row cfg grid r c Hwf Hnull) as [Hr' Hc'].
    by destruct (Hfull r c).
Qed.

Lemma grid_ext cfg (g s : SudokuGrid) :
  wf_grid cfg g -> wf_grid cfg s ->
  (forall r c, r < size cfg -> c < size cfg -> cellAt g r c = cellAt s r c) ->
  g = s.
Proof.
  intros Hg Hs Hcells. apply list_eq. intros r.
  destruct (decide (r < size cfg)) as [Hr|Hr].
  - destruct (wf_grid_row cfg g r Hg Hr) as (gr & Hgr & Hlg & _).
    destruct (wf_grid_row cfg s r Hs Hr) as (sr & Hsr & Hls & _).
    rewrite Hgr, Hsr. f_equal. apply list_eq. intros c.
    destruct (decide (c < size cfg)) as [Hc|Hc].
    + specialize (Hcells r c Hr Hc). unfold cellAt, index in Hcells.
      rewrite Hgr, Hsr in Hcells.
      destruct (lookup_lt_is_Some_2 gr c) as [x Hx]; [lia|].
      destruct (lookup_lt_is_Some_2 sr c) as [y Hy]; [lia|].
      rewrite Hx, Hy in *. simpl in Hcells. by subst.
    + rewrite (proj2 (lookup_ge_None gr c)), (proj2 (lookup_ge_None sr c)); (done || lia).
  - rewrite (proj2 (lookup_ge_None g r)), (proj2 (lookup_ge_None s r));
      [done| |]; [rewrite (proj1 Hs)|rewrite (proj1 Hg)]; lia.
Qed.

Lemma inPlay_solution_full st r c :
  inPlay st ->
  r < size (SudokuContext.gridConfig st) ->
  c < size (SudokuContext.gridConfig st) ->
  exists n, cellAt (SudokuContext.solution st) r c = Num n.
Proof.
  intros Hinv Hr Hc.
  pose proof (inPlay_facts st Hinv) as (Hcfg & _ & Hwfs & _ & _ & _ & His & _).
  cbv zeta in *.
  rewrite isComplete_noNull_conflictsOf in His by done.
  injection His as His. apply andb_true_iff in His as [Hscan _].
  apply negb_true_iff in Hscan.
  pose proof (proj1 (noNull_scan _ _) Hscan r c Hr Hc) as Hfull.
  by destruct (wf_grid_cell _ _ r c Hwfs Hr Hc) as [Hn|[n Hn]]; [|exists n].
Qed.

(** What a hint does to a state in play with an empty cell. *)
Lemma ctx_getHint_effect prev now :
  inPlay prev ->
  countEmpty (SudokuContext.grid prev) <> 0 ->
  let cfg := SudokuContext.gridConfig prev in
  exists pos cells n complete,
    row pos < size cfg /\ col pos < size cfg /\
    SudokuContext.grid prev !! row pos = Some cells /\
    cells !! col pos = Some Null /\
    cellAt (SudokuContext.solution prev) (row pos) (col pos) = Num n /\
    isComplete (<[row pos := <[col pos := Num n]> cells]> (SudokuContext.grid prev))
               cfg
      = Ok (complete,
            <[row pos := <[col pos := Num n]> cells]> (SudokuContext.grid prev)) /\
    SudokuContext.getHint now prev =
      Ok (written now prev (Some pos)
            (<[row pos := <[col pos := Num n]> cells]> (SudokuContext.grid prev))
            complete).
Proof.
  intros Hinv Hempty cfg.
  pose proof (inPlay_facts prev Hinv) as (Hcfg & _ & Hwfs & _).
  pose proof Hinv as (_ & _ & _ & Hwf & _). cbv zeta in *. fold cfg in Hcfg, Hwfs, Hwf.
  pose proof (solver_getHint_cases cfg _ (SudokuContext.solution prev) Hcfg Hwf)
    as Hcases.
  destruct (getHint _ _ _) as [[pos|]|e] eqn:Hhint; [| |done].
  2:{ destruct Hempty. by apply (countEmpty_zero cfg). }
  destruct Hcases as (Hr & Hc & Hnull).
  destruct (wf_grid_row cfg _ (row pos) Hwf Hr) as (cells & Hcells & Hl & _).
  destruct (inPlay_solution_full prev (row pos) (col pos) Hinv Hr Hc) as [n Hn].
  assert (cellAt (SudokuContext.solution prev) (row pos) (col pos) <> Undefined)
    as Hv by (by rewrite Hn).
  destruct (ctx_getHint_some prev now pos cells Hcfg Hwf Hwfs Hhint Hr Hcells Hv)
    as (complete & Hcomplete & Hget).
  rewrite Hn in Hcomplete, Hget.
  exists pos, cells, n, complete. repeat split; try done.
  unfold cellAt, index in Hnull. rewrite Hcells in Hnull.
  destruct (lookup_lt_is_Some_2 cells (col pos)) as [w Hw]; [lia|].
  rewrite Hw in Hnull. simpl in Hnull. by subst w.
Qed.

Lemma inPlay_given_not_hinted prev pos cells :
  inPlay prev -> SudokuContext.grid prev !! row pos = Some cells ->
  cells !! col pos = Some Null ->
  cellAt (SudokuContext.initialGrid prev) (row pos) (col pos) = Null.
Proof.
  intros (_ & _ & _ & _ & Hext & _) Hcells Hnull. cbv zeta in *.
  destruct (decide (cellAt (SudokuContext.initialGrid prev) (row pos) (col pos)
                    = Null)) as [|Hgiven]; [done|].
  specialize (Hext _ _ Hgiven). rewrite <- Hext in Hgiven.
  unfold cellAt, index in Hgiven. by rewrite Hcells, Hnull in Hgiven.
Qed.

(** One hint after the other fills a grid that agrees with the solution. *)
Lemma hints_fill events :
  forall st,
    inPlay st ->
    extends (SudokuContext.grid st) (SudokuContext.solution st) ->
    Forall (fun e => snd e = SudokuContext.GetHint) events ->
    length events = countEmpty (SudokuContext.grid st) ->
    exists st',
      SudokuContext.run events st = Ok st' /\
      SudokuContext.grid st' = SudokuContext.solution st /\
      SudokuContext.solution st' = SudokuContext.solution st /\
      SudokuContext.isComplete st' = true.
Proof.
  induction events as [|[now a] events IH]; intros st Hinv Hext Hall Hlen.
  - exists st. simpl. split; [done|].
    pose proof (inPlay_facts st Hinv) as (Hcfg & _ & Hwfs & _ & _ & _ & His & _).
    pose proof Hinv as (_ & _ & _ & Hwf & _ & Hflag & _). cbv zeta in *.
    assert (SudokuContext.grid st = SudokuContext.solution st) as Heq.
    { apply (grid_ext (SudokuContext.gridConfig st)); [done|done|].
      intros r c Hr Hc. symmetry. apply Hext.
      by apply (countEmpty_zero (SudokuContext.gridConfig st)). }
    split; [done|]. split; [done|].
    rewrite Heq in Hflag. rewrite His in Hflag. by injection Hflag.
  - apply Forall_cons in Hall as [Ha Hall]. simpl in Ha. subst a.
    simpl in Hlen. simpl.
    destruct (ctx_getHint_effect st now Hinv ltac:(lia))
      as (pos & cells & n & complete & Hr & Hc & Hcells & Hnull & Hn & Hcomplete
          & Hget).
    rewrite Hget.
    pose proof Hinv as (_ & _ & _ & Hwf & _). cbv zeta in *.
    destruct (IH (written now st (Some pos)
                    (<[row pos := <[col pos := Num n]> cells]>
                       (SudokuContext.grid st)) complete))
      as (st' & Hrun & Hgrid & Hsol & Hflag).
    + apply (inPlay_written st now (Some pos) cells (row pos) (col pos) (Num n));
        [done|done|done| |done].
      by apply (inPlay_given_not_hinted st pos cells).
    + simpl. by apply extends_place.
    + done.
    + simpl.
      assert (Num n <> Null) as Hne by done.
      pose proof (countEmpty_insert _ cells (row pos) (col pos) (Num n)
                    Hcells Hnull Hne).
      lia.
    + exists st'. done.
Qed.

Lemma inPlay_size st : inPlay st -> 4 <= size (SudokuContext.gridConfig st).
Proof.
  intros (-> & _). cbv zeta.
  destruct (SudokuContext.difficulty st); vm_compute; lia.
Qed.

(** In a state in play an update throws only for a move at a row outside
    the grid. *)
Lemma inPlay_step_ok now a prev :
  inPlay prev ->
  (forall row col v, a = SudokuContext.MakeMove row col v ->
     row < size (SudokuContext.gridConfig prev)) ->
  exists st', SudokuContext.step now a prev = Ok st'.
Proof.
  intros Hinv Hrows.
  pose proof (inPlay_facts prev Hinv) as (Hcfg & Hwfi & Hwfs & _).
  pose proof Hinv as (_ & _ & _ & Hwf & _). cbv zeta in *.
  destruct a as [d|row col v| | | |]; simpl; try by eexists.
  - specialize (Hrows row col v eq_refl).
    destruct (decide (cellAt (SudokuContext.initialGrid prev) row col = Null))
      as [Hnull|Hgiven].
    + destruct (wf_grid_row _ _ row Hwf Hrows) as (cells & Hcells & _).
      assert (from_option Num Null v <> Undefined) as Hv by (by destruct v).
      destruct (makeMove_writes prev now row col _ cells Hcfg Hwf
                  ltac:(rewrite (proj1 Hwfi); done) Hnull Hcells Hv)
        as (complete & _ & ->).
      by eexists.
    + rewrite makeMove_given; [by eexists|by rewrite (proj1 Hwfi)|done].
  - destruct (decide (countEmpty (SudokuContext.grid prev) = 0)) as [Hfull|Hempty].
    + pose proof (solver_getHint_cases _ _ (SudokuContext.solution prev) Hcfg Hwf)
        as Hcases.
      destruct (getHint _ _ _) as [[pos|]|e] eqn:Hhint; [| |done].
      * destruct Hcases as (Hr & Hc & Hnull).
        by destruct (proj1 (countEmpty_zero _ _ Hwf) Hfull _ _ Hr Hc).
      * rewrite ctx_getHint_none by done. by eexists.
    + destruct (ctx_getHint_effect prev now Hinv Hempty)
        as (pos & cells & n & complete & _ & _ & _ & _ & _ & _ & ->).
      by eexists.
Qed.

(** X13. In a state in play [makeMove] throws a TypeError for a row
    outside the grid; for a row of the grid it returns the state
    unchanged when the column lies outside the grid or the cell is one
    of the given cells of the puzzle. *)
Theorem makeMove_ignored_or_throws prev now row col v :
  inPlay prev ->
  let cfg := SudokuContext.gridConfig prev in
  (size cfg <= row -> SudokuContext.makeMove now row col v prev = Err TypeError) /\
  (row < size cfg ->
   size cfg <= col \/
   (exists n, get_cell (SudokuContext.initialGrid prev) row col = Ok (Num n)) ->
   SudokuContext.makeMove now row col v prev = Ok prev).
Proof.
  intros Hinv cfg.
  pose proof (inPlay_facts prev Hinv) as (Hcfg & Hwfi & _). cbv zeta in *.
  fold cfg in Hwfi. split.
  - intros Hrow. apply makeMove_outside. by rewrite (proj1 Hwfi).
  - intros Hrow Hcase. apply makeMove_given; [by rewrite (proj1 Hwfi)|].
    destruct Hcase as [Hcol|[n Hn]].
    + rewrite (cellAt_outside cfg); [done|done|lia].
    + apply get_cell_Ok in Hn as [_ ->]. done.
Qed.

(** X14. In a state in play a move to an empty, not given cell of the
    grid returns a state whose grid holds the value at that cell and is
    unchanged elsewhere; its flag is what [isComplete] returns on the new
    grid, its errors are the cells [validateGrid] lists on it, and the
    puzzle, the solution, the configuration and the selection are
    kept. *)
Theorem makeMove_writes_cell prev now row col (value : option Z) :
  inPlay prev ->
  let cfg := SudokuContext.gridConfig prev in
  row < size cfg -> col < size cfg ->
  get_cell (SudokuContext.initialGrid prev) row col = Ok Null ->
  exists st',
    SudokuContext.makeMove now row col (from_option Num Null value) prev = Ok st' /\
    get_cell (SudokuContext.grid st') row col = Ok (from_option Num Null value) /\
    (forall r c, (r, c) <> (row, col) ->
       get_cell (SudokuContext.grid st') r c
       = get_cell (SudokuContext.grid prev) r c) /\
    isComplete (SudokuContext.grid st') cfg
      = Ok (SudokuContext.isComplete st', SudokuContext.grid st') /\
    (forall r c,
       SudokuContext.hasError st' r c = true <->
       exists result grid',
         validateGrid (SudokuContext.grid st') cfg = Ok (result, grid') /\
         {| row := r; col := c |} ∈ conflicts result) /\
    SudokuContext.initialGrid st' = SudokuContext.initialGrid prev /\
    SudokuContext.solution st' = SudokuContext.solution prev /\
    SudokuContext.gridConfig st' = cfg /\
    SudokuContext.selectedCell st' = SudokuContext.selectedCell prev.
Proof.
  intros Hinv cfg Hrow Hcol Hget.
  pose proof (inPlay_facts prev Hinv) as (Hcfg & Hwfi & _).
  pose proof Hinv as (_ & _ & _ & Hwf & _). cbv zeta in *.
  fold cfg in Hcfg, Hwfi, Hwf.
  apply get_cell_Ok in Hget as [Hlen Hnull].
  destruct (wf_grid_row cfg _ row Hwf Hrow) as (cells & Hcells & _).
  assert (from_option Num Null value <> Undefined) as Hv by (by destruct value).
  destruct (makeMove_writes prev now row col _ cells Hcfg Hwf Hlen Hnull Hcells Hv)
    as (complete & Hcomplete & ->).
  eexists. split; [done|]. simpl.
  split; [by apply (get_cell_insert_same cfg)|].
  split; [intros r c Hne; by apply get_cell_insert_other|].
  split; [done|]. split; [|done].
  intros r c. rewrite hasError_conflicts by done. simpl.
  apply validateGrid_lists; [done|]. by apply wf_grid_insert.
Qed.

(** X15. Whatever the player does from a new game on, as long as no
    update throws: the puzzle, the solution and the configuration are
    those generated for the difficulty of the state, every given cell of
    the puzzle still holds its value in the grid, the completion flag is
    what [isComplete] returns on the grid, and [hasError] holds of
    exactly the cells [validateGrid] lists on the grid. *)
Theorem game_state_in_sync events now difficulty st :
  SudokuContext.run events (SudokuContext.newGame now difficulty) = Ok st ->
  let generated := SudokuGenerator.generatePuzzle (SudokuContext.difficulty st) in
  let cfg := SudokuContext.gridConfig st in
  cfg = SudokuGenerator.gen_gridConfig generated /\
  SudokuContext.initialGrid st = SudokuGenerator.gen_puzzle generated /\
  SudokuContext.solution st = SudokuGenerator.gen_solution generated /\
  wf_grid cfg (SudokuContext.grid st) /\
  (forall r c n,
     get_cell (SudokuContext.initialGrid st) r c = Ok (Num n) ->
     get_cell (SudokuContext.grid st) r c = Ok (Num n)) /\
  isComplete (SudokuContext.grid st) cfg
    = Ok (SudokuContext.isComplete st, SudokuContext.grid st) /\
  (forall r c,
     SudokuContext.hasError st r c = true <->
     exists result grid',
       validateGrid (SudokuContext.grid st) cfg = Ok (result, grid') /\
       {| row := r; col := c |} ∈ conflicts result).
Proof.
  intros Hrun generated cfg.
  pose proof (inPlay_run events _ st (inPlay_newGame now difficulty) Hrun) as Hinv.
  pose proof (inPlay_facts st Hinv) as (Hcfg & Hwfi & _).
  pose proof Hinv as (Hc & Hinit & Hsol & Hwf & Hext & Hflag & Herr).
  cbv zeta in *. fold cfg in Hcfg, Hwfi, Hwf.
  split; [done|]. split; [done|]. split; [done|]. split; [done|].
  split; [|split; [done|]].
  - intros r c n Hget. apply get_cell_Ok in Hget as [Hr Hn].
    rewrite (proj1 Hwfi) in Hr.
    rewrite get_cell_cellAt by (rewrite (proj1 Hwf); done).
    rewrite Hext by (by rewrite Hn). by rewrite Hn.
  - intros r c. rewrite hasError_conflicts by done.
    by apply validateGrid_lists.
Qed.

Lemma run_total events :
  (forall t row col v,
     (t, SudokuContext.MakeMove row col v) ∈ events -> row < 4) ->
  forall st, inPlay st -> exists st', SudokuContext.run events st = Ok st'.
Proof.
  induction events as [|[t a] events IH]; intros Hrows st Hinv; simpl;
    [by eexists|].
  destruct (inPlay_step_ok t a st Hinv) as [st1 Hstep].
  { intros row col v ->. pose proof (inPlay_size st Hinv).
    assert (row < 4) by (eapply Hrows; by left). lia. }
  rewrite Hstep. apply IH.
  - intros t' row col v Hin. eapply Hrows. by right.
  - by eapply inPlay_step.
Qed.

(** X16. A game never throws when every move names a row below 4, a row
    of every grid: from a new game on each update then returns a
    state. *)
Theorem game_never_throws events now difficulty :
  (forall t row col v,
     (t, SudokuContext.MakeMove row col v) ∈ events -> row < 4) ->
  exists st,
    SudokuContext.run events (SudokuContext.newGame now difficulty) = Ok st.
Proof.
  intros Hrows. apply run_total; [done|]. apply inPlay_newGame.
Qed.

(** X17. In a state in play [getHint] returns the state unchanged when
    the grid has no empty cell; otherwise it selects an empty cell of the
    grid, writes the value the solution holds there, leaves every other
    cell as it was, so that one empty cell less remains, and sets the
    flag to what [isComplete] returns on the new grid. *)
Theorem getHint_fills_one_cell prev now :
  inPlay prev ->
  let cfg := SudokuContext.gridConfig prev in
  (countEmpty (SudokuContext.grid prev) = 0 ->
   SudokuContext.getHint now prev = Ok prev) /\
  (countEmpty (SudokuContext.grid prev) <> 0 ->
   exists st' pos,
     SudokuContext.getHint now prev = Ok st' /\
     SudokuContext.selectedCell st' = Some pos /\
     row pos < size cfg /\ col pos < size cfg /\
     get_cell (SudokuContext.grid prev) (row pos) (col pos) = Ok Null /\
     get_cell (SudokuContext.grid st') (row pos) (col pos)
       = get_cell (SudokuContext.solution prev) (row pos) (col pos) /\
     (forall r c, (r, c) <> (row pos, col pos) ->
        get_cell (SudokuContext.grid st') r c
        = get_cell (SudokuContext.grid prev) r c) /\
     countEmpty (SudokuContext.grid st') + 1 = countEmpty (SudokuContext.grid prev) /\
     isComplete (SudokuContext.grid st') cfg
       = Ok (SudokuContext.isComplete st', SudokuContext.grid st')).
Proof.
  intros Hinv cfg.
  pose proof (inPlay_facts prev Hinv) as (Hcfg & _ & Hwfs & _).
  pose proof Hinv as (_ & _ & _ & Hwf & _). cbv zeta in *.
  fold cfg in Hcfg, Hwfs, Hwf. split.
  - intros Hfull. apply ctx_getHint_none.
    pose proof (solver_getHint_cases cfg _ (SudokuContext.solution prev) Hcfg Hwf)
      as Hcases. fold cfg.
    destruct (getHint _ _ _) as [[pos|]|e]; [|done|done].
    destruct Hcases as (Hr & Hc & Hnull).
    by destruct (proj1 (countEmpty_zero cfg _ Hwf) Hfull _ _ Hr Hc).
  - intros Hempty.
    destruct (ctx_getHint_effect prev now Hinv Hempty)
      as (pos & cells & n & complete & Hr & Hc & Hcells & Hnull & Hn & Hcomplete
          & Hget).
    eexists _, pos. split; [done|]. simpl. split; [done|].
    split; [done|]. split; [done|].
    split.
    { rewrite get_cell_cellAt by (rewrite (proj1 Hwf); done).
      unfold cellAt, index. by rewrite Hcells, Hnull. }
    split.
    { rewrite (get_cell_insert_same cfg) by done.
      rewrite get_cell_cellAt by (rewrite (proj1 Hwfs); done). by rewrite Hn. }
    split; [intros r c Hne; by apply get_cell_insert_other|].
    split; [|done].
    apply countEmpty_insert; done.
Qed.

(** X18. From a new game, asking for as many hints as the puzzle has
    empty cells, and doing nothing else, leads to the solution: the grid
    is then the solution grid and the completion flag is set. *)
Theorem hints_reach_solution events now difficulty :
  Forall (fun e => snd e = SudokuContext.GetHint) events ->
  length events
    = countEmpty (SudokuGenerator.gen_puzzle
                    (SudokuGenerator.generatePuzzle difficulty)) ->
  exists st,
    SudokuContext.run events (SudokuContext.newGame now difficulty) = Ok st /\
    SudokuContext.grid st
      = SudokuGenerator.gen_solution (SudokuGenerator.generatePuzzle difficulty) /\
    SudokuContext.isComplete st = true.
Proof.
  intros Hall Hlen.
  destruct (generated_facts difficulty) as (_ & _ & _ & _ & _ & _ & _ & Hext).
  destruct (hints_fill events (SudokuContext.newGame now difficulty))
    as (st & Hrun & Hgrid & _ & Hflag); [apply inPlay_newGame|done|done|done|].
  exists st. done.
Qed.

#[local] Transparent SudokuGenerator.generatePuzzle.

Lemma makeMove_ignored_or_throws_witness :
  let prev := SudokuContext.newGame 0 easy in
  (4 <= 4 -> SudokuContext.makeMove 1 4 0 (Num 1) prev = Err TypeError) /\
  (0 < 4 ->
   4 <= 0 \/
   (exists n, get_cell (SudokuContext.initialGrid prev) 0 0 = Ok (Num n)) ->
   SudokuContext.makeMove 1 0 0 (Num 2) prev = Ok prev).
Proof.
  intros prev. split.
  - apply (makeMove_ignored_or_throws prev 1 4 0 (Num 1)). apply inPlay_newGame.
  - apply (makeMove_ignored_or_throws prev 1 0 0 (Num 2)). apply inPlay_newGame.
Defined.

Lemma makeMove_writes_cell_witness :
  let prev := SudokuContext.newGame 0 easy in
  exists st',
    SudokuContext.makeMove 1 0 1 (from_option Num Null (Some 3%Z)) prev = Ok st' /\
    get_cell (SudokuContext.grid st') 0 1 = Ok (from_option Num Null (Some 3%Z)) /\
    (forall r c, (r, c) <> (0, 1) ->
       get_cell (SudokuContext.grid st') r c
       = get_cell (SudokuContext.grid prev) r c) /\
    isComplete (SudokuContext.grid st') (SudokuContext.gridConfig prev)
      = Ok (SudokuContext.isComplete st', SudokuContext.grid st') /\
    (forall r c,
       SudokuContext.hasError st' r c = true <->
       exists result grid',
         validateGrid (SudokuContext.grid st') (SudokuContext.gridConfig prev)
           = Ok (result, grid') /\
         {| row := r; col := c |} ∈ conflicts result) /\
    SudokuContext.initialGrid st' = SudokuContext.initialGrid prev /\
    SudokuContext.solution st' = SudokuContext.solution prev /\
    SudokuContext.gridConfig st' = SudokuContext.gridConfig prev /\
    SudokuContext.selectedCell st' = SudokuContext.selectedCell prev.
Proof.
  intros prev.
  apply (makeMove_writes_cell prev 1 0 1 (Some 3%Z)).
  - apply inPlay_newGame.
  - simpl; lia.
  - simpl; lia.
  - reflexivity.
Defined.

Lemma sampleGame_rows t row col v :
  (t, SudokuContext.MakeMove row col v) ∈ sampleGame -> row < 4.
Proof.
  unfold sampleGame. intros Hin.
  repeat (apply elem_of_cons in Hin as [Heq|Hin]; [simplify_eq; lia|]).
  by apply elem_of_nil in Hin.
Qed.

Lemma game_state_in_sync_witness :
  exists st,
    SudokuContext.run sampleGame (SudokuContext.newGame 0 easy) = Ok st /\
    let generated := SudokuGenerator.generatePuzzle (SudokuContext.difficulty st) in
    let cfg := SudokuContext.gridConfig st in
    cfg = SudokuGenerator.gen_gridConfig generated /\
    SudokuContext.initialGrid st = SudokuGenerator.gen_puzzle generated /\
    SudokuContext.solution st = SudokuGenerator.gen_solution generated /\
    wf_grid cfg (SudokuContext.grid st) /\
    (forall r c n,
       get_cell (SudokuContext.initialGrid st) r c = Ok (Num n) ->
       get_cell (SudokuContext.grid st) r c = Ok (Num n)) /\
    isComplete (SudokuContext.grid st) cfg
      = Ok (SudokuContext.isComplete st, SudokuContext.grid st) /\
    (forall r c,
       SudokuContext.hasError st r c = true <->
       exists result grid',
         validateGrid (SudokuContext.grid st) cfg = Ok (result, grid') /\
         {| row := r; col := c |} ∈ conflicts result).
Proof.
  destruct (run_total sampleGame sampleGame_rows _ (inPlay_newGame 0 easy))
    as [st Hrun].
  exists st. split; [done|].
  by apply (game_state_in_sync sampleGame 0 easy st).
Defined.

Lemma game_never_throws_witness :
  exists st,
    SudokuContext.run sampleGame (SudokuContext.newGame 0 hard) = Ok st.
Proof.
  apply (game_never_throws sampleGame 0 hard). apply sampleGame_rows.
Defined.

Lemma getHint_fills_one_cell_witness :
  let prev := SudokuContext.newGame 0 easy in
  let cfg := SudokuContext.gridConfig prev in
  (countEmpty (SudokuContext.grid prev) = 0 ->
   SudokuContext.getHint 1 prev = Ok prev) /\
  (countEmpty (SudokuContext.grid prev) <> 0 ->
   exists st' pos,
     SudokuContext.getHint 1 prev = Ok st' /\
     SudokuContext.selectedCell st' = Some pos /\
     row pos < size cfg /\ col pos < size cfg /\
     get_cell (SudokuContext.grid prev) (row pos) (col pos) = Ok Null /\
     get_cell (SudokuContext.grid st') (row pos) (col pos)
       = get_cell (SudokuContext.solution prev) (row pos) (col pos) /\
     (forall r c, (r, c) <> (row pos, col pos) ->
        get_cell (SudokuContext.grid st') r c
        = get_cell (SudokuContext.grid prev) r c) /\
     countEmpty (SudokuContext.grid st') + 1 = countEmpty (SudokuContext.grid prev) /\
     isComplete (SudokuContext.grid st') cfg
       = Ok (SudokuContext.isComplete st', SudokuContext.grid st')).
Proof.
  intros prev cfg.
  apply (getHint_fills_one_cell prev 1). apply inPlay_newGame.
Defined.

Lemma hints_reach_solution_witness :
  let events := replicate 8 (0%Z, SudokuContext.GetHint) in
  exists st,
    SudokuContext.run events (SudokuContext.newGame 0 easy) = Ok st /\
    SudokuContext.grid st = solution4 /\
    SudokuContext.isComplete st = true.
Proof.
  intros events.
  apply (hints_reach_solution events 0 easy).
  - unfold events. simpl. repeat (apply Forall_cons; split; [reflexivity|]).
    apply Forall_nil_2.
  - reflexivity.
Defined.

(** ** Fuel, and the solver on the generated puzzles *)

Lemma for_each_agree {R A S : Type} (xs : list A)
    (body1 body2 : A -> S -> comp R S) (s : S) :
  (forall x s, x ∈ xs -> (forall e, body1 x s <> Throw e) ->
     body2 x s = body1 x s) ->
  (forall e, for_each xs body1 s <> Throw e) ->
  for_each xs body2 s = for_each xs body1 s.
Proof.
  revert s. induction xs as [|x xs IH]; intros s Hagree Hok; simpl in *; [done|].
  assert (forall e, body1 x s <> Throw e) as Hx.
  { intros e He. rewrite He in Hok. by apply (Hok e). }
  rewrite (Hagree x s (list_elem_of_here _ _) Hx).
  destruct (body1 x s) as [s'|r|e]; simpl in *; [|done|done].
  apply IH; [|done]. intros y t Hy. apply Hagree. by right.
Qed.

(** A result is a result with more fuel. *)
Lemma solveRecursive_more_fuel cfg fuel :
  forall (grid : SudokuGrid) r,
    solveRecursive fuel grid cfg = Ok r ->
    solveRecursive (S fuel) grid cfg = Ok r.
Proof.
  induction fuel as [|fuel IH]; intros grid r Hrun; [done|].
  rewrite solveRecursive_unfold in *.
  destruct (findBestEmptyCell grid cfg) as [[[row col]|]|e]; simpl in *;
    [|done|done].
  destruct (getPossibleNumbers grid row col cfg) as [possible|e]; simpl in *;
    [|done].
  match goal with
  | |- context [for_each ?xs ?body2 ?s] =>
    match type of Hrun with
    | context [for_each xs ?body1 s] =>
        rewrite (for_each_agree xs body1 body2 s); [done| |]
    end
  end.
  - intros num g _ Hok.
    destruct (set_cell g row col (Num num)) as [g1|e]; simpl in *; [|done].
    destruct (solveRecursive fuel g1 cfg) as [res|e] eqn:Hrec; simpl in *.
    + by rewrite (IH g1 res Hrec).
    + by destruct (Hok e).
  - intros e He. by rewrite He in Hrun.
Qed.

Lemma solveRecursive_fuel_le cfg fuel fuel' (grid : SudokuGrid) r :
  fuel <= fuel' ->
  solveRecursive fuel grid cfg = Ok r -> solveRecursive fuel' grid cfg = Ok r.
Proof.
  induction 1 as [|fuel' _ IH]; [done|].
  intros Hrun. by apply solveRecursive_more_fuel, IH.
Qed.

(** X19. For each difficulty, [solve] on the puzzle [generatePuzzle]
    returns, with fuel for every empty cell, returns true and leaves
    exactly the solution [generatePuzzle] returns with it. *)
Theorem solve_generated_puzzle difficulty fuel :
  let generated := SudokuGenerator.generatePuzzle difficulty in
  countEmpty (SudokuGenerator.gen_puzzle generated) < fuel ->
  solve fuel (SudokuGenerator.gen_puzzle generated)
        (SudokuGenerator.gen_gridConfig generated)
  = Ok (true, SudokuGenerator.gen_solution generated).
Proof.
  intros generated Hfuel. unfold solve.
  apply (solveRecursive_fuel_le _
           (S (countEmpty (SudokuGenerator.gen_puzzle generated)))); [lia|].
  destruct difficulty; by vm_compute.
Qed.

Lemma solve_generated_puzzle_witness :
  solve 100 (SudokuGenerator.gen_puzzle (SudokuGenerator.generatePuzzle hard))
        (getGridConfig hard)
  = Ok (true, SudokuGenerator.gen_solution (SudokuGenerator.generatePuzzle hard)).
Proof.
  apply (solve_generated_puzzle hard 100). vm_compute. lia.
Defined.

(** ** More on validateGrid and isValidMove *)

Lemma conflictsOf_filter (grid : SudokuGrid) cfg :
  conflictsOf grid cfg =
  filter (fun p => conflictAt grid cfg (row p) (col p) = true) (allPositions cfg).
Proof.
  unfold conflictsOf, allPositions.
  generalize (seq 0 (size cfg)) at 1 3. intros cols.
  induction (seq 0 (size cfg)) as [|r rows IH]; simpl; [done|].
  rewrite filter_app, IH. f_equal. clear IH.
  induction cols as [|c cols IHc]; simpl; [done|].
  rewrite filter_cons. simpl. rewrite IHc.
  by destruct (conflictAt grid cfg r c); destruct (decide _).
Qed.

Lemma length_allPositions cfg : length (allPositions cfg) = size cfg * size cfg.
Proof.
  unfold allPositions.
  assert (forall rows : list nat,
    length (flat_map (fun row =>
      flat_map (fun col => [{| row := row; col := col |}])
        (seq 0 (size cfg))) rows) = length rows * size cfg) as Hlen.
  { induction rows as [|r rows IH]; simpl; [done|].
    rewrite length_app, IH. f_equal.
    assert (forall cols : list nat,
      length (flat_map (fun col => [{| row := r; col := col |}]) cols)
      = length cols) as Hc
      by (induction cols as [|c cols IHc]; simpl; [done|by rewrite IHc]).
    by rewrite Hc, length_seq. }
  by rewrite Hlen, length_seq.
Qed.

(** X20. [validateGrid] lists no cell twice, so the length of
    [conflicts] is the number of conflicting cells, at most [size *
    size]. *)
Theorem validateGrid_lists_each_cell_once cfg (grid : SudokuGrid) :
  wf_config cfg -> wf_grid cfg grid ->
  exists result grid',
    validateGrid grid cfg = Ok (result, grid') /\
    NoDup (conflicts result) /\
    length (conflicts result) <= size cfg * size cfg.
Proof.
  intros Hcfg Hwf. rewrite validateGrid_conflictsOf by done.
  eexists _, _. split; [done|]. simpl. rewrite conflictsOf_filter. split.
  - apply NoDup_filter, NoDup_allPositions.
  - rewrite <- length_allPositions. apply length_filter.
Qed.

Lemma validateGrid_lists_each_cell_once_witness :
  exists result grid',
    validateGrid allOnes4 (getGridConfig easy) = Ok (result, grid') /\
    NoDup (conflicts result) /\
    length (conflicts result) <= 4 * 4.
Proof.
  apply (validateGrid_lists_each_cell_once (getGridConfig easy) allOnes4).
  - apply wf_config_getGridConfig.
  - by apply wf_gridb_true.
Defined.

(** X21. [isValidMove] for a row that the grid does not have throws a
    TypeError, whenever the configured size is at least 2: the row scan
    reads [grid[row][c]] for a column other than [col]. *)
Theorem isValidMove_missing_row_throws cfg (grid : SudokuGrid) row col num :
  2 <= size cfg -> length grid <= row ->
  isValidMove grid row col num cfg = Err TypeError.
Proof.
  intros Hsize Hrow. unfold isValidMove.
  destruct (size cfg) as [|[|n]]; [lia|lia|].
  assert (get_cell grid row 0 = Err TypeError /\
          get_cell grid row 1 = Err TypeError) as [H0 H1].
  { unfold get_cell. by rewrite (proj2 (lookup_ge_None grid row)). }
  change (seq 0 (S (S n))) with (0 :: 1 :: seq 2 n).
  cbn [for_each]. destruct col as [|col]; simpl.
  - by rewrite H1.
  - by rewrite H0.
Qed.

Lemma isValidMove_missing_row_throws_witness :
  isValidMove twoOnes4 4 0 (Num 1) (getGridConfig easy) = Err TypeError.
Proof.
  apply (isValidMove_missing_row_throws (getGridConfig easy) twoOnes4 4 0 (Num 1)).
  - simpl; lia.
  - simpl; lia.
Defined.
